(** * accord07: the build script's link resolver and near-duplicate detector

    A shallow embedding of [build.mjs]: the string helpers it relies on, the
    [javascript:parent.*] link resolver, tokenisation, the FNV-1a / SimHash
    fingerprint, Hamming and Jaccard similarity, and the second pass of
    [main] that groups candidates by title, elects a canonical page and
    builds the navigation manifest and the dedupe report. *)

From Stdlib Require Import ZArith QArith Lia String Ascii.
From stdpp Require Import base decidable list sorting gmap sets.

#[local] Open Scope Z_scope.

(** ** JavaScript strings

    A JavaScript string is a sequence of UTF-16 code units;
    [str.charCodeAt(i)] is the [i]-th element and [str.length] the length
    of the list. *)

Definition jsstring : Type := list Z.

(** A literal of the source, written with ASCII characters only. *)
Definition js (s : string) : jsstring :=
  map (fun a => Z.of_N (N_of_ascii a)) (list_ascii_of_string s).

Definition jslength (s : jsstring) : Z := Z.of_nat (length s).

(** WhiteSpace and LineTerminator code units of ECMAScript: what
    [String.prototype.trim] strips and what the regular expression class
    [\s] matches. *)
Definition is_js_space (c : Z) : bool :=
  ((9 <=? c) && (c <=? 13)) || (c =? 32) || (c =? 160) || (c =? 5760)
  || ((8192 <=? c) && (c <=? 8202)) || (c =? 8232) || (c =? 8233)
  || (c =? 8239) || (c =? 8287) || (c =? 12288) || (c =? 65279).

Fixpoint trimStart (s : jsstring) : jsstring :=
  match s with
  | c :: s' => if is_js_space c then trimStart s' else s
  | [] => []
  end.

Definition trimEnd (s : jsstring) : jsstring := rev (trimStart (rev s)).

(** [str.trim()] *)
Definition trim (s : jsstring) : jsstring := trimEnd (trimStart s).

(** [str.split(sep)] for a separator of one code unit: the pieces between
    the separators, empty pieces included; the empty string splits into one
    empty piece. *)
Fixpoint split (sep : Z) (s : jsstring) : list jsstring :=
  match s with
  | [] => [[]]
  | c :: s' =>
      if c =? sep then [] :: split sep s'
      else match split sep s' with
           | w :: ws => (c :: w) :: ws
           | [] => [[c]]
           end
  end.

(** [str.startsWith(prefix)] *)
Fixpoint startsWith (s prefix : jsstring) : bool :=
  match prefix, s with
  | [], _ => true
  | p :: prefix', c :: s' => (c =? p) && startsWith s' prefix'
  | _ :: _, [] => false
  end.

(** ** Tokenisation and SimHash *)

Definition SPACE : Z := 32.

(** [tokenize(text)]: split on a space, drop the tokens of length <= 2. *)
Definition tokenize (text : jsstring) : list jsstring :=
  filter (fun w => 2 < jslength w) (split SPACE text).

Definition FNV_OFFSET : Z := 0xcbf29ce484222325.
Definition FNV_PRIME : Z := 0x100000001b3.
Definition MASK64 : Z := 0xFFFFFFFFFFFFFFFF.

(** One turn of the loop of [fnv1a64]: [hash ^= BigInt(c)], then
    [hash = (hash * prime) & 0xFFFFFFFFFFFFFFFFn]. *)
Definition fnv_step (hash c : Z) : Z :=
  Z.land (Z.lxor hash c * FNV_PRIME) MASK64.

(** [fnv1a64(str)], on BigInt values. *)
Definition fnv1a64 (str : jsstring) : Z := fold_left fnv_step str FNV_OFFSET.

Definition bits : nat := 64.

(** The inner loop of [simhash64] for one token hash [h]:
    [for (i = 0; i < bits; i++) v[i] += (((h >> i) & 1n) === 1n ? 1 : -1)].
    The index stays below the length of [v], so the update is always in
    range. *)
Definition vote (h : Z) (v : list Z) (i : nat) : list Z :=
  let bit := Z.land (Z.shiftr h (Z.of_nat i)) 1 in
  alter (fun x => x + (if bit =? 1 then 1 else -1)) i v.

Definition add_token (v : list Z) (t : jsstring) : list Z :=
  let h := fnv1a64 t in
  fold_left (vote h) (seq 0 bits) v.

(** The accumulators [v] after the loop over the tokens. *)
Definition accumulate (tokens : list jsstring) : list Z :=
  fold_left add_token tokens (replicate bits 0).

(** The last loop of [simhash64]: [if (v[i] > 0) sig |= (1n << BigInt(i))]. *)
Definition set_bit (v : list Z) (sig : Z) (i : nat) : Z :=
  match v !! i with
  | Some x => if 0 <? x then Z.lor sig (Z.shiftl 1 (Z.of_nat i)) else sig
  | None => sig
  end.

Definition signature (v : list Z) : Z := fold_left (set_bit v) (seq 0 bits) 0.

(** [simhash64(tokens)] *)
Definition simhash64 (tokens : list jsstring) : Z := signature (accumulate tokens).

(** [hamming64(a, b)]: [x = a ^ b], then [while (x) { x &= x - 1n; count++ }].
    The loop is not structurally recursive (on a negative BigInt it never
    ends), so the model carries the number of iterations it may still run:
    [None] stands for a loop that has not ended within the fuel. *)
Fixpoint hamming_loop (fuel : nat) (x count : Z) : option Z :=
  if x =? 0 then Some count
  else match fuel with
       | O => None
       | S fuel' => hamming_loop fuel' (Z.land x (x - 1)) (count + 1)
       end.

Definition hamming64 (fuel : nat) (a b : Z) : option Z :=
  hamming_loop fuel (Z.lxor a b) 0.

(** ** JavaScript [Set]

    The elements in insertion order, none of them twice; [for (x of s)]
    visits them in that order. *)

Section JsSet.
Context {A : Type} `{EqDecision A}.

Definition Set_has (s : list A) (x : A) : bool := bool_decide (x ∈ s).

Definition Set_add (s : list A) (x : A) : list A :=
  if Set_has s x then s else s ++ [x].

(** [new Set(iterable)] *)
Definition Set_new (items : list A) : list A := fold_left Set_add items [].

Definition Set_size (s : list A) : Z := Z.of_nat (length s).

(** The body of the loop of [jaccard]:
    [if (seen.has(x)) inter++; seen.add(x)]. *)
Definition jaccard_step (st : Z * list A) (x : A) : Z * list A :=
  ((if Set_has st.2 x then st.1 + 1 else st.1), Set_add st.2 x).

(** [jaccard(aSet, bSet)]. The quotient [inter / union] of two integers is
    kept as the exact rational; the JavaScript number is the double nearest
    to it (exactly 1 when [inter = union], exactly 0 when [inter = 0]). *)
Definition jaccard (aSet bSet : list A) : Q :=
  let seen := Set_new aSet in
  let st := fold_left jaccard_step bSet (0, seen) in
  let inter := st.1 in
  let union := Set_size st.2 in
  if union =? 0 then 1%Q else (inject_Z inter / inject_Z union)%Q.

End JsSet.

(** ** Regular expressions

    The fragment of ECMAScript regular expressions the script uses, with
    the backtracking semantics of the language: greedy quantifiers, one
    capturing group, the anchors, and the [i] flag. *)

Inductive regex : Type :=
| REps                                  (* the empty pattern *)
| RChar (c : Z)                         (* a literal character *)
| RSet (neg : bool) (cs : list Z)       (* [abc] and [^abc] *)
| RSpace                                (* \s *)
| RDigit                                (* \d *)
| RBol                                  (* ^ *)
| REol                                  (* $ *)
| RSeq (r1 r2 : regex)
| RStar (r : regex)                     (* r* *)
| ROpt (r : regex)                      (* r? *)
| RGroup (r : regex).                   (* ( r ), the capturing group 1 *)

(** r+ *)
Definition RPlus (r : regex) : regex := RSeq r (RStar r).

(** A run of literal characters. *)
Definition RLit (s : string) : regex := foldr (fun c r => RSeq (RChar c) r) REps (js s).

(** Several patterns in a row. *)
Definition RCat (rs : list regex) : regex := foldr RSeq REps rs.

(** Where a match attempt stands: the number of code units before the
    current position, the input from there on, and group 1 if it is set. *)
Record mstate : Type := { consumed : nat; rest : jsstring; group1 : option jsstring }.

Definition advance (s : mstate) : mstate :=
  {| consumed := S (consumed s); rest := tail (rest s); group1 := group1 s |}.

(** Canonicalize of the [i] flag (without [u]): a character is compared by
    its upper case, and a character outside ASCII never becomes an ASCII
    one; the patterns of the script hold ASCII characters only, so only the
    letters a-z are affected. *)
Definition canon (icase : bool) (c : Z) : Z :=
  if icase && (97 <=? c) && (c <=? 122) then c - 32 else c.

Definition is_digit (c : Z) : bool := (48 <=? c) && (c <=? 57).

Definition progressed (s s' : mstate) : bool := (length (rest s') <? length (rest s))%nat.

(** The matcher, in continuation-passing style: [k] is what has to match
    after [r]. An iteration of a quantifier that consumes nothing is
    rejected, as the language says. *)
Fixpoint rmatch {R : Type} (icase : bool) (r : regex) (s : mstate)
    (k : mstate -> option R) : option R :=
  match r with
  | REps => k s
  | RChar c =>
      match rest s with
      | x :: _ => if canon icase x =? canon icase c then k (advance s) else None
      | [] => None
      end
  | RSet neg cs =>
      match rest s with
      | x :: _ =>
          if xorb neg (existsb (fun c => canon icase x =? canon icase c) cs)
          then k (advance s) else None
      | [] => None
      end
  | RSpace =>
      match rest s with
      | x :: _ => if is_js_space x then k (advance s) else None
      | [] => None
      end
  | RDigit =>
      match rest s with
      | x :: _ => if is_digit x then k (advance s) else None
      | [] => None
      end
  | RBol => if (consumed s =? 0)%nat then k s else None
  | REol => match rest s with [] => k s | _ :: _ => None end
  | RSeq r1 r2 => rmatch icase r1 s (fun s' => rmatch icase r2 s' k)
  | RStar r' =>
      (fix star (n : nat) (s : mstate) {struct n} : option R :=
         match n with
         | O => k s
         | S n' =>
             match rmatch icase r' s
                     (fun s' => if progressed s s' then star n' s' else None) with
             | Some x => Some x
             | None => k s
             end
         end) (length (rest s)) s
  | ROpt r' =>
      match rmatch icase r' s (fun s' => if progressed s s' then k s' else None) with
      | Some x => Some x
      | None => k s
      end
  | RGroup r' =>
      rmatch icase r' s
        (fun s' =>
           k {| consumed := consumed s'; rest := rest s';
                group1 := Some (take (length (rest s) - length (rest s')) (rest s)) |})
  end.

(** The first match, trying the start positions from left to right; the
    result is group 1 of the match ([None] inside when the group is unset). *)
Fixpoint search (icase : bool) (r : regex) (pos : nat) (s : jsstring)
    : option (option jsstring) :=
  match rmatch icase r {| consumed := pos; rest := s; group1 := None |}
          (fun s' => Some (group1 s')) with
  | Some g => Some g
  | None =>
      match s with
      | [] => None
      | _ :: s' => search icase r (S pos) s'
      end
  end.

(** [str.match(re)] for a pattern without the [g] flag: [m[1]] of the match. *)
Definition re_match (icase : bool) (r : regex) (s : jsstring) : option (option jsstring) :=
  search icase r 0 s.

(** [re.test(str)] *)
Definition re_test (icase : bool) (r : regex) (s : jsstring) : bool :=
  bool_decide (is_Some (re_match icase r s)).

(** ** The Node.js runtime

    What the script takes from the runtime and its libraries: Unicode case
    mapping and character properties, collation, and the [path] module. *)

Class Runtime : Type := {
  (** [str.toLowerCase()] *)
  toLowerCase : jsstring -> jsstring;
  (** whether a code point matches [[\p{L}\p{N}]] *)
  isLetterOrNumber : Z -> bool;
  (** [a.localeCompare(b, undefined, { sensitivity: "base" })] *)
  localeCompare : jsstring -> jsstring -> Z;
  (** [path.sep], one code unit *)
  path_sep : Z;
  (** [path.basename(p)] *)
  path_basename : jsstring -> jsstring;
  (** [path.posix.dirname(p)] *)
  posix_dirname : jsstring -> jsstring;
  (** [path.posix.join(a, b)] *)
  posix_join : jsstring -> jsstring -> jsstring;
  (** [path.posix.normalize(p)] *)
  posix_normalize : jsstring -> jsstring;
}.

(** [arr.join(sep)] on strings *)
Fixpoint join (sep : jsstring) (parts : list jsstring) : jsstring :=
  match parts with
  | [] => []
  | [p] => p
  | p :: parts' => p ++ sep ++ join sep parts'
  end.

(** ** The link resolver *)

Section Resolver.
Context `{Runtime}.

Definition toPosix (p : jsstring) : jsstring := join (js "/") (split path_sep p).

Definition resolveRelative (fromRel hrefRel : jsstring) : jsstring :=
  let baseDir := posix_dirname fromRel in
  toPosix (posix_normalize (posix_join baseDir hrefRel)).

(** [candidateTargets(id)], the values the generator yields, in order. *)
Definition candidateTargets (id : jsstring) : list jsstring :=
  [id ++ js ".html"; id ++ js "_PR.html"; id ++ js "_PR1.html"; id ++ js "_PR2.html"].

(** [/parent\.Prt\(\s*'([^']+)'\s*(?:,\s*'?\d'?)?\s*\)/i] *)
Definition RE_PRT : regex :=
  RCat [RLit "parent.Prt("; RStar RSpace; RLit "'";
        RGroup (RPlus (RSet true (js "'"))); RLit "'"; RStar RSpace;
        ROpt (RCat [RLit ","; RStar RSpace; ROpt (RLit "'"); RDigit; ROpt (RLit "'")]);
        RStar RSpace; RLit ")"].

(** [/parent\.Cts\(\s*'([^']+)'/i] *)
Definition RE_CTS : regex :=
  RCat [RLit "parent.Cts("; RStar RSpace; RLit "'";
        RGroup (RPlus (RSet true (js "'"))); RLit "'"].

(** [/parent\.Jmp\(\s*'([^']+)'\s*\)/i] *)
Definition RE_JMP : regex :=
  RCat [RLit "parent.Jmp("; RStar RSpace; RLit "'";
        RGroup (RPlus (RSet true (js "'"))); RLit "'"; RStar RSpace; RLit ")"].

(** [`${id}`] for [id = m[1]]: an unset group prints as [undefined]. *)
Definition group_text (g : option jsstring) : jsstring := default (js "undefined") g.

(** The loop [for (const cand of candidateTargets(id))] with its [break]:
    the first candidate whose resolved path is in [allPaths]. *)
Definition first_present (allPaths : gset jsstring) (rel id : jsstring) : option jsstring :=
  List.find (fun cand => bool_decide (resolveRelative rel cand ∈ allPaths))
            (candidateTargets id).

(** The callback of [doc$("a[href^='javascript:parent.']").each]: the new
    value of the [href] attribute of an anchor whose [href] is [js_href]. *)
Definition rewrite_href (allPaths : gset jsstring) (rel js_href : jsstring) : jsstring :=
  let replaced :=
    match re_match true RE_PRT js_href with
    | Some m => first_present allPaths rel (group_text m)
    | None => None
    end in
  match replaced with
  | Some cand => cand
  | None =>
      let replaced :=
        match re_match true RE_CTS js_href with
        | Some m => first_present allPaths rel (group_text m)
        | None => None
        end in
      match replaced with
      | Some cand => cand
      | None =>
          match re_match true RE_JMP js_href with
          | Some _ => js "#"
          | None => js "#"
          end
      end
  end.

(** The selector [a[href^='javascript:parent.']]: other anchors keep their
    [href]. *)
Definition rewrite_anchor (allPaths : gset jsstring) (rel href : jsstring) : jsstring :=
  if startsWith href (js "javascript:parent.") then rewrite_href allPaths rel href
  else href.

End Resolver.

(** ** [path] on a POSIX system

    The algorithms of Node's [path.posix], on which [path] falls back
    outside Windows. *)

Module NodePosix.

Definition SLASH : Z := 47.
Definition DOT : Z := 46.

Definition is_slash (c : Z) : bool := c =? SLASH.

Fixpoint dropSlashes (s : jsstring) : jsstring :=
  match s with
  | c :: s' => if is_slash c then dropSlashes s' else s
  | [] => []
  end.

Fixpoint dropSegment (s : jsstring) : jsstring :=
  match s with
  | c :: s' => if is_slash c then s else dropSegment s'
  | [] => []
  end.

Fixpoint takeSegment (s : jsstring) : jsstring :=
  match s with
  | c :: s' => if is_slash c then [] else c :: takeSegment s'
  | [] => []
  end.

(** [normalizeString]: the segments that remain, last one first. *)
Definition normalize_segment (allowAboveRoot : bool) (stack : list jsstring) (seg : jsstring)
    : list jsstring :=
  if bool_decide (seg = []) || bool_decide (seg = [DOT]) then stack
  else if bool_decide (seg = [DOT; DOT]) then
    match stack with
    | top :: stack' =>
        if bool_decide (top = [DOT; DOT])
        then (if allowAboveRoot then seg :: stack else stack)
        else stack'
    | [] => if allowAboveRoot then [seg] else []
    end
  else seg :: stack.

Definition normalizeString (p : jsstring) (allowAboveRoot : bool) : jsstring :=
  join [SLASH] (rev (fold_left (normalize_segment allowAboveRoot) (split SLASH p) [])).

Definition normalize (p : jsstring) : jsstring :=
  match p with
  | [] => [DOT]
  | c :: _ =>
      let isAbsolute := is_slash c in
      let trailingSeparator := match last p with Some l => is_slash l | None => false end in
      let body := normalizeString p (negb isAbsolute) in
      match body with
      | [] => if isAbsolute then [SLASH]
              else if trailingSeparator then [DOT; SLASH] else [DOT]
      | _ :: _ =>
          let body := if trailingSeparator then body ++ [SLASH] else body in
          if isAbsolute then SLASH :: body else body
      end
  end.

Definition join2 (a b : jsstring) : jsstring :=
  match filter (fun p : jsstring => p ≠ []) [a; b] with
  | [] => [DOT]
  | parts => normalize (join [SLASH] parts)
  end.

Definition dirname (p : jsstring) : jsstring :=
  match p with
  | [] => [DOT]
  | c :: p' =>
      let hasRoot := is_slash c in
      match dropSegment (dropSlashes (rev p')) with
      | [] => if hasRoot then [SLASH] else [DOT]
      | _ :: before =>
          if hasRoot && bool_decide (before = []) then [SLASH; SLASH]
          else c :: rev before
      end
  end.

Definition basename (p : jsstring) : jsstring :=
  rev (takeSegment (dropSlashes (rev p))).

End NodePosix.

Definition ascii_lower (c : Z) : Z := if (65 <=? c) && (c <=? 90) then c + 32 else c.

Definition ascii_alnum (c : Z) : bool :=
  is_digit c || ((65 <=? c) && (c <=? 90)) || ((97 <=? c) && (c <=? 122)).

Fixpoint compare_units (a b : jsstring) : Z :=
  match a, b with
  | [], [] => 0
  | [], _ :: _ => -1
  | _ :: _, [] => 1
  | x :: a', y :: b' => if x <? y then -1 else if y <? x then 1 else compare_units a' b'
  end.

(** The runtime on a POSIX system, restricted to ASCII text: on strings of
    ASCII characters case mapping and the letter and digit classes are the
    ASCII ones; collation of base sensitivity is taken as the order of the
    case-folded strings, which is how it orders words of ASCII letters. *)
#[export] Instance posix_ascii_runtime : Runtime := {|
  toLowerCase := map ascii_lower;
  isLetterOrNumber := ascii_alnum;
  localeCompare a b := compare_units (map ascii_lower a) (map ascii_lower b);
  path_sep := NodePosix.SLASH;
  path_basename := NodePosix.basename;
  posix_dirname := NodePosix.dirname;
  posix_join := NodePosix.join2;
  posix_normalize := NodePosix.normalize;
|}.

(** ** Titles and navigation eligibility *)

(** What the script reads of a parsed document: the text of its first
    [title] element and of its first [h1] element, each the empty string
    when there is no such element. *)
Record doc : Type := { title_text : jsstring; h1_text : jsstring }.

(** A string in a condition: the empty string is false. *)
Definition truthy (s : jsstring) : bool :=
  match s with [] => false | _ :: _ => true end.

(** [headTitleStrict($)]: [($("title").first().text() || "").trim()] *)
Definition headTitleStrict (d : doc) : jsstring := trim (title_text d).

(** [displayTitle($, fallback)] *)
Definition displayTitle (d : doc) (fallback : jsstring) : jsstring :=
  let t := trim (title_text d) in
  let t :=
    if truthy t then t
    else let h1 := trim (h1_text d) in
         if truthy h1 then h1 else fallback in
  if truthy t then t else fallback.

(** [$("title").first().text(t)] *)
Definition set_title (d : doc) (t : jsstring) : doc :=
  {| title_text := t; h1_text := h1_text d |}.

(** The code points of a string, as a pattern with the [u] flag reads it:
    a high surrogate followed by a low one is one code point. *)
Fixpoint codePoints (s : jsstring) : list Z :=
  match s with
  | [] => []
  | hi :: s' =>
      match s' with
      | lo :: s'' =>
          if (55296 <=? hi) && (hi <=? 56319) && (56320 <=? lo) && (lo <=? 57343)
          then (65536 + (hi - 55296) * 1024 + (lo - 56320)) :: codePoints s''
          else hi :: codePoints s'
      | [] => [hi]
      end
  end.

(** [/_pr[12]\.html?$/] *)
Definition RE_PANE : regex :=
  RCat [RLit "_pr"; RSet false (js "12"); RLit ".htm"; ROpt (RLit "l"); REol].

(** [EXCLUDE_FROM_NAV], all three with the [i] flag. *)
Definition EXCLUDE_FROM_NAV : list regex :=
  [RCat [RBol; RLit "_COM/"];
   RCat [RLit "/ESMBLANK.HTML"; REol];
   RCat [RBol; RLit "HONDAESM.HTML"; REol]].

Definition NAV_ROOT_PREFIX : jsstring := js "en/html/".

Definition isExcludedFromNav (relPath : jsstring) : bool :=
  existsb (fun rx => re_test true rx relPath) EXCLUDE_FROM_NAV.

Section Navigation.
Context `{Runtime}.

(** [isMeaningfulTitle(str)]: [t.length > 0 && /[\p{L}\p{N}]/u.test(t)]
    for [t = (str || "").trim()]. *)
Definition isMeaningfulTitle (str : jsstring) : bool :=
  let t := trim str in
  (0 <? jslength t) && existsb isLetterOrNumber (codePoints t).

Definition includeInFlatNav (relPath strictTitle : jsstring) : bool :=
  let p := toLowerCase relPath in
  startsWith p NAV_ROOT_PREFIX
  && negb (re_test false RE_PANE p)
  && negb (isExcludedFromNav relPath)
  && isMeaningfulTitle strictTitle.

End Navigation.

(** ** Candidates of the duplicate detection *)

Record candidate : Type := {
  path : jsstring;
  strictTitle : jsstring;
  dispTitle : jsstring;
  textLen : Z;
  simhash : Z;
}.

#[export] Instance candidate_eq_dec : EqDecision candidate.
Proof. solve_decision. Defined.

(** A page of pass 2 as the candidate code sees it. For a frameset page
    [source] is the parsed input [$] and [norm] the normalized text of the
    page generated from it (merged or fallback); for a normal page [source]
    is the cleaned document [doc$] and [norm] its normalized text. *)
Inductive pageKind : Type := FramesetPage | NormalPage.

Record page : Type := {
  rel : jsstring;
  kind : pageKind;
  source : doc;
  norm : jsstring;
}.

Section Candidates.
Context `{Runtime}.

(** The strict title a page is filed under. A frameset page reads it from
    its input; a normal page reads it from [doc$] after the title element
    was set to the display title. *)
Definition strict_of_page (p : page) : jsstring :=
  match kind p with
  | FramesetPage => headTitleStrict (source p)
  | NormalPage =>
      let dispTitle := displayTitle (source p) (path_basename (rel p)) in
      headTitleStrict (set_title (source p) dispTitle)
  end.

(** The object pushed on [candidates]. *)
Definition candidate_of_page (p : page) : candidate :=
  let toks := tokenize (norm p) in
  {| path := rel p;
     strictTitle := strict_of_page p;
     dispTitle := displayTitle (source p) (path_basename (rel p));
     textLen := jslength (norm p);
     simhash := simhash64 toks |}.

(** Pass 2, as far as [candidates] goes: a page is pushed when
    [includeInFlatNav(rel, strict)] holds. *)
Definition collect (pages : list page) : list candidate :=
  map candidate_of_page
      (filter (fun p => includeInFlatNav (rel p) (strict_of_page p)) pages).

End Candidates.

(** ** Grouping by title *)

(** [byTitle]: a [Map] from the strict title to the array of candidates,
    its entries in insertion order. [push_group] is
    [if (!byTitle.has(k)) byTitle.set(k, []); byTitle.get(k).push(c)]. *)
Fixpoint push_group (k : jsstring) (c : candidate) (m : list (jsstring * list candidate))
    : list (jsstring * list candidate) :=
  match m with
  | [] => [(k, [c])]
  | (k', arr) :: m' =>
      if decide (k' = k) then (k', arr ++ [c]) :: m'
      else (k', arr) :: push_group k c m'
  end.

Definition groupByTitle (candidates : list candidate) : list (jsstring * list candidate) :=
  fold_left (fun m c => push_group (strictTitle c) c m) candidates [].

(** ** [Array.prototype.sort]

    The sort of the language is stable, and a comparator that orders its
    arguments consistently fixes the result: it is the one of a stable
    insertion sort, where an element goes before the first element it
    compares smaller than. *)
Fixpoint sort_insert {A : Type} (cmp : A -> A -> Z) (x : A) (l : list A) : list A :=
  match l with
  | [] => [x]
  | y :: l' => if cmp x y <? 0 then x :: l else y :: sort_insert cmp x l'
  end.

Definition Array_sort {A : Type} (cmp : A -> A -> Z) (l : list A) : list A :=
  fold_left (fun acc x => sort_insert cmp x acc) l [].

(** ** The duplicate detection of [main] *)

Definition HAMMING_MAX : Z := 3.

(** [JACCARD_MIN = 0.98]. The comparison [jac >= JACCARD_MIN] of two
    doubles is taken on the exact rationals; for sets of fewer than 2^47
    tokens the two agree, since a quotient below 49/50 is below it by at
    least 1/(50 * union). *)
Definition JACCARD_MIN : Q := 98 # 100.

Module Nav.
(** An element of [navItems]: [{ title, path, dup }]. *)
Record item : Type := { title : jsstring; path : jsstring; dup : bool }.
End Nav.

Module Report.
(** An element of [dedupeReport]: [{ title, kept, duplicates, reason }]. *)
Record record : Type := {
  title : jsstring;
  kept : list jsstring;
  duplicates : list jsstring;
  reason : jsstring;
}.
End Report.

(** [`HAMMING<=${HAMMING_MAX} or JACCARD>=${JACCARD_MIN}`], the two
    constants printed as [3] and [0.98]. *)
Definition REASON : jsstring := js "HAMMING<=3 or JACCARD>=0.98".

(** What the second pass has produced so far: the two arrays it pushes on,
    and the files of [outDir] it has read, in order. *)
Record state : Type := {
  navItems : list Nav.item;
  dedupeReport : list Report.record;
  reads : list jsstring;
}.

(** [if (dupes.length)] *)
Definition truthy_length {A : Type} (l : list A) : bool :=
  match l with [] => false | _ :: _ => true end.

(** The comparator [(a, b) => b.textLen - a.textLen]. *)
Definition by_textLen_desc (a b : candidate) : Z := textLen b - textLen a.

Section Dedupe.
Context `{Runtime}.

(** The normalized text of the page written at [outDir/p]:
    [normalizeTextForCompare(cheerio.load(await readUtf8(...)))]. *)
Variable written : jsstring -> jsstring.

(** The number of turns a call of [hamming64] may take. *)
Variable fuel : nat.

(** The body of the loop over [arr[1..]]: whether [cand] is a duplicate
    of [canonical], and the files read to decide it. [None]: the Hamming
    loop did not end. *)
Definition classify (canonical cand : candidate) : option (bool * list jsstring) :=
  match hamming64 fuel (simhash canonical) (simhash cand) with
  | None => None
  | Some ham =>
      if ham <=? HAMMING_MAX then Some (true, [])
      else
        let setA := Set_new (tokenize (written (path canonical))) in
        let setB := Set_new (tokenize (written (path cand))) in
        let jac := jaccard setA setB in
        Some (Qle_bool JACCARD_MIN jac, [path canonical; path cand])
  end.

(** The loop [for (let i = 1; i < arr.length; i++)], on [keep], [dupes]
    and the files read. *)
Fixpoint classify_rest (canonical : candidate) (rest : list candidate)
    (keep dupes : list candidate) (rd : list jsstring)
    : option (list candidate * list candidate * list jsstring) :=
  match rest with
  | [] => Some (keep, dupes, rd)
  | cand :: rest' =>
      match classify canonical cand with
      | None => None
      | Some (isDup, files) =>
          if isDup then classify_rest canonical rest' keep (dupes ++ [cand]) (rd ++ files)
          else classify_rest canonical rest' (keep ++ [cand]) dupes (rd ++ files)
      end
  end.

Definition nav_of (title : jsstring) (isDup : bool) (c : candidate) : Nav.item :=
  {| Nav.title := title; Nav.path := path c; Nav.dup := isDup |}.

(** [for (const k of cs) if (isMeaningfulTitle(title)) navItems.push(...)] *)
Definition push_nav (title : jsstring) (isDup : bool) (cs : list candidate)
    (items : list Nav.item) : list Nav.item :=
  fold_left (fun items c =>
               if isMeaningfulTitle title then items ++ [nav_of title isDup c] else items)
            cs items.

(** One turn of [for (const [title, arr] of byTitle.entries())].
    [None]: the turn does not end normally. An empty [arr] would make
    [canonical] undefined and, under a meaningful title, [k.path] throw;
    [byTitle] holds no such entry. *)
Definition process_group (st : state) (title : jsstring) (arr : list candidate)
    : option state :=
  match arr with
  | [c] =>
      Some {| navItems := if isMeaningfulTitle title
                          then navItems st ++ [nav_of title false c]
                          else navItems st;
              dedupeReport := dedupeReport st;
              reads := reads st |}
  | _ =>
      match Array_sort by_textLen_desc arr with
      | [] => if isMeaningfulTitle title then None else Some st
      | canonical :: rest =>
          match classify_rest canonical rest [canonical] [] (reads st) with
          | None => None
          | Some (keep, dupes, rd) =>
              let items :=
                push_nav title true dupes (push_nav title false keep (navItems st)) in
              Some {| navItems := items;
                      dedupeReport :=
                        if truthy_length dupes
                        then dedupeReport st ++
                             [{| Report.title := title;
                                 Report.kept := map path keep;
                                 Report.duplicates := map path dupes;
                                 Report.reason := REASON |}]
                        else dedupeReport st;
                      reads := rd |}
          end
      end
  end.

Fixpoint process_groups (st : state) (groups : list (jsstring * list candidate))
    : option state :=
  match groups with
  | [] => Some st
  | (title, arr) :: groups' =>
      match process_group st title arr with
      | None => None
      | Some st' => process_groups st' groups'
      end
  end.

(** What the second pass hands on: the manifest [filteredNavItems] given
    to [writeIndexFlat], the [groups] of the report file, and the files
    read from [outDir]. *)
Record output : Type := {
  manifest : list Nav.item;
  report : list Report.record;
  files_read : list jsstring;
}.

(** [main] from the grouping on. *)
Definition dedupe (candidates : list candidate) : option output :=
  let byTitle := groupByTitle candidates in
  match process_groups {| navItems := []; dedupeReport := []; reads := [] |} byTitle with
  | None => None
  | Some st =>
      let sorted :=
        Array_sort (fun a b => localeCompare (Nav.title a) (Nav.title b)) (navItems st) in
      let filteredNavItems :=
        filter (fun it => isMeaningfulTitle (Nav.title it)) sorted in
      Some {| manifest := filteredNavItems;
              report := dedupeReport st;
              files_read := reads st |}
  end.

End Dedupe.

(** ** Specification-level counterparts

    Closed forms the loops above are compared with. *)

(** What one token hash [h] adds to accumulator [i]. *)
Definition delta (h : Z) (i : nat) : Z :=
  if Z.testbit h (Z.of_nat i) then 1 else -1.

(** The sum of the contributions of the tokens to accumulator [i]. *)
Definition tally (tokens : list jsstring) (i : nat) : Z :=
  foldr (fun t acc => delta (fnv1a64 t) i + acc) 0 tokens.

(** The accumulator of bit [i] as the specification words it: one up for
    each token of the sequence whose hash has bit [i] set, one down for
    each token whose hash has it clear. *)
Definition hash_bit (t : jsstring) (i : nat) : bool := Z.testbit (fnv1a64 t) (Z.of_nat i).

Definition votes_for (tokens : list jsstring) (i : nat) : Z :=
  Z.of_nat (length (List.filter (fun t => hash_bit t i) tokens)).

Definition votes_against (tokens : list jsstring) (i : nat) : Z :=
  Z.of_nat (length (List.filter (fun t => negb (hash_bit t i)) tokens)).

Definition accumulator_spec (tokens : list jsstring) (i : nat) : Z :=
  votes_for tokens i - votes_against tokens i.


(** The bit positions at which two fingerprints differ. *)
Definition differing_bits (a b : Z) : list nat :=
  filter (fun i : nat => Z.testbit a (Z.of_nat i) <> Z.testbit b (Z.of_nat i)) (seq 0 bits).

(** Longest first. *)
Definition longer_first (a b : candidate) : Prop := textLen b <= textLen a.

(** A candidate whose fingerprint is a 64-bit value, as every fingerprint
    [simhash64] returns is. *)
Definition wf_candidate (c : candidate) : Prop := 0 <= simhash c < 2 ^ 64.

(** The number of 1 bits of a non-negative BigInt. *)
Fixpoint pos_popcount (p : positive) : nat :=
  match p with
  | xH => 1
  | xO q => pos_popcount q
  | xI q => S (pos_popcount q)
  end.

Definition popcount (x : Z) : nat :=
  match x with
  | Zpos p => pos_popcount p
  | _ => O
  end.


(** The loop body of the classification in closed form, the Hamming loop
    replaced by the number of differing bits: whether [cand] is a
    duplicate of [canonical], and the files read to decide it. *)
Definition verdict (written : jsstring -> jsstring) (canonical cand : candidate)
    : bool * list jsstring :=
  if Z.of_nat (popcount (Z.lxor (simhash canonical) (simhash cand))) <=? HAMMING_MAX
  then (true, [])
  else
    (Qle_bool JACCARD_MIN
       (jaccard (Set_new (tokenize (written (path canonical))))
                (Set_new (tokenize (written (path cand))))),
     [path canonical; path cand]).

Definition is_dup (written : jsstring -> jsstring) (canonical cand : candidate) : bool :=
  (verdict written canonical cand).1.

(** [keep], [dupes] and the files read for one title group. *)
Definition split_group (written : jsstring -> jsstring) (arr : list candidate)
    : list candidate * list candidate * list jsstring :=
  match arr with
  | [c] => ([c], [], [])
  | _ =>
      match Array_sort by_textLen_desc arr with
      | [] => ([], [], [])
      | canonical :: rest =>
          (canonical :: filter (fun c => ¬ is_dup written canonical c) rest,
           filter (fun c => is_dup written canonical c) rest,
           flat_map (fun c => (verdict written canonical c).2) rest)
      end
  end.

Definition group_keep (written : jsstring -> jsstring) (arr : list candidate) : list candidate :=
  (split_group written arr).1.1.

Definition group_dupes (written : jsstring -> jsstring) (arr : list candidate) : list candidate :=
  (split_group written arr).1.2.

Definition group_files (written : jsstring -> jsstring) (arr : list candidate) : list jsstring :=
  (split_group written arr).2.

Section GroupResults.
Context `{Runtime}.
Variable written : jsstring -> jsstring.

(** What one title group adds to [navItems]. *)
Definition group_items (title : jsstring) (arr : list candidate) : list Nav.item :=
  if isMeaningfulTitle title
  then map (nav_of title false) (group_keep written arr)
       ++ map (nav_of title true) (group_dupes written arr)
  else [].

(** What one title group adds to [dedupeReport]. *)
Definition group_report (title : jsstring) (arr : list candidate) : list Report.record :=
  if truthy_length (group_dupes written arr)
  then [{| Report.title := title;
           Report.kept := map path (group_keep written arr);
           Report.duplicates := map path (group_dupes written arr);
           Report.reason := REASON |}]
  else [].

Definition group_result (st : state) (title : jsstring) (arr : list candidate) : state :=
  {| navItems := navItems st ++ group_items title arr;
     dedupeReport := dedupeReport st ++ group_report title arr;
     reads := reads st ++ group_files written arr |}.

End GroupResults.

(** The manifest entries of one title, and those of them with a given
    duplicate flag. *)
Definition entries_of (t : jsstring) (items : list Nav.item) : list Nav.item :=
  filter (fun it => Nav.title it = t) items.

Definition flagged (b : bool) (items : list Nav.item) : list Nav.item :=
  filter (fun it => Nav.dup it = b) items.

(** What [byTitle] is after the candidates [pre] have been filed: no title
    twice, every candidate's title present, and under each title the
    candidates of that title, in their order. *)
Definition grouped (m : list (jsstring * list candidate)) (pre : list candidate) : Prop :=
  NoDup m.*1 /\
  (forall c, c ∈ pre -> strictTitle c ∈ m.*1) /\
  (forall t arr, (t, arr) ∈ m ->
     arr = filter (fun c => strictTitle c = t) pre /\ arr <> []).


(** ** Sample data *)

Definition frameset_page (rel title text : string) : page :=
  {| rel := js rel; kind := FramesetPage;
     source := {| title_text := js title; h1_text := [] |};
     norm := js text |}.

Definition normal_page (rel title text : string) : page :=
  {| rel := js rel; kind := NormalPage;
     source := {| title_text := js title; h1_text := [] |};
     norm := js text |}.

(** An output tree in which reading a page back gives the normalized text
    the page was fingerprinted with. *)
Definition written_from (pages : list page) (p : jsstring) : jsstring :=
  match List.find (fun pg => bool_decide (rel pg = p)) pages with
  | Some pg => norm pg
  | None => []
  end.

(** Two candidates of one title, of 500 and 480 characters, whose
    fingerprints differ in two bits. *)
Definition engine_500 : candidate :=
  {| path := js "en/html/A500.html"; strictTitle := js "Engine Removal Procedure";
     dispTitle := js "Engine Removal Procedure"; textLen := 500; simhash := 0xF0F0 |}.

Definition engine_480 : candidate :=
  {| path := js "en/html/B480.html"; strictTitle := js "Engine Removal Procedure";
     dispTitle := js "Engine Removal Procedure"; textLen := 480; simhash := 0xF0F3 |}.

(** The normalized strict title as the specification words it: runs of
    whitespace collapsed to one space, invisible characters (zero-width
    spaces and joiners, the byte order mark, the word joiner, the soft
    hyphen) stripped, and the ends trimmed. *)
Definition is_invisible (c : Z) : bool :=
  ((8203 <=? c) && (c <=? 8205)) || (c =? 65279) || (c =? 8288) || (c =? 173).

Fixpoint collapse_spaces (in_run : bool) (s : jsstring) : jsstring :=
  match s with
  | [] => []
  | c :: s' =>
      if is_js_space c
      then (if in_run then collapse_spaces true s' else SPACE :: collapse_spaces true s')
      else c :: collapse_spaces false s'
  end.

Definition normalized_title_spec (s : jsstring) : jsstring :=
  trim (collapse_spaces false (filter (fun c => ¬ is_invisible c) s)).

(** Pages of the samples below. *)
Definition alpha_pages : list page :=
  [normal_page "en/html/a1.html" "Alpha Title" "engine removed";
   normal_page "en/html/a2.html" "Alpha Title" "engine removed"].

Definition beta_pages : list page :=
  [normal_page "en/html/b1.html" "Beta Title" "engine removed";
   normal_page "en/html/b2.html" "Beta Title" "engine removed removed removed"].

Definition gamma_pages : list page :=
  [normal_page "en/html/long.html" "Gamma Title" "engine removed procedure";
   normal_page "en/html/e1.html" "Gamma Title" "";
   normal_page "en/html/e2.html" "Gamma Title" ""].

(* ================================================================= *)
(** * Further definitions *)

(** The fingerprints of [canonical] and [cand] differ in at most
    [HAMMING_MAX] bit positions, or the token sets read back for the two
    pages have a Jaccard similarity of at least [JACCARD_MIN]. *)
Definition similar (written : jsstring -> jsstring) (canonical cand : candidate) : bool :=
  (Z.of_nat (length (differing_bits (simhash canonical) (simhash cand))) <=? HAMMING_MAX)
  || Qle_bool JACCARD_MIN
       (jaccard (Set_new (tokenize (written (path canonical))))
                (Set_new (tokenize (written (path cand))))).

(** The number of occurrences of a token in a token sequence. *)
Definition occurrences (t : jsstring) (tokens : list jsstring) : nat :=
  length (filter (fun w => w = t) tokens).

(** [c] is the first of the longest members of [l]: the members before it
    are strictly shorter, the members after it are not longer. *)
Definition first_longest (c : candidate) (l : list candidate) : Prop :=
  exists pre post,
    l = pre ++ c :: post /\
    Forall (fun x => textLen x < textLen c) pre /\
    Forall (fun x => textLen x <= textLen c) post.

(** What the head of a sorted array says about the input. *)
Definition head_first_longest (sorted scanned : list candidate) : Prop :=
  match sorted with
  | [] => scanned = []
  | c :: _ => first_longest c scanned
  end.

(** The title and the path of a manifest entry, and of a candidate. *)
Definition nav_key (it : Nav.item) : jsstring * jsstring := (Nav.title it, Nav.path it).

Definition candidate_key (c : candidate) : jsstring * jsstring := (strictTitle c, path c).

(** The endings of the file name of a frameset pane, in lower case. *)
Definition PANE_ENDINGS : list jsstring :=
  [js "_pr1.html"; js "_pr2.html"; js "_pr1.htm"; js "_pr2.htm"].

(** ** The comparison text *)

(** [str.replace(/[...]+/g, " ")] for a class [cls] of code units: every
    maximal run of code units of the class becomes one space. *)
Fixpoint replace_runs (cls : Z -> bool) (in_run : bool) (s : jsstring) : jsstring :=
  match s with
  | [] => []
  | c :: s' =>
      if cls c
      then (if in_run then replace_runs cls true s' else SPACE :: replace_runs cls true s')
      else c :: replace_runs cls false s'
  end.

(** The class [[\u0000-\u001F]]. *)
Definition is_control (c : Z) : bool := (0 <=? c) && (c <=? 31).

Definition is_surrogate (c : Z) : bool := (55296 <=? c) && (c <=? 57343).

Section CompareText.
Context `{Runtime}.

(** What [[^\p{L}\p{N}\s]] does not match. *)
Definition is_word_or_space (cp : Z) : bool := isLetterOrNumber cp || is_js_space cp.

(** [str.replace(/[^\p{L}\p{N}\s]/gu, " ")]: with the [u] flag the pattern
    reads code points, as [codePoints] does; a code point that is neither
    a letter, a number nor white space becomes one space, the others keep
    their code units. *)
Fixpoint replace_non_word (s : jsstring) : jsstring :=
  match s with
  | [] => []
  | hi :: s' =>
      match s' with
      | lo :: s'' =>
          if (55296 <=? hi) && (hi <=? 56319) && (56320 <=? lo) && (lo <=? 57343)
          then (if is_word_or_space (65536 + (hi - 55296) * 1024 + (lo - 56320))
                then hi :: lo :: replace_non_word s''
                else SPACE :: replace_non_word s'')
          else (if is_word_or_space hi then hi else SPACE) :: replace_non_word s'
      | [] => [if is_word_or_space hi then hi else SPACE]
      end
  end.

(** [normalizeTextForCompare($)], from the text of the body element on:
    lower case, runs of control characters to a space, every other
    character that is no letter, number or white space to a space, runs of
    white space to one space, trim. *)
Definition normalizeTextForCompare (bodyText : jsstring) : jsstring :=
  trim (replace_runs is_js_space false
          (replace_non_word
             (replace_runs is_control false (toLowerCase bodyText)))).

(** A code unit of a word of the comparison text. *)
Definition word_unit (c : Z) : Prop :=
  is_js_space c = false /\ is_control c = false /\
  (is_surrogate c = true \/ isLetterOrNumber c = true).

End CompareText.

Fixpoint no_adjacent_space (prev_space : bool) (s : jsstring) : bool :=
  match s with
  | [] => true
  | c :: s' =>
      if is_js_space c then negb prev_space && no_adjacent_space true s'
      else no_adjacent_space false s'
  end.

Fixpoint separated (prev_space : bool) (s : jsstring) : bool :=
  match s with
  | [] => negb prev_space
  | c :: s' =>
      if c =? SPACE then negb prev_space && separated true s'
      else separated false s'
  end.

(** ** Frameset pages *)

Module Frame.

(** A [frame] element of the page: its [name] and [src] attributes, where
    it has them. *)
Record element : Type := { attr_name : option jsstring; attr_src : option jsstring }.

(** An entry [{ name, src }] of [frames]. *)
Record entry : Type := { name : jsstring; src : jsstring }.

End Frame.

(** [$(el).attr(a) || ""] *)
Definition attr_or_empty (v : option jsstring) : jsstring :=
  match v with
  | Some s => if truthy s then s else []
  | None => []
  end.

(** The callback of [$("frame").each]: [if (src) frames.push({ name, src })]. *)
Definition push_frame (frames : list Frame.entry) (el : Frame.element) : list Frame.entry :=
  let name := attr_or_empty (Frame.attr_name el) in
  let src := attr_or_empty (Frame.attr_src el) in
  if truthy src then frames ++ [{| Frame.name := name; Frame.src := src |}] else frames.

Definition collect_frames (els : list Frame.element) : list Frame.entry :=
  fold_left push_frame els [].

Definition QUOTE : Z := 34.

(** The callback of [frames.map] in the fallback page. *)
Definition frame_item (f : Frame.entry) : jsstring :=
  let href := if truthy (Frame.src f) then Frame.src f else [] in
  let label :=
    if truthy (Frame.name f) then Frame.name f
    else if truthy href then href else js "frame" in
  js "<li><a href=" ++ [QUOTE] ++ href ++ [QUOTE] ++ js ">" ++ label ++ js "</a></li>".

(** What is written for a frameset page: the two panes merged into one
    page, or the fallback page with the list of the frames. *)
Inductive frameset_output : Type :=
| Merged (aRel bRel : jsstring)
| Fallback (list : jsstring).

Section Frameset.
Context `{Runtime}.

(** The branch [frames.length === 2] with the paths of the two panes, and
    the list of the fallback page otherwise. *)
Definition frameset_page_output (rel : jsstring) (els : list Frame.element)
    : frameset_output :=
  let frames := collect_frames els in
  if (length frames =? 2)%nat
  then Merged (resolveRelative rel (Frame.src (nth 0 frames {| Frame.name := []; Frame.src := [] |})))
              (resolveRelative rel (Frame.src (nth 1 frames {| Frame.name := []; Frame.src := [] |})))
  else Fallback (join [10] (map frame_item frames)).

End Frameset.

(** The frames that have a source, and the item of such a frame, as the
    page shows them. *)
Definition has_src (el : Frame.element) : bool := truthy (attr_or_empty (Frame.attr_src el)).

Definition shown_item (el : Frame.element) : jsstring :=
  let src := attr_or_empty (Frame.attr_src el) in
  let name := attr_or_empty (Frame.attr_name el) in
  js "<li><a href=" ++ [QUOTE] ++ src ++ [QUOTE] ++ js ">"
    ++ (if truthy name then name else src) ++ js "</a></li>".

(** Two strings that the [i] flag does not tell apart. *)
Definition same_ignoring_case (a b : jsstring) : Prop :=
  map (canon true) a = map (canon true) b.

(** The title group of [t]: all the candidates whose strict title is [t],
    in the order they were collected. *)
Definition title_group (t : jsstring) (candidates : list candidate) : list candidate :=
  filter (fun c => strictTitle c = t) candidates.
(* ================================================================= *)
(** * Properties *)

Example tokenize_ex :
  tokenize (js "an engine is removed") = [js "engine"; js "removed"].
Proof. reflexivity. Qed.

(** ** Bits of a BigInt *)

Lemma land_1_testbit (a : Z) : (Z.land a 1 =? 1) = Z.testbit a 0.
Proof.
  change 1 with (Z.ones 1) at 1. rewrite Z.land_ones by lia.
  change (2 ^ 1) with 2. rewrite <- Z.bit0_mod.
  by destruct (Z.testbit a 0).
Qed.

Lemma shiftr_land_1 (h : Z) (i : nat) :
  (Z.land (Z.shiftr h (Z.of_nat i)) 1 =? 1) = Z.testbit h (Z.of_nat i).
Proof. rewrite land_1_testbit, Z.shiftr_spec by lia. by rewrite Z.add_0_l. Qed.

Lemma MASK64_ones : MASK64 = Z.ones 64.
Proof. reflexivity. Qed.

Lemma below_pow2_of_bits (x : Z) (n : Z) :
  0 <= n -> 0 <= x -> (forall j, n <= j -> Z.testbit x j = false) -> x < 2 ^ n.
Proof.
  intros Hn Hx Hhigh.
  assert (Hmod : x mod 2 ^ n = x).
  { apply Z.bits_inj'. intros j Hj.
    destruct (Z_lt_le_dec j n) as [Hlt | Hge].
    - by rewrite Z.mod_pow2_bits_low.
    - rewrite Z.mod_pow2_bits_high by lia. symmetry. by apply Hhigh. }
  rewrite <- Hmod. apply Z.mod_pos_bound. lia.
Qed.

Lemma bits_of_below_pow2 (x n j : Z) :
  0 <= x < 2 ^ n -> n <= j -> Z.testbit x j = false.
Proof.
  intros [Hx Hlt] Hj.
  destruct (Z_lt_le_dec n 0) as [Hneg | Hn].
  { rewrite Z.pow_neg_r in Hlt; lia. }
  rewrite <- (Z.mod_small x (2 ^ n)) by lia.
  apply Z.mod_pow2_bits_high. lia.
Qed.

(** ** fnv1a64 *)

Lemma fnv_step_range (hash c : Z) : 0 <= fnv_step hash c < 2 ^ 64.
Proof.
  unfold fnv_step. rewrite MASK64_ones, Z.land_ones by lia.
  apply Z.mod_pos_bound. lia.
Qed.

Lemma fnv_fold_range (str : jsstring) (hash : Z) :
  0 <= hash < 2 ^ 64 -> 0 <= fold_left fnv_step str hash < 2 ^ 64.
Proof.
  revert hash. induction str as [| c str IH]; intros hash Hh; simpl.
  - exact Hh.
  - apply IH, fnv_step_range.
Qed.

Lemma fnv1a64_range (str : jsstring) : 0 <= fnv1a64 str < 2 ^ 64.
Proof. apply fnv_fold_range. unfold FNV_OFFSET. lia. Qed.

(** ** The accumulators of simhash64 *)

Lemma vote_lookup (h : Z) (v : list Z) (i j : nat) :
  vote h v i !! j = if decide (i = j) then (fun x => x + delta h i) <$> v !! j else v !! j.
Proof.
  unfold vote, delta. rewrite shiftr_land_1.
  destruct (decide (i = j)) as [-> | Hne].
  - by rewrite list_lookup_alter_eq.
  - by rewrite list_lookup_alter_ne.
Qed.

Lemma vote_loop_lookup (h : Z) (n : nat) (v : list Z) (j : nat) :
  fold_left (vote h) (seq 0 n) v !! j =
  if decide (j < n)%nat then (fun x => x + delta h j) <$> v !! j else v !! j.
Proof.
  induction n as [| n IH].
  - simpl. destruct (decide (j < 0)%nat); [lia | done].
  - rewrite seq_S, fold_left_app. simpl. rewrite vote_lookup, IH.
    destruct (decide (n = j)) as [-> | Hne].
    + destruct (decide (j < j)%nat); [lia |].
      destruct (decide (j < S j)%nat); [done | lia].
    + destruct (decide (j < n)%nat), (decide (j < S n)%nat); try lia; done.
Qed.

Lemma add_token_lookup (v : list Z) (t : jsstring) (j : nat) :
  (j < bits)%nat ->
  add_token v t !! j = (fun x => x + delta (fnv1a64 t) j) <$> v !! j.
Proof.
  intros Hj. unfold add_token. rewrite vote_loop_lookup.
  by destruct (decide (j < bits)%nat).
Qed.

Lemma fold_add_token_lookup (tokens : list jsstring) (v : list Z) (j : nat) :
  (j < bits)%nat ->
  fold_left add_token tokens v !! j = (fun x => x + tally tokens j) <$> v !! j.
Proof.
  intros Hj. revert v. induction tokens as [| t tokens IH]; intros v; simpl.
  - destruct (v !! j); simpl; [f_equal; lia | done].
  - rewrite IH, add_token_lookup by done.
    destruct (v !! j); simpl; [f_equal; lia | done].
Qed.

Lemma accumulate_lookup (tokens : list jsstring) (j : nat) :
  (j < bits)%nat -> accumulate tokens !! j = Some (tally tokens j).
Proof.
  intros Hj. unfold accumulate. rewrite fold_add_token_lookup by done.
  by rewrite lookup_replicate_2.
Qed.

Lemma tally_Permutation (l1 l2 : list jsstring) (i : nat) :
  l1 ≡ₚ l2 -> tally l1 i = tally l2 i.
Proof.
  induction 1 as [| x l l' _ IH | x y l | l l' l'' _ IH1 _ IH2]; simpl; lia.
Qed.

(** ** The signature loop *)

Lemma set_bit_loop_nonneg (v : list Z) (n : nat) :
  0 <= fold_left (set_bit v) (seq 0 n) 0.
Proof.
  induction n as [| n IH]; [simpl; lia |].
  rewrite seq_S, fold_left_app. simpl. unfold set_bit at 1.
  destruct (v !! n) as [x |]; [| done].
  destruct (0 <? x); [| done].
  apply Z.lor_nonneg. split; [done |]. apply Z.shiftl_nonneg. lia.
Qed.

Lemma set_bit_loop_testbit (v : list Z) (n : nat) (j : Z) :
  0 <= j ->
  Z.testbit (fold_left (set_bit v) (seq 0 n) 0) j =
  bool_decide (j < Z.of_nat n) &&
  match v !! Z.to_nat j with Some x => 0 <? x | None => false end.
Proof.
  intros Hj. induction n as [| n IH].
  - simpl. rewrite Z.bits_0. by rewrite bool_decide_eq_false_2 by lia.
  - rewrite seq_S, fold_left_app. simpl. unfold set_bit at 1.
    assert (Hbit : Z.testbit (Z.shiftl 1 (Z.of_nat n)) j = bool_decide (j = Z.of_nat n)).
    { rewrite Z.shiftl_1_l, Z.pow2_bits_eqb by lia.
      destruct (Z.eqb_spec (Z.of_nat n) j).
      - by rewrite bool_decide_eq_true_2.
      - by rewrite bool_decide_eq_false_2. }
    destruct (decide (j = Z.of_nat n)) as [-> | Hne].
    + rewrite Nat2Z.id.
      rewrite (bool_decide_eq_true_2 (Z.of_nat n < Z.of_nat (S n))) by lia.
      rewrite (bool_decide_eq_false_2 (Z.of_nat n < Z.of_nat n)) in IH by lia.
      simpl in IH.
      destruct (v !! n) as [x |]; simpl; [| by rewrite IH].
      destruct (0 <? x); [| by rewrite IH].
      rewrite Z.lor_spec, IH, Z.shiftl_1_l, Z.pow2_bits_eqb, Z.eqb_refl by lia. done.
    + assert (Hsame : bool_decide (j < Z.of_nat (S n)) = bool_decide (j < Z.of_nat n)).
      { apply bool_decide_ext. lia. }
      rewrite Hsame, <- IH.
      destruct (v !! n) as [x |]; [| done].
      destruct (0 <? x); [| done].
      rewrite Z.lor_spec, Hbit, bool_decide_eq_false_2 by done.
      by rewrite orb_false_r.
Qed.

Lemma simhash64_testbit (tokens : list jsstring) (i : nat) :
  (i < bits)%nat ->
  Z.testbit (simhash64 tokens) (Z.of_nat i) = (0 <? tally tokens i).
Proof.
  intros Hi. unfold simhash64, signature.
  rewrite set_bit_loop_testbit by lia.
  rewrite Nat2Z.id, accumulate_lookup by done.
  rewrite bool_decide_eq_true_2; [done | unfold bits in *; lia].
Qed.

Lemma simhash64_range (tokens : list jsstring) : 0 <= simhash64 tokens < 2 ^ 64.
Proof.
  split; [apply set_bit_loop_nonneg |].
  apply below_pow2_of_bits; [lia | apply set_bit_loop_nonneg |].
  intros j Hj. unfold simhash64, signature.
  rewrite set_bit_loop_testbit by lia.
  rewrite bool_decide_eq_false_2; [done | unfold bits; lia].
Qed.

(** ** The loop of hamming64 *)

Lemma pos_popcount_pos (p : positive) : (0 < pos_popcount p)%nat.
Proof. induction p; simpl; lia. Qed.

Lemma popcount_0_iff (x : Z) : 0 <= x -> popcount x = O <-> x = 0.
Proof.
  intros Hx. destruct x as [| p | p]; simpl; [done | | lia].
  pose proof (pos_popcount_pos p). split; [lia | done].
Qed.

Lemma pos_popcount_bound (p : positive) (n : nat) :
  Zpos p < 2 ^ Z.of_nat n -> (pos_popcount p <= n)%nat.
Proof.
  revert n. induction p as [q IH | q IH |]; intros n Hlt.
  - destruct n as [| n]; [simpl in Hlt; lia |].
    rewrite Nat2Z.inj_succ, Z.pow_succ_r in Hlt by lia.
    simpl. apply le_n_S, IH. lia.
  - destruct n as [| n]; [simpl in Hlt; lia |].
    rewrite Nat2Z.inj_succ, Z.pow_succ_r in Hlt by lia.
    simpl. apply Nat.le_le_succ_r, IH. lia.
  - destruct n as [| n]; [simpl in Hlt; lia | simpl; lia].
Qed.

Lemma popcount_bound (x : Z) (n : nat) :
  0 <= x < 2 ^ Z.of_nat n -> (popcount x <= n)%nat.
Proof.
  intros [Hx Hlt]. destruct x as [| p | p]; simpl; [lia | | lia].
  by apply pos_popcount_bound.
Qed.

(** [x & (x - 1)] clears the lowest 1 bit of [x]. *)
Lemma land_pred_double (a : Z) : Z.land (2 * a) (2 * a - 1) = 2 * Z.land a (a - 1).
Proof.
  replace (2 * a - 1) with (2 * (a - 1) + 1) by lia.
  apply Z.bits_inj'. intros j Hj.
  rewrite Z.land_spec.
  destruct (decide (j = 0)) as [-> | Hne].
  - by rewrite !Z.testbit_even_0.
  - replace j with (Z.succ (j - 1)) by lia.
    rewrite !Z.testbit_even_succ, Z.testbit_odd_succ, Z.land_spec by lia. done.
Qed.

Lemma land_pred_odd (a : Z) : Z.land (2 * a + 1) (2 * a + 1 - 1) = 2 * a.
Proof.
  replace (2 * a + 1 - 1) with (2 * a) by lia.
  apply Z.bits_inj'. intros j Hj.
  rewrite Z.land_spec.
  destruct (decide (j = 0)) as [-> | Hne].
  - by rewrite Z.testbit_even_0, andb_false_r.
  - replace j with (Z.succ (j - 1)) by lia.
    rewrite Z.testbit_even_succ, Z.testbit_odd_succ by lia. apply andb_diag.
Qed.

Lemma popcount_double (a : Z) : 0 <= a -> popcount (2 * a) = popcount a.
Proof. intros Ha. by destruct a. Qed.

Lemma pos_clear_lowest (p : positive) :
  0 <= Z.land (Zpos p) (Zpos p - 1) /\
  S (popcount (Z.land (Zpos p) (Zpos p - 1))) = pos_popcount p.
Proof.
  induction p as [q IH | q IH |].
  - rewrite Pos2Z.inj_xI, land_pred_odd. split; [lia |].
    by rewrite popcount_double.
  - destruct IH as [IH0 IH1].
    rewrite Pos2Z.inj_xO, land_pred_double. split; [lia |].
    by rewrite popcount_double.
  - by split.
Qed.

Lemma hamming_loop_popcount (fuel : nat) (x count : Z) :
  0 <= x -> (popcount x <= fuel)%nat ->
  hamming_loop fuel x count = Some (count + Z.of_nat (popcount x)).
Proof.
  revert x count. induction fuel as [| fuel IH]; intros x count Hx Hfuel.
  - assert (x = 0) as -> by (apply popcount_0_iff; [done | lia]).
    simpl. f_equal. lia.
  - destruct x as [| p | p]; [simpl; f_equal; lia | | lia].
    destruct (pos_clear_lowest p) as [Hnn Hcnt].
    cbn [hamming_loop]. change (Z.pos p =? 0) with false. cbv iota.
    rewrite IH; [| done |].
    + f_equal. cbn [popcount] in *. lia.
    + cbn [popcount] in Hfuel. lia.
Qed.

Lemma lxor_range (a b : Z) :
  0 <= a < 2 ^ 64 -> 0 <= b < 2 ^ 64 -> 0 <= Z.lxor a b < 2 ^ 64.
Proof.
  intros Ha Hb.
  assert (Hnn : 0 <= Z.lxor a b) by (apply Z.lxor_nonneg; lia).
  split; [done |].
  apply below_pow2_of_bits; [lia | done |].
  intros j Hj. rewrite Z.lxor_spec.
  by rewrite (bits_of_below_pow2 a 64 j), (bits_of_below_pow2 b 64 j).
Qed.

Lemma hamming64_popcount (fuel : nat) (a b : Z) :
  0 <= a < 2 ^ 64 -> 0 <= b < 2 ^ 64 -> (64 <= fuel)%nat ->
  hamming64 fuel a b = Some (Z.of_nat (popcount (Z.lxor a b))) /\
  (popcount (Z.lxor a b) <= 64)%nat.
Proof.
  intros Ha Hb Hfuel.
  pose proof (lxor_range a b Ha Hb) as Hx.
  assert (Hpc : (popcount (Z.lxor a b) <= 64)%nat) by by apply popcount_bound.
  split; [| done].
  unfold hamming64. rewrite hamming_loop_popcount; [done | lia | lia].
Qed.

Lemma popcount_div2 (x : Z) :
  0 <= x -> popcount x = ((if Z.odd x then 1 else 0) + popcount (Z.div2 x))%nat.
Proof.
  intros Hx. destruct x as [| p | p]; [done | | lia].
  by destruct p.
Qed.

Lemma popcount_count_bits (n : nat) (x : Z) :
  0 <= x < 2 ^ Z.of_nat n ->
  popcount x = length (filter (fun i : nat => Z.testbit x (Z.of_nat i)) (seq 0 n)).
Proof.
  revert x. induction n as [| n IH]; intros x [Hx Hlt].
  - simpl in Hlt. assert (x = 0) as -> by lia. done.
  - rewrite popcount_div2 by done.
    rewrite Nat2Z.inj_succ, Z.pow_succ_r in Hlt by lia.
    rewrite (IH (Z.div2 x)) by (rewrite Z.div2_div; split; [apply Z.div_pos; lia | apply Z.div_lt_upper_bound; lia]).
    cbn [seq]. rewrite filter_cons. rewrite <- seq_shift.
    change (Z.of_nat 0) with 0. rewrite Z.bit0_odd.
    assert (Hshift : filter (fun i : nat => Z.testbit x (Z.of_nat i)) (map S (seq 0 n))
                     = map S (filter (fun i : nat => Z.testbit (Z.div2 x) (Z.of_nat i)) (seq 0 n))).
    { generalize (seq 0 n). intros l. induction l as [| i l IHl]; [done |].
      cbn [map]. rewrite !filter_cons, IHl.
      rewrite Nat2Z.inj_succ, <- Z.div2_bits by lia.
      rewrite <- ?Z.div2_div. by destruct (decide _). }
    rewrite Hshift.
    destruct (Z.odd x); destruct (decide _); try done; cbn [length]; by rewrite length_map.
Qed.

Lemma popcount_lxor_differing_bits (a b : Z) :
  0 <= a < 2 ^ 64 -> 0 <= b < 2 ^ 64 ->
  popcount (Z.lxor a b) = length (differing_bits a b).
Proof.
  intros Ha Hb. rewrite (popcount_count_bits bits) by by apply lxor_range.
  unfold differing_bits. f_equal. apply list_filter_iff. intros i.
  rewrite Z.lxor_spec.
  by destruct (Z.testbit a (Z.of_nat i)), (Z.testbit b (Z.of_nat i)).
Qed.


Lemma tally_accumulator_spec (tokens : list jsstring) (i : nat) :
  tally tokens i = accumulator_spec tokens i.
Proof.
  unfold accumulator_spec, votes_for, votes_against.
  induction tokens as [| t tokens IH]; [done |].
  simpl. rewrite IH. unfold delta, hash_bit.
  destruct (Z.testbit (fnv1a64 t) (Z.of_nat i)); simpl; lia.
Qed.

Lemma add_token_length (v : list Z) (t : jsstring) : length (add_token v t) = length v.
Proof.
  unfold add_token. generalize (seq 0 bits) as idx. intros idx. revert v.
  induction idx as [| i idx IH]; intros v; simpl; [done |].
  rewrite IH. unfold vote. apply length_alter.
Qed.

Lemma accumulate_length (tokens : list jsstring) : length (accumulate tokens) = bits.
Proof.
  unfold accumulate. generalize (replicate bits 0) (length_replicate bits 0).
  induction tokens as [| t tokens IH]; intros v Hv; simpl; [done |].
  apply IH. by rewrite add_token_length.
Qed.

Lemma accumulate_Permutation (l1 l2 : list jsstring) :
  l1 ≡ₚ l2 -> accumulate l1 = accumulate l2.
Proof.
  intros Hperm. apply list_eq. intros j.
  destruct (decide (j < bits)%nat) as [Hj | Hj].
  - rewrite !accumulate_lookup by done. f_equal. by apply tally_Permutation.
  - rewrite !lookup_ge_None_2; [done | |]; rewrite accumulate_length; lia.
Qed.

(** ** Claims on the fingerprint *)

(** C1: bit [i] of the fingerprint [simhash64 tokens] is 1 exactly when the
    accumulator of bit [i] is strictly positive, where the accumulator the
    loops compute is the number of tokens of the sequence (repetitions
    counted) whose hash has bit [i] set minus the number of those whose
    hash has it clear; an accumulator of exactly 0 gives bit 0; and equal
    token sequences have equal fingerprints. *)
Theorem simhash64_bit_iff_accumulator_positive (tokens : list jsstring) (i : nat) :
  (i < bits)%nat ->
  accumulate tokens !! i = Some (accumulator_spec tokens i) /\
  (Z.testbit (simhash64 tokens) (Z.of_nat i) = true <-> 0 < accumulator_spec tokens i) /\
  (accumulator_spec tokens i = 0 -> Z.testbit (simhash64 tokens) (Z.of_nat i) = false) /\
  (forall tokens', tokens' = tokens -> simhash64 tokens' = simhash64 tokens).
Proof.
  intros Hi.
  pose proof (simhash64_testbit tokens i Hi) as Hbit.
  pose proof (accumulate_lookup tokens i Hi) as Hacc.
  rewrite tally_accumulator_spec in Hbit, Hacc.
  split; [exact Hacc |]. split; [| split].
  - rewrite Hbit. apply Z.ltb_lt.
  - intros Hzero. rewrite Hbit, Hzero. reflexivity.
  - intros tokens' ->. reflexivity.
Qed.

Lemma simhash64_bit_iff_accumulator_positive_witness :
  accumulate [js "engine"; js "removed"; js "engine"] !! 5%nat
  = Some (accumulator_spec [js "engine"; js "removed"; js "engine"] 5) /\
  (Z.testbit (simhash64 [js "engine"; js "removed"; js "engine"]) (Z.of_nat 5) = true
   <-> 0 < accumulator_spec [js "engine"; js "removed"; js "engine"] 5) /\
  (accumulator_spec [js "engine"; js "removed"; js "engine"] 5 = 0 ->
   Z.testbit (simhash64 [js "engine"; js "removed"; js "engine"]) (Z.of_nat 5) = false) /\
  (forall tokens', tokens' = [js "engine"; js "removed"; js "engine"] ->
   simhash64 tokens' = simhash64 [js "engine"; js "removed"; js "engine"]).
Proof.
  apply (simhash64_bit_iff_accumulator_positive [js "engine"; js "removed"; js "engine"] 5).
  unfold bits. lia.
Defined.

(** A tie: with two tokens whose hashes differ at bit 5 the accumulator of
    bit 5 is exactly 0 and the bit of the fingerprint is 0. *)
Example simhash64_tie :
  accumulator_spec [js "engine"; js "removed"] 5 = 0 /\
  Z.testbit (simhash64 [js "engine"; js "removed"]) 5 = false.
Proof. by vm_compute. Qed.

(** The fingerprint does depend on how often a token occurs. *)
Example simhash64_counts_repetitions :
  simhash64 [js "engine"; js "removed"] <> simhash64 [js "engine"; js "removed"; js "removed"].
Proof. by vm_compute. Qed.

(** C9: [fnv1a64] and [simhash64] return integers in [0, 2^64); on two
    such integers the loop of [hamming64] ends (64 turns are enough) with
    a count between 0 and 64, the number of bit positions at which the two
    differ, which is 0 exactly when the two are equal and is the same with
    the arguments exchanged. *)
Theorem fingerprints_in_range_hamming64_total :
  (forall str : jsstring, 0 <= fnv1a64 str < 2 ^ 64) /\
  (forall tokens : list jsstring, 0 <= simhash64 tokens < 2 ^ 64) /\
  (forall (a b : Z) (fuel : nat),
     0 <= a < 2 ^ 64 -> 0 <= b < 2 ^ 64 -> (64 <= fuel)%nat ->
     exists n : Z,
       hamming64 fuel a b = Some n /\ 0 <= n <= 64 /\
       n = Z.of_nat (length (differing_bits a b)) /\
       (n = 0 <-> a = b) /\ hamming64 fuel b a = Some n).
Proof.
  split; [exact fnv1a64_range |]. split; [exact simhash64_range |].
  intros a b fuel Ha Hb Hfuel.
  destruct (hamming64_popcount fuel a b Ha Hb Hfuel) as [Hab Hle].
  destruct (hamming64_popcount fuel b a Hb Ha Hfuel) as [Hba _].
  exists (Z.of_nat (popcount (Z.lxor a b))).
  split; [exact Hab |]. split; [lia |]. split; [| split].
  - by rewrite popcount_lxor_differing_bits.
  - pose proof (lxor_range a b Ha Hb) as [Hnn _].
    pose proof (popcount_0_iff (Z.lxor a b) Hnn) as Hzero.
    rewrite Z.lxor_eq_0_iff in Hzero. split; intros Heq.
    + apply Hzero. lia.
    + apply Hzero in Heq. lia.
  - by rewrite Hba, Z.lxor_comm.
Qed.

Lemma fingerprints_in_range_hamming64_total_witness :
  exists n : Z,
    hamming64 64 (simhash64 [js "engine"; js "removed"]) (fnv1a64 (js "engine")) = Some n /\
    0 <= n <= 64 /\
    n = Z.of_nat (length (differing_bits (simhash64 [js "engine"; js "removed"])
                                         (fnv1a64 (js "engine")))) /\
    (n = 0 <-> simhash64 [js "engine"; js "removed"] = fnv1a64 (js "engine")) /\
    hamming64 64 (fnv1a64 (js "engine")) (simhash64 [js "engine"; js "removed"]) = Some n.
Proof.
  apply (proj2 (proj2 fingerprints_in_range_hamming64_total)).
  - apply simhash64_range.
  - apply fnv1a64_range.
  - lia.
Defined.

(** ** Jaccard similarity *)

Section JaccardFacts.
Context {A : Type} `{Countable A}.

Lemma Set_has_true (s : list A) (x : A) : Set_has s x = true <-> x ∈ s.
Proof. unfold Set_has. apply bool_decide_eq_true. Qed.

Lemma Set_add_NoDup (s : list A) (x : A) : NoDup s -> NoDup (Set_add s x).
Proof.
  intros Hs. unfold Set_add, Set_has. case_bool_decide as Hin; [done |].
  apply NoDup_app. split_and!; [done | | apply NoDup_singleton].
  intros y Hy ->%list_elem_of_singleton. done.
Qed.

Lemma elem_of_Set_add (s : list A) (x y : A) : y ∈ Set_add s x <-> y ∈ s \/ y = x.
Proof.
  unfold Set_add, Set_has. case_bool_decide as Hin.
  - split; [by left | intros [? | ->]; done].
  - rewrite elem_of_app, list_elem_of_singleton. done.
Qed.

Lemma Set_new_fold (items s : list A) :
  NoDup s ->
  NoDup (fold_left Set_add items s) /\
  forall y, y ∈ fold_left Set_add items s <-> y ∈ s \/ y ∈ items.
Proof.
  revert s. induction items as [| x items IH]; intros s Hs; simpl.
  - split; [done |]. intros y. rewrite elem_of_nil. tauto.
  - destruct (IH (Set_add s x) (Set_add_NoDup s x Hs)) as [Hnd Hin].
    split; [done |]. intros y. rewrite Hin, elem_of_Set_add, elem_of_cons. tauto.
Qed.

Lemma Set_new_NoDup (items : list A) : NoDup (Set_new items).
Proof. apply Set_new_fold, NoDup_nil_2. Qed.

Lemma elem_of_Set_new (items : list A) (y : A) : y ∈ Set_new items <-> y ∈ items.
Proof.
  unfold Set_new. destruct (Set_new_fold items [] (NoDup_nil_2)) as [_ Hin].
  rewrite Hin, elem_of_nil. tauto.
Qed.

Lemma filter_iff_on (P Q : A -> Prop) `{!forall x, Decision (P x)} `{!forall x, Decision (Q x)}
    (l : list A) :
  (forall y, y ∈ l -> P y <-> Q y) -> filter P l = filter Q l.
Proof.
  induction l as [| x l IH]; intros Hext; [done |].
  rewrite !filter_cons, IH by (intros y Hy; apply Hext; by right).
  pose proof (Hext x (list_elem_of_here x l)) as Hx.
  destruct (decide (P x)), (decide (Q x)); tauto || done.
Qed.

(** The loop of [jaccard] over a set [bSet], from any [seen]. *)
Lemma jaccard_loop (bSet seen : list A) (inter : Z) :
  NoDup bSet -> NoDup seen ->
  exists seen',
    fold_left jaccard_step bSet (inter, seen) =
      (inter + Z.of_nat (length (filter (.∈ seen) bSet)), seen') /\
    NoDup seen' /\
    (forall y, y ∈ seen' <-> y ∈ seen \/ y ∈ bSet) .
Proof.
  revert seen inter. induction bSet as [| x bSet IH]; intros seen inter Hb Hs.
  - exists seen. simpl. split; [f_equal; lia |]. split; [done |].
    intros y. rewrite elem_of_nil. tauto.
  - apply NoDup_cons in Hb as [Hx Hb].
    destruct (IH (Set_add seen x) (if Set_has seen x then inter + 1 else inter)
                Hb (Set_add_NoDup seen x Hs)) as (seen' & Hfold & Hnd & Hin).
    exists seen'. simpl. unfold jaccard_step at 2. simpl. rewrite Hfold.
    split; [| split; [done |]].
    + f_equal.
      assert (Hsame : filter (.∈ Set_add seen x) bSet = filter (.∈ seen) bSet).
      { apply filter_iff_on. intros y Hy.
        rewrite elem_of_Set_add. split; [| by left].
        intros [? | ->]; done. }
      rewrite Hsame, filter_cons. unfold Set_has.
      case_bool_decide as Hin'; destruct (decide (x ∈ seen)); try done; simpl; lia.
    + intros y. rewrite Hin, elem_of_Set_add, elem_of_cons. tauto.
Qed.

Lemma size_inter_filter (aSet bSet : list A) :
  NoDup bSet ->
  size (list_to_set aSet ∩ list_to_set bSet : gset A) = length (filter (.∈ aSet) bSet).
Proof.
  intros Hb.
  rewrite <- (size_list_to_set (C := gset A) (filter (.∈ aSet) bSet))
    by by apply NoDup_filter.
  f_equal. apply set_eq. intros y.
  rewrite elem_of_intersection, !elem_of_list_to_set, list_elem_of_filter. tauto.
Qed.

Lemma size_union_seen (aSet bSet seen' : list A) :
  NoDup seen' -> (forall y, y ∈ seen' <-> y ∈ aSet \/ y ∈ bSet) ->
  size (list_to_set aSet ∪ list_to_set bSet : gset A) = length seen'.
Proof.
  intros Hnd Hin.
  rewrite <- (size_list_to_set (C := gset A) seen') by done.
  f_equal. apply set_eq. intros y.
  rewrite elem_of_union, !elem_of_list_to_set, Hin. tauto.
Qed.

(** [jaccard] in closed form: the two counts it divides. *)
Lemma jaccard_counts (aSet bSet : list A) :
  NoDup aSet -> NoDup bSet ->
  jaccard aSet bSet =
  let inter := Z.of_nat (size (list_to_set aSet ∩ list_to_set bSet : gset A)) in
  let union := Z.of_nat (size (list_to_set aSet ∪ list_to_set bSet : gset A)) in
  if union =? 0 then 1%Q else (inject_Z inter / inject_Z union)%Q.
Proof.
  intros Ha Hb. unfold jaccard.
  destruct (jaccard_loop bSet (Set_new aSet) 0 Hb (Set_new_NoDup aSet))
    as (seen' & Hfold & Hnd & Hin).
  rewrite Hfold. cbn [fst snd]. cbv zeta.
  assert (Hin' : forall y, y ∈ seen' <-> y ∈ aSet \/ y ∈ bSet).
  { intros y. rewrite Hin, elem_of_Set_new. done. }
  rewrite (size_union_seen aSet bSet seen' Hnd Hin').
  rewrite (size_inter_filter aSet bSet Hb).
  assert (Hsame : filter (.∈ Set_new aSet) bSet = filter (.∈ aSet) bSet).
  { apply list_filter_iff. intros y. apply elem_of_Set_new. }
  rewrite Hsame, Z.add_0_l. reflexivity.
Qed.

(** C5: for two token sets, [jaccard] is the size of their intersection
    divided by the size of their union; on two empty sets it is 1, with no
    division; and [jaccard] of a set with itself is 1. *)
Theorem jaccard_intersection_over_union (aSet bSet : list A) :
  NoDup aSet -> NoDup bSet ->
  (size (list_to_set aSet ∪ list_to_set bSet : gset A) <> O ->
   jaccard aSet bSet =
   (inject_Z (Z.of_nat (size (list_to_set aSet ∩ list_to_set bSet : gset A))) /
    inject_Z (Z.of_nat (size (list_to_set aSet ∪ list_to_set bSet : gset A))))%Q) /\
  (aSet = [] -> bSet = [] -> jaccard aSet bSet = 1%Q) /\
  (jaccard aSet aSet == 1)%Q.
Proof.
  intros Ha Hb. split; [| split].
  - intros Hunion. rewrite (jaccard_counts aSet bSet Ha Hb). cbv zeta.
    destruct (Z.eqb_spec (Z.of_nat (size (list_to_set aSet ∪ list_to_set bSet : gset A))) 0)
      as [Hz | Hnz]; [lia | reflexivity].
  - intros -> ->. reflexivity.
  - rewrite (jaccard_counts aSet aSet Ha Ha). cbv zeta.
    assert (Hi : (list_to_set aSet ∩ list_to_set aSet : gset A) = list_to_set aSet).
    { apply set_eq. intros y. rewrite elem_of_intersection. tauto. }
    assert (Hu : (list_to_set aSet ∪ list_to_set aSet : gset A) = list_to_set aSet).
    { apply set_eq. intros y. rewrite elem_of_union. tauto. }
    rewrite Hi, Hu.
    destruct (Z.eqb_spec (Z.of_nat (size (list_to_set aSet : gset A))) 0)
      as [Hz | Hnz]; [reflexivity |].
    apply Qmult_inv_r. unfold Qeq. simpl. lia.
Qed.

End JaccardFacts.

Lemma jaccard_intersection_over_union_witness :
  (size (list_to_set [js "engine"; js "removed"] ∪ list_to_set [js "removed"; js "bolt"]
        : gset jsstring) <> O ->
   jaccard [js "engine"; js "removed"] [js "removed"; js "bolt"] =
   (inject_Z (Z.of_nat (size (list_to_set [js "engine"; js "removed"]
                              ∩ list_to_set [js "removed"; js "bolt"] : gset jsstring))) /
    inject_Z (Z.of_nat (size (list_to_set [js "engine"; js "removed"]
                              ∪ list_to_set [js "removed"; js "bolt"] : gset jsstring))))%Q) /\
  ([js "engine"; js "removed"] = [] -> [js "removed"; js "bolt"] = [] ->
   jaccard [js "engine"; js "removed"] [js "removed"; js "bolt"] = 1%Q) /\
  (jaccard [js "engine"; js "removed"] [js "engine"; js "removed"] == 1)%Q.
Proof.
  apply (jaccard_intersection_over_union [js "engine"; js "removed"] [js "removed"; js "bolt"]).
  - apply (bool_decide_unpack _). vm_compute. exact I.
  - apply (bool_decide_unpack _). vm_compute. exact I.
Defined.

(** One token in common out of three: a third. *)
Example jaccard_one_third :
  (jaccard [js "engine"; js "removed"] [js "removed"; js "bolt"] == 1 # 3)%Q.
Proof. by vm_compute. Qed.

Example jaccard_empty : jaccard (@nil jsstring) [] = 1%Q.
Proof. reflexivity. Qed.

(** ** The link resolver *)



Section ResolverFacts.
Context `{Runtime}.





End ResolverFacts.

Example RE_PRT_plain :
  re_match true RE_PRT (js "javascript:parent.Prt('ABC123')") = Some (Some (js "ABC123")).
Proof. by vm_compute. Qed.

Example RE_PRT_page :
  re_match true RE_PRT (js "javascript:parent.prt( 'ABC123' , '2' )") = Some (Some (js "ABC123")).
Proof. by vm_compute. Qed.

(** A [Jmp] link becomes the placeholder, whatever files exist. *)
Example Jmp_becomes_placeholder (allPaths : gset jsstring) :
  rewrite_anchor (H := posix_ascii_runtime) allPaths (js "en/html/doc.html")
                 (js "javascript:parent.Jmp('i220')") = js "#".
Proof. reflexivity. Qed.

Example RE_PRT_not_Cts :
  re_match true RE_PRT (js "javascript:parent.Cts('ABC123')") = None /\
  re_match true RE_CTS (js "javascript:parent.Cts('ABC123')") = Some (Some (js "ABC123")).
Proof. by vm_compute. Qed.

Example NodePosix_examples :
  NodePosix.dirname (js "en/html/doc.html") = js "en/html" /\
  NodePosix.dirname (js "doc.html") = js "." /\
  NodePosix.dirname (js "/a/b/") = js "/a" /\
  NodePosix.join2 (js "en/html") (js "../x/./ABC.html") = js "en/x/ABC.html" /\
  NodePosix.join2 (js ".") (js "ABC.html") = js "ABC.html" /\
  NodePosix.normalize (js "../../a/") = js "../../a/" /\
  NodePosix.normalize (js "/../a") = js "/a" /\
  NodePosix.basename (js "en/html/doc.html") = js "doc.html".
Proof. by vm_compute. Qed.



(** ** Sorting *)

Section SortFacts.
Context {A : Type} (cmp : A -> A -> Z).

Lemma sort_insert_Permutation (x : A) (l : list A) : sort_insert cmp x l ≡ₚ x :: l.
Proof.
  induction l as [| y l IH]; simpl; [done |].
  destruct (cmp x y <? 0); [done |].
  rewrite IH. apply perm_swap.
Qed.

Lemma sort_fold_Permutation (l acc : list A) :
  fold_left (fun acc x => sort_insert cmp x acc) l acc ≡ₚ acc ++ l.
Proof.
  revert acc. induction l as [| x l IH]; intros acc; simpl.
  - by rewrite app_nil_r.
  - rewrite IH, sort_insert_Permutation. simpl. apply Permutation_middle.
Qed.

Lemma Array_sort_Permutation (l : list A) : Array_sort cmp l ≡ₚ l.
Proof. unfold Array_sort. by rewrite sort_fold_Permutation. Qed.

(** An element that compares smaller than nothing goes last. *)
Lemma sort_insert_last (x : A) (l : list A) :
  Forall (fun y => 0 <= cmp x y) l -> sort_insert cmp x l = l ++ [x].
Proof.
  induction 1 as [| y l Hy _ IH]; simpl; [done |].
  destruct (Z.ltb_spec (cmp x y) 0); [lia |]. by rewrite IH.
Qed.

Lemma sort_fold_stable (l acc : list A) :
  (forall x y, x ∈ acc ++ l -> y ∈ acc ++ l -> 0 <= cmp x y) ->
  fold_left (fun acc x => sort_insert cmp x acc) l acc = acc ++ l.
Proof.
  revert acc. induction l as [| x l IH]; intros acc Hall; simpl.
  - by rewrite app_nil_r.
  - rewrite sort_insert_last.
    + rewrite IH; [by rewrite <- app_assoc |].
      intros y z Hy Hz. rewrite <- app_assoc in Hy, Hz. by apply Hall.
    + apply Forall_forall. intros y Hy. apply Hall; set_solver.
Qed.

(** Elements none of which compares smaller than another keep their order. *)
Lemma Array_sort_stable (l : list A) :
  (forall x y, x ∈ l -> y ∈ l -> 0 <= cmp x y) -> Array_sort cmp l = l.
Proof. intros Hall. unfold Array_sort. by rewrite sort_fold_stable. Qed.

End SortFacts.

Lemma sort_insert_longer_first (x : candidate) (l : list candidate) :
  StronglySorted longer_first l ->
  StronglySorted longer_first (sort_insert by_textLen_desc x l).
Proof.
  induction 1 as [| y l Hsorted IH Hy]; simpl.
  - repeat constructor.
  - unfold by_textLen_desc at 1.
    destruct (Z.ltb_spec (textLen y - textLen x) 0) as [Hlt | Hge].
    + constructor; [by constructor |].
      constructor; [unfold longer_first; lia |].
      eapply Forall_impl; [exact Hy |]. unfold longer_first. intros z Hz. simpl in Hz. lia.
    + constructor; [exact IH |].
      rewrite sort_insert_Permutation. constructor; [unfold longer_first; lia | exact Hy].
Qed.

Lemma Array_sort_longer_first (l : list candidate) :
  StronglySorted longer_first (Array_sort by_textLen_desc l).
Proof.
  unfold Array_sort.
  assert (Hgen : forall acc, StronglySorted longer_first acc ->
            StronglySorted longer_first
              (fold_left (fun acc x => sort_insert by_textLen_desc x acc) l acc)).
  { induction l as [| x l IH]; intros acc Hacc; simpl; [done |].
    apply IH. by apply sort_insert_longer_first. }
  apply Hgen. constructor.
Qed.

Lemma Array_sort_cons (l : list candidate) :
  l <> [] -> exists canonical rest, Array_sort by_textLen_desc l = canonical :: rest.
Proof.
  intros Hne. destruct (Array_sort by_textLen_desc l) as [| c rest] eqn:Hsort; [| by eauto].
  pose proof (Array_sort_Permutation by_textLen_desc l) as Hperm.
  rewrite Hsort in Hperm. apply Permutation_nil_l in Hperm. done.
Qed.

(** ** The classification loop *)

Section ClassifyFacts.
Variable written : jsstring -> jsstring.
Variable fuel : nat.
Hypothesis enough_fuel : (64 <= fuel)%nat.

Lemma classify_verdict (canonical cand : candidate) :
  wf_candidate canonical -> wf_candidate cand ->
  classify written fuel canonical cand = Some (verdict written canonical cand).
Proof.
  intros Hc Hd. unfold classify, verdict.
  destruct (hamming64_popcount fuel (simhash canonical) (simhash cand) Hc Hd enough_fuel)
    as [-> _].
  by destruct (_ <=? HAMMING_MAX).
Qed.

Lemma classify_rest_closed (canonical : candidate) (rest keep dupes : list candidate)
    (rd : list jsstring) :
  wf_candidate canonical -> Forall wf_candidate rest ->
  classify_rest written fuel canonical rest keep dupes rd =
  Some (keep ++ filter (fun c => ¬ is_dup written canonical c) rest,
        dupes ++ filter (fun c => is_dup written canonical c) rest,
        rd ++ flat_map (fun c => (verdict written canonical c).2) rest).
Proof.
  intros Hc Hrest. revert keep dupes rd.
  induction Hrest as [| cand rest Hcand _ IH]; intros keep dupes rd; simpl.
  - by rewrite !app_nil_r.
  - rewrite (classify_verdict canonical cand Hc Hcand).
    pose proof (eq_refl : is_dup written canonical cand = (verdict written canonical cand).1)
      as Hd.
    destruct (verdict written canonical cand) as [isDup files]. simpl in *.
    destruct isDup; rewrite IH.
    + rewrite (filter_cons_False (fun c => ¬ is_dup written canonical c))
        by (rewrite Hd; intros Hn; by apply Hn).
      rewrite (filter_cons_True (fun c => Is_true (is_dup written canonical c)))
        by by rewrite Hd.
      by rewrite <- !app_assoc.
    + rewrite (filter_cons_True (fun c => ¬ is_dup written canonical c))
        by (rewrite Hd; by intros []).
      rewrite (filter_cons_False (fun c => Is_true (is_dup written canonical c)))
        by (rewrite Hd; by intros []).
      by rewrite <- !app_assoc.
Qed.

End ClassifyFacts.

(** ** One title group *)

Lemma split_group_sorted (written : jsstring -> jsstring) (arr : list candidate)
    (canonical : candidate)
    (rest : list candidate) :
  (1 < length arr)%nat ->
  Array_sort by_textLen_desc arr = canonical :: rest ->
  split_group written arr =
  (canonical :: filter (fun c => ¬ is_dup written canonical c) rest,
   filter (fun c => is_dup written canonical c) rest,
   flat_map (fun c => (verdict written canonical c).2) rest).
Proof.
  intros Hlen Hsort. unfold split_group. rewrite Hsort.
  destruct arr as [| c [| c' arr']]; simpl in Hlen; [lia | lia | done].
Qed.

Section GroupFacts.
Context `{Runtime}.
Variable written : jsstring -> jsstring.
Variable fuel : nat.
Hypothesis enough_fuel : (64 <= fuel)%nat.

Lemma push_nav_closed (title : jsstring) (isDup : bool) (cs : list candidate)
    (items : list Nav.item) :
  push_nav title isDup cs items =
  items ++ (if isMeaningfulTitle title then map (nav_of title isDup) cs else []).
Proof.
  unfold push_nav. revert items.
  induction cs as [| c cs IH]; intros items; simpl.
  - destruct (isMeaningfulTitle title); by rewrite app_nil_r.
  - rewrite IH. destruct (isMeaningfulTitle title); [| done].
    by rewrite <- app_assoc.
Qed.

Lemma process_group_closed (st : state) (title : jsstring) (arr : list candidate) :
  arr <> [] -> Forall wf_candidate arr ->
  process_group written fuel st title arr = Some (group_result written st title arr).
Proof.
  intros Hne Hwf.
  destruct arr as [| c [| c' arr']]; [done | |].
  - unfold process_group, group_result, group_items, group_report, group_files,
      group_keep, group_dupes. simpl.
    destruct (isMeaningfulTitle title); by rewrite !app_nil_r.
  - destruct (Array_sort_cons (c :: c' :: arr')) as (canonical & rest & Hsort); [done |].
    assert (Hwf' : Forall wf_candidate (canonical :: rest)).
    { rewrite <- Hsort. by rewrite Array_sort_Permutation. }
    apply Forall_cons in Hwf' as [Hcan Hrest].
    unfold group_result, group_items, group_report, group_files, group_keep, group_dupes.
    rewrite (split_group_sorted written _ canonical rest) by (simpl; lia || done).
    unfold process_group. rewrite Hsort.
    rewrite (classify_rest_closed written fuel enough_fuel canonical rest) by done.
    rewrite !push_nav_closed. cbn [fst snd app].
    f_equal. f_equal.
    + destruct (isMeaningfulTitle title); by rewrite <- ?app_assoc, ?app_nil_r.
    + destruct (truthy_length _); by rewrite ?app_nil_r.
Qed.

Lemma process_groups_closed (groups : list (jsstring * list candidate)) (st : state) :
  Forall (fun g => g.2 <> [] /\ Forall wf_candidate g.2) groups ->
  process_groups written fuel st groups =
  Some (fold_left (fun st g => group_result written st g.1 g.2) groups st).
Proof.
  intros Hgroups. revert st.
  induction Hgroups as [| [title arr] groups [Hne Hwf] _ IH]; intros st; simpl; [done |].
  rewrite process_group_closed by done. apply IH.
Qed.

Lemma fold_group_result (groups : list (jsstring * list candidate)) (st : state) :
  fold_left (fun st g => group_result written st g.1 g.2) groups st =
  {| navItems := navItems st ++ flat_map (fun g => group_items written g.1 g.2) groups;
     dedupeReport := dedupeReport st ++ flat_map (fun g => group_report written g.1 g.2) groups;
     reads := reads st ++ flat_map (fun g => group_files written g.2) groups |}.
Proof.
  revert st. induction groups as [| g groups IH]; intros st; simpl.
  - rewrite !app_nil_r. by destruct st.
  - rewrite IH. unfold group_result at 1 2 3. simpl. by rewrite <- !app_assoc.
Qed.

End GroupFacts.

(** ** Grouping by title *)

Lemma filter_all {A : Type} (P : A -> Prop) `{!forall x, Decision (P x)} (l : list A) :
  Forall P l -> filter P l = l.
Proof.
  induction 1 as [| x l Hx _ IH]; [done |].
  by rewrite filter_cons_True, IH.
Qed.

Lemma filter_none {A : Type} (P : A -> Prop) `{!forall x, Decision (P x)} (l : list A) :
  Forall (fun x => ¬ P x) l -> filter P l = [].
Proof.
  induction 1 as [| x l Hx _ IH]; [done |].
  by rewrite filter_cons_False.
Qed.

Lemma push_group_keys (k : jsstring) (c : candidate) (m : list (jsstring * list candidate)) :
  (push_group k c m).*1 = if decide (k ∈ m.*1) then m.*1 else m.*1 ++ [k].
Proof.
  induction m as [| [k' arr] m IH]; [done |].
  cbn [push_group]. destruct (decide (k' = k)) as [-> | Hne]; rewrite !fmap_cons; cbn [fst].
  - rewrite decide_True by left. done.
  - rewrite IH. destruct (decide (k ∈ m.*1)) as [Hin | Hnin].
    + rewrite decide_True by by right. done.
    + rewrite decide_False; [done |]. intros [-> | Hin]%elem_of_cons; done.
Qed.

Lemma push_group_NoDup (k : jsstring) (c : candidate) (m : list (jsstring * list candidate)) :
  NoDup m.*1 -> NoDup (push_group k c m).*1.
Proof.
  intros Hnd. rewrite push_group_keys.
  destruct (decide (k ∈ m.*1)) as [Hin | Hnin]; [done |].
  apply NoDup_app. split_and!; [done | | apply NoDup_singleton].
  intros x Hx ->%list_elem_of_singleton. done.
Qed.

Lemma elem_of_push_group (k : jsstring) (c : candidate) (m : list (jsstring * list candidate))
    (t : jsstring) (arr : list candidate) :
  NoDup m.*1 -> (t, arr) ∈ push_group k c m ->
  (t <> k /\ (t, arr) ∈ m) \/
  (t = k /\ exists arr0, arr = arr0 ++ [c] /\ ((k, arr0) ∈ m \/ (arr0 = [] /\ k ∉ m.*1))).
Proof.
  induction m as [| [k' a] m IH]; intros Hnd Hin; cbn [push_group] in Hin.
  - apply list_elem_of_singleton in Hin. injection Hin as -> ->.
    right. split; [done |]. exists []. split; [done |]. right. split; [done |].
    apply not_elem_of_nil.
  - rewrite fmap_cons in Hnd |- *. cbn [fst] in *.
    apply NoDup_cons in Hnd as [Hk' Hnd].
    destruct (decide (k' = k)) as [-> | Hne].
    + apply elem_of_cons in Hin as [Heq | Hin].
      * injection Heq as -> ->. right. split; [done |].
        exists a. split; [done |]. left. left.
      * left. split; [| by right].
        intros ->. apply Hk'. by apply (list_elem_of_fmap_2 fst _ (k, arr)).
    + apply elem_of_cons in Hin as [Heq | Hin].
      * injection Heq as -> ->. left. split; [done | left].
      * destruct (IH Hnd Hin) as [[Ht Hm] | (Ht & arr0 & Harr & Hcase)].
        -- left. split; [done | by right].
        -- right. split; [done |]. exists arr0. split; [done |].
           destruct Hcase as [Hm | [-> Hnin]]; [left; by right |].
           right. split; [done |]. intros Hk.
           apply elem_of_cons in Hk as [-> | Hk]; done.
Qed.

Lemma grouped_push (m : list (jsstring * list candidate)) (pre : list candidate)
    (c : candidate) :
  grouped m pre -> grouped (push_group (strictTitle c) c m) (pre ++ [c]).
Proof.
  intros (Hnd & Hall & Hgroups). split_and!.
  - by apply push_group_NoDup.
  - intros c' Hc'. rewrite push_group_keys.
    apply elem_of_app in Hc' as [Hc' | ->%list_elem_of_singleton].
    + specialize (Hall c' Hc'). destruct (decide _); [done |].
      apply elem_of_app. by left.
    + destruct (decide _); [done |]. apply elem_of_app. right. left.
  - intros t arr Hin.
    destruct (elem_of_push_group _ _ _ _ _ Hnd Hin)
      as [[Ht Hm] | (-> & arr0 & -> & Hcase)].
    + destruct (Hgroups t arr Hm) as [-> Hne]. split; [| done].
      rewrite filter_app, filter_cons_False, filter_nil, app_nil_r by done. done.
    + split; [| by destruct arr0].
      rewrite filter_app, filter_cons_True, filter_nil by done. f_equal.
      destruct Hcase as [Hm | [-> Hnin]]; [by apply Hgroups |].
      symmetry. apply filter_none, Forall_forall. intros c' Hc' Heq.
      apply Hnin. rewrite <- Heq. by apply Hall.
Qed.

Lemma groupByTitle_grouped (candidates : list candidate) :
  grouped (groupByTitle candidates) candidates.
Proof.
  unfold groupByTitle.
  assert (Hgen : forall m pre, grouped m pre ->
            grouped (fold_left (fun m c => push_group (strictTitle c) c m) candidates m)
                    (pre ++ candidates)).
  { induction candidates as [| c cs IH]; intros m pre Hm; simpl.
    - by rewrite app_nil_r.
    - replace (pre ++ c :: cs) with ((pre ++ [c]) ++ cs) by by rewrite <- app_assoc.
      apply IH. by apply grouped_push. }
  apply (Hgen [] []). split_and!.
  - apply NoDup_nil_2.
  - intros c Hc. by eapply not_elem_of_nil in Hc.
  - intros t arr Hin. by eapply not_elem_of_nil in Hin.
Qed.

(** ** The second pass as a whole *)

Lemma split_group_Permutation (written : jsstring -> jsstring) (arr : list candidate) :
  arr <> [] -> group_keep written arr ++ group_dupes written arr ≡ₚ arr.
Proof.
  intros Hne. unfold group_keep, group_dupes.
  destruct arr as [| c [| c' arr']]; [done | done |].
  destruct (Array_sort_cons (c :: c' :: arr')) as (canonical & rest & Hsort); [done |].
  rewrite (split_group_sorted written _ canonical rest) by (simpl; lia || done).
  cbn [fst snd]. rewrite <- (Array_sort_Permutation by_textLen_desc (c :: c' :: arr')), Hsort.
  rewrite <- app_comm_cons. apply Permutation_cons; [done |].
  rewrite Permutation_app_comm. apply filter_app_complement.
Qed.

Section DedupeFacts.
Context `{Runtime}.
Variable written : jsstring -> jsstring.
Variable fuel : nat.
Hypothesis enough_fuel : (64 <= fuel)%nat.

Lemma group_items_titles (t : jsstring) (arr : list candidate) :
  Forall (fun it => Nav.title it = t) (group_items written t arr).
Proof.
  unfold group_items. destruct (isMeaningfulTitle t); [| constructor].
  apply Forall_app. split; apply Forall_forall; intros it Hit;
    apply list_elem_of_In, in_map_iff in Hit as (c & <- & _); done.
Qed.

Lemma group_report_titles (t : jsstring) (arr : list candidate) :
  Forall (fun r => Report.title r = t) (group_report written t arr).
Proof.
  unfold group_report. destruct (truthy_length _); repeat constructor.
Qed.

(** The entries of one title among those of all groups. *)
Lemma filter_title_groups {B : Type} (title_of : B -> jsstring)
    (f : jsstring -> list candidate -> list B)
    (groups : list (jsstring * list candidate)) (t : jsstring) (arr : list candidate) :
  (forall t' arr', Forall (fun x => title_of x = t') (f t' arr')) ->
  NoDup groups.*1 -> (t, arr) ∈ groups ->
  filter (fun x => title_of x = t) (flat_map (fun g => f g.1 g.2) groups) = f t arr.
Proof.
  intros Htitles. induction groups as [| [t' arr'] groups IH]; intros Hnd Hin.
  - by eapply not_elem_of_nil in Hin.
  - rewrite fmap_cons in Hnd. cbn [fst] in Hnd. apply NoDup_cons in Hnd as [Ht' Hnd].
    cbn [flat_map fst snd]. rewrite filter_app.
    apply elem_of_cons in Hin as [Heq | Hin].
    + injection Heq as <- <-.
      rewrite filter_all by apply Htitles.
      rewrite filter_none; [by rewrite app_nil_r |].
      apply Forall_forall. intros x Hx Heq.
      apply list_elem_of_In, in_flat_map in Hx as ([t2 arr2] & Hg & Hx).
      apply list_elem_of_In in Hg, Hx.
      pose proof (Htitles t2 arr2) as Hall. rewrite Forall_forall in Hall.
      specialize (Hall x Hx). cbn [fst snd] in *.
      apply Ht'. rewrite <- Heq, Hall.
      by apply (list_elem_of_fmap_2 fst _ (t2, arr2)).
    + rewrite filter_none, app_nil_l; [by apply IH |].
      apply Forall_forall. intros x Hx Heq.
      pose proof (Htitles t' arr') as Hall. rewrite Forall_forall in Hall.
      specialize (Hall x Hx). apply Ht'. rewrite <- Hall, Heq.
      by apply (list_elem_of_fmap_2 fst _ (t, arr)).
Qed.

Lemma dedupe_closed (candidates : list candidate) :
  Forall wf_candidate candidates ->
  dedupe written fuel candidates =
  Some {| manifest :=
            filter (fun it => isMeaningfulTitle (Nav.title it))
              (Array_sort (fun a b => localeCompare (Nav.title a) (Nav.title b))
                 (flat_map (fun g => group_items written g.1 g.2) (groupByTitle candidates)));
          report := flat_map (fun g => group_report written g.1 g.2) (groupByTitle candidates);
          files_read := flat_map (fun g => group_files written g.2) (groupByTitle candidates) |}.
Proof.
  intros Hwf. unfold dedupe.
  destruct (groupByTitle_grouped candidates) as (Hnd & Hall & Hgroups).
  rewrite (process_groups_closed written fuel enough_fuel).
  - by rewrite fold_group_result.
  - apply Forall_forall. intros [t arr] Hin.
    destruct (Hgroups t arr Hin) as [-> Hne]. split; [done |].
    cbn [snd]. apply Forall_forall. intros c Hc.
    apply list_elem_of_filter in Hc as [_ Hc].
    rewrite Forall_forall in Hwf. by apply Hwf.
Qed.

(** The manifest entries of a title are what its group has pushed. *)
Lemma manifest_entries (candidates : list candidate) (out : output)
    (t : jsstring) (arr : list candidate) :
  Forall wf_candidate candidates ->
  Forall (fun c => isMeaningfulTitle (strictTitle c)) candidates ->
  dedupe written fuel candidates = Some out ->
  (t, arr) ∈ groupByTitle candidates ->
  isMeaningfulTitle t /\
  entries_of t (manifest out)
  ≡ₚ map (nav_of t false) (group_keep written arr)
     ++ map (nav_of t true) (group_dupes written arr).
Proof.
  intros Hwf Hmean Hout Hin.
  rewrite (dedupe_closed candidates Hwf) in Hout. injection Hout as <-.
  destruct (groupByTitle_grouped candidates) as (Hnd & Hall & Hgroups).
  assert (Ht : isMeaningfulTitle t).
  { destruct (Hgroups t arr Hin) as [Harr Hne].
    destruct arr as [| c arr']; [done |].
    assert (Hc : c ∈ filter (fun c => strictTitle c = t) candidates)
      by (rewrite <- Harr; left).
    apply list_elem_of_filter in Hc as [<- Hc].
    rewrite Forall_forall in Hmean. by apply Hmean. }
  split; [done |]. unfold entries_of. cbn [manifest].
  rewrite list_filter_filter.
  rewrite (Array_sort_Permutation _ _).
  rewrite (list_filter_iff _ (fun it => Nav.title it = t)).
  - rewrite (filter_title_groups Nav.title (group_items written) _ t arr
               (group_items_titles) Hnd Hin).
    unfold group_items. by destruct (isMeaningfulTitle t).
  - intros it. split; [by intros [? _] | intros ->; done].
Qed.

End DedupeFacts.

Section CollectFacts.
Context `{Runtime}.

Lemma collect_wf (pages : list page) : Forall wf_candidate (collect pages).
Proof.
  unfold collect. apply Forall_forall. intros c Hc.
  apply list_elem_of_In, in_map_iff in Hc as (p & <- & _).
  apply simhash64_range.
Qed.

Lemma collect_meaningful (pages : list page) :
  Forall (fun c => isMeaningfulTitle (strictTitle c)) (collect pages).
Proof.
  unfold collect. apply Forall_forall. intros c Hc.
  apply list_elem_of_In, in_map_iff in Hc as (p & <- & Hp).
  apply list_elem_of_In, list_elem_of_filter in Hp as [Hinc _].
  unfold includeInFlatNav in Hinc. cbn [strictTitle candidate_of_page].
  apply andb_prop_elim in Hinc as [_ Hm]. done.
Qed.

End CollectFacts.

(** ** Claims on the second pass *)

Lemma flagged_nav_of_same (t : jsstring) (b : bool) (cs : list candidate) :
  flagged b (map (nav_of t b) cs) = map (nav_of t b) cs.
Proof.
  unfold flagged. apply filter_all, Forall_forall. intros it Hit.
  by apply list_elem_of_In, in_map_iff in Hit as (c & <- & _).
Qed.

Lemma flagged_nav_of_other (t : jsstring) (b : bool) (cs : list candidate) :
  flagged (negb b) (map (nav_of t b) cs) = [].
Proof.
  unfold flagged. apply filter_none, Forall_forall. intros it Hit.
  apply list_elem_of_In, in_map_iff in Hit as (c & <- & _). by destruct b.
Qed.

Lemma map_path_nav_of (t : jsstring) (b : bool) (cs : list candidate) :
  map Nav.path (map (nav_of t b) cs) = map path cs.
Proof. rewrite map_map. by apply map_ext. Qed.

Lemma flagged_Permutation (b : bool) (l1 l2 : list Nav.item) :
  l1 ≡ₚ l2 -> flagged b l1 ≡ₚ flagged b l2.
Proof. intros Hperm. unfold flagged. by rewrite Hperm. Qed.

(** The entries and the record of one entry of [byTitle]: the manifest
    holds one entry for each member of the array, a record of that title
    lists the paths of the flagged entries as [duplicates] and the paths of
    the others as [kept], and there is such a record exactly when an entry
    is flagged. *)
Lemma manifest_of_group `{Runtime} (written : jsstring -> jsstring)
    (fuel : nat) (pages : list page) :
  (64 <= fuel)%nat ->
  exists out : output,
    dedupe written fuel (collect pages) = Some out /\
    forall (t : jsstring) (arr : list candidate),
      (t, arr) ∈ groupByTitle (collect pages) ->
      length (entries_of t (manifest out)) = length arr /\
      map Nav.path (entries_of t (manifest out)) ≡ₚ map path arr /\
      (forall r : Report.record,
         r ∈ report out -> Report.title r = t ->
         Report.duplicates r ≡ₚ map Nav.path (flagged true (entries_of t (manifest out))) /\
         Report.kept r ≡ₚ map Nav.path (flagged false (entries_of t (manifest out)))) /\
      ((exists it, it ∈ entries_of t (manifest out) /\ Nav.dup it = true) <->
       (exists r, r ∈ report out /\ Report.title r = t)).
Proof.
  intros Hfuel.
  pose proof (collect_wf pages) as Hwf.
  pose proof (collect_meaningful pages) as Hmean.
  pose proof (dedupe_closed written fuel Hfuel (collect pages) Hwf) as Hout.
  match type of Hout with _ = Some ?o => set (out := o) in * end.
  assert (Hreport : report out = flat_map (fun g => group_report written g.1 g.2)
                                   (groupByTitle (collect pages))) by reflexivity.
  clearbody out.
  exists out. split; [exact Hout |].
  intros t arr Hin.
  destruct (manifest_entries written fuel Hfuel (collect pages) out t arr Hwf Hmean Hout Hin)
    as [Ht Hentries].
  destruct (groupByTitle_grouped (collect pages)) as (Hnd & Hall & Hgroups).
  destruct (Hgroups t arr Hin) as [Harr Hne].
  pose proof (split_group_Permutation written arr Hne) as Hsplit.
  assert (Hflag_true : flagged true (entries_of t (manifest out))
                       ≡ₚ map (nav_of t true) (group_dupes written arr)).
  { rewrite (flagged_Permutation _ _ _ Hentries). unfold flagged at 1.
    rewrite filter_app. fold (flagged true (map (nav_of t false) (group_keep written arr))).
    fold (flagged true (map (nav_of t true) (group_dupes written arr))).
    rewrite flagged_nav_of_same, (flagged_nav_of_other t false). done. }
  assert (Hflag_false : flagged false (entries_of t (manifest out))
                        ≡ₚ map (nav_of t false) (group_keep written arr)).
  { rewrite (flagged_Permutation _ _ _ Hentries). unfold flagged at 1.
    rewrite filter_app. fold (flagged false (map (nav_of t false) (group_keep written arr))).
    fold (flagged false (map (nav_of t true) (group_dupes written arr))).
    rewrite flagged_nav_of_same, (flagged_nav_of_other t true), app_nil_r. done. }
  assert (Hrecord : forall r, r ∈ report out -> Report.title r = t ->
            group_dupes written arr <> [] /\
            r = {| Report.title := t;
                   Report.kept := map path (group_keep written arr);
                   Report.duplicates := map path (group_dupes written arr);
                   Report.reason := REASON |}).
  { intros r Hr Htitle. rewrite Hreport in Hr.
    apply list_elem_of_In, in_flat_map in Hr as ([t2 arr2] & Hg & Hr).
    apply list_elem_of_In in Hg, Hr. cbn [fst snd] in Hr.
    pose proof (group_report_titles written t2 arr2) as Htitles.
    rewrite Forall_forall in Htitles. specialize (Htitles r Hr).
    assert (t2 = t) as -> by congruence.
    destruct (Hgroups t arr2 Hg) as [Harr2 _].
    assert (arr2 = arr) as -> by congruence.
    unfold group_report in Hr.
    destruct (group_dupes written arr) as [| d ds];
      [by eapply not_elem_of_nil in Hr |].
    apply list_elem_of_singleton in Hr. done. }
  split_and!.
  - rewrite Hentries, length_app, !length_map, <- length_app. by rewrite Hsplit.
  - rewrite Hentries, map_app, !map_path_nav_of, <- map_app. by rewrite Hsplit.
  - intros r Hr Htitle. destruct (Hrecord r Hr Htitle) as [_ ->].
    cbn [Report.duplicates Report.kept].
    rewrite Hflag_true, Hflag_false, !map_path_nav_of. done.
  - split.
    + intros (it & Hit & Hdup).
      assert (Hit' : it ∈ flagged true (entries_of t (manifest out)))
        by by apply list_elem_of_filter.
      rewrite Hflag_true in Hit'.
      destruct (group_dupes written arr) as [| d ds] eqn:Hd;
        [by eapply not_elem_of_nil in Hit' |].
      exists {| Report.title := t;
                Report.kept := map path (group_keep written arr);
                Report.duplicates := map path (d :: ds);
                Report.reason := REASON |}.
      split; [| reflexivity]. rewrite Hreport.
      apply list_elem_of_In, in_flat_map. exists (t, arr).
      split; [by apply list_elem_of_In |]. cbn [fst snd].
      unfold group_report. rewrite Hd. cbn [truthy_length]. left. reflexivity.
    + intros (r & Hr & Htitle). destruct (Hrecord r Hr Htitle) as [Hd _].
      destruct (group_dupes written arr) as [| d ds] eqn:Hdupes; [done |].
      exists (nav_of t true d).
      assert (Hd' : nav_of t true d ∈ flagged true (entries_of t (manifest out))).
      { rewrite Hflag_true. left. }
      apply list_elem_of_filter in Hd' as [Hdup Hd']. done.
Qed.

(** The scenario of the two engine pages: the page of 500 characters is
    canonical, the page of 480 characters is flagged as its duplicate
    because the fingerprints differ in two bits, and no file is read. *)
Example engine_scenario :
  dedupe (H := posix_ascii_runtime) (fun _ => []) 64 [engine_480; engine_500] =
  Some {| manifest :=
            [{| Nav.title := js "Engine Removal Procedure";
                Nav.path := js "en/html/A500.html"; Nav.dup := false |};
             {| Nav.title := js "Engine Removal Procedure";
                Nav.path := js "en/html/B480.html"; Nav.dup := true |}];
          report :=
            [{| Report.title := js "Engine Removal Procedure";
                Report.kept := [js "en/html/A500.html"];
                Report.duplicates := [js "en/html/B480.html"];
                Report.reason := REASON |}];
          files_read := [] |}.
Proof. by vm_compute. Qed.

(** ** trim *)

Lemma trimStart_spec (s : jsstring) :
  exists before,
    s = before ++ trimStart s /\ Forall (fun c => is_js_space c = true) before /\
    forall c, head (trimStart s) = Some c -> is_js_space c = false.
Proof.
  induction s as [| c s (before & Hs & Hsp & Hhd)]; simpl.
  - exists []. split_and!; [done | constructor | done].
  - destruct (is_js_space c) eqn:Hc.
    + exists (c :: before). split_and!; [by rewrite Hs at 1 | by constructor | done].
    + exists []. split_and!; [done | constructor |]. intros c' [= <-]. done.
Qed.

Lemma trimStart_app_nonspace (l r : jsstring) (c : Z) :
  is_js_space c = false -> trimStart (l ++ c :: r) = trimStart l ++ c :: r.
Proof.
  intros Hc. induction l as [| x l IH]; simpl; [by rewrite Hc |].
  by destruct (is_js_space x).
Qed.

Lemma trimEnd_spec (s : jsstring) :
  exists after,
    s = trimEnd s ++ after /\ Forall (fun c => is_js_space c = true) after /\
    forall c, last (trimEnd s) = Some c -> is_js_space c = false.
Proof.
  unfold trimEnd. destruct (trimStart_spec (rev s)) as (before & Hs & Hsp & Hhd).
  exists (rev before). split_and!.
  - rewrite <- rev_app_distr, <- Hs. by rewrite rev_involutive.
  - apply Forall_forall. intros c Hc. rewrite Forall_forall in Hsp. apply Hsp.
    apply list_elem_of_In, in_rev. apply list_elem_of_In in Hc. done.
  - intros c Hc. apply Hhd. rewrite <- Hc.
    destruct (trimStart (rev s)) as [| x l]; [done |].
    simpl. by rewrite last_snoc.
Qed.

Lemma trimEnd_head (s : jsstring) (c : Z) :
  head s = Some c -> is_js_space c = false -> head (trimEnd s) = Some c.
Proof.
  intros Hhd Hc. destruct s as [| x s]; [done |]. injection Hhd as ->.
  unfold trimEnd. simpl. rewrite trimStart_app_nonspace by done.
  rewrite rev_app_distr. done.
Qed.

(** [trim] removes white space at the two ends and nothing else. *)
Lemma trim_spec (s : jsstring) :
  exists before after,
    s = before ++ trim s ++ after /\
    Forall (fun c => is_js_space c = true) before /\
    Forall (fun c => is_js_space c = true) after /\
    (forall c, head (trim s) = Some c -> is_js_space c = false) /\
    (forall c, last (trim s) = Some c -> is_js_space c = false).
Proof.
  unfold trim.
  destruct (trimStart_spec s) as (before & Hs & Hbefore & Hhd).
  destruct (trimEnd_spec (trimStart s)) as (after & Ht & Hafter & Hlast).
  exists before, after. split_and!; [| done | done | | done].
  - rewrite <- Ht. done.
  - intros c Hc. destruct (trimStart s) as [| x t] eqn:Hts; [done |].
    destruct (is_js_space x) eqn:Hx.
    + specialize (Hhd x eq_refl). congruence.
    + rewrite (trimEnd_head (x :: t) x eq_refl Hx) in Hc. by injection Hc as <-.
Qed.

(** ** Claims on titles, reasons and empty pages *)

(** C7 as stated fails: a title with two spaces inside keeps both in the
    [strictTitle] of its candidate, while its normalized form has one; the
    page is therefore not grouped with a page whose title has one space. *)
Lemma strictTitle_keeps_inner_whitespace :
  collect (H := posix_ascii_runtime)
    [normal_page "en/html/a.html" "Engine  Removal" "remove the engine"]
  = [candidate_of_page (normal_page "en/html/a.html" "Engine  Removal" "remove the engine")] /\
  strictTitle (candidate_of_page (H := posix_ascii_runtime)
    (normal_page "en/html/a.html" "Engine  Removal" "remove the engine"))
  = js "Engine  Removal" /\
  normalized_title_spec (js "Engine  Removal") = js "Engine Removal" /\
  strictTitle (candidate_of_page (H := posix_ascii_runtime)
    (normal_page "en/html/a.html" "Engine  Removal" "remove the engine"))
  <> normalized_title_spec (js "Engine  Removal") /\
  map fst (groupByTitle (collect (H := posix_ascii_runtime)
    [normal_page "en/html/a.html" "Engine  Removal" "remove the engine";
     frameset_page "en/html/b.html" "Engine Removal" "remove the engine"]))
  = [js "Engine  Removal"; js "Engine Removal"].
Proof. by vm_compute. Qed.

(** On a normal page the title element is set to the display title before
    [headTitleStrict] reads it: a page without a title is filed under its
    file name. *)
Example strictTitle_of_untitled_normal_page :
  strictTitle (candidate_of_page (H := posix_ascii_runtime)
    (normal_page "en/html/a.html" "" "remove the engine")) = js "a.html" /\
  strictTitle (candidate_of_page (H := posix_ascii_runtime)
    (frameset_page "en/html/a.html" "" "remove the engine")) = [].
Proof. by vm_compute. Qed.

Section ReasonFacts.
Context `{Runtime}.

(** C8, amended: every record of the report carries the same fixed
    reason, which names both thresholds ([HAMMING<=3 or JACCARD>=0.98]),
    whichever of the two rules has classified the duplicates it lists. *)
Theorem report_reason_is_fixed (written : jsstring -> jsstring) (fuel : nat)
    (pages : list page) :
  (64 <= fuel)%nat ->
  exists out : output,
    dedupe written fuel (collect pages) = Some out /\
    forall r : Report.record,
      r ∈ report out ->
      Report.reason r = REASON /\ Report.reason r = js "HAMMING<=3 or JACCARD>=0.98".
Proof.
  intros Hfuel.
  pose proof (dedupe_closed written fuel Hfuel (collect pages) (collect_wf pages)) as Hout.
  eexists. split; [exact Hout |].
  intros r Hr. cbn [report] in Hr.
  apply list_elem_of_In, in_flat_map in Hr as ([t arr] & _ & Hr).
  apply list_elem_of_In in Hr. cbn [fst snd] in Hr. unfold group_report in Hr.
  destruct (truthy_length (group_dupes written arr)); [| by eapply not_elem_of_nil in Hr].
  apply list_elem_of_singleton in Hr as ->. by split.
Qed.

End ReasonFacts.

Lemma report_reason_is_fixed_witness :
  exists out : output,
    dedupe (H := posix_ascii_runtime) (written_from (alpha_pages ++ beta_pages)) 64
      (collect (alpha_pages ++ beta_pages)) = Some out /\
    forall r : Report.record,
      r ∈ report out ->
      Report.reason r = REASON /\ Report.reason r = js "HAMMING<=3 or JACCARD>=0.98".
Proof.
  apply (report_reason_is_fixed (H := posix_ascii_runtime)
           (written_from (alpha_pages ++ beta_pages)) 64 (alpha_pages ++ beta_pages)).
  lia.
Defined.

(** C8 as stated fails: in one run the duplicate of the first group is
    found by the Hamming rule (distance 0, no file read) and the duplicate
    of the second group by the Jaccard fallback (distance 16, the two
    pages read back); the two records carry the same reason. *)
Lemma reason_same_for_both_rules :
  classify (written_from (alpha_pages ++ beta_pages)) 64
    (candidate_of_page (H := posix_ascii_runtime)
       (normal_page "en/html/a1.html" "Alpha Title" "engine removed"))
    (candidate_of_page (H := posix_ascii_runtime)
       (normal_page "en/html/a2.html" "Alpha Title" "engine removed"))
  = Some (true, []) /\
  hamming64 64
    (simhash (candidate_of_page (H := posix_ascii_runtime)
       (normal_page "en/html/b2.html" "Beta Title" "engine removed removed removed")))
    (simhash (candidate_of_page (H := posix_ascii_runtime)
       (normal_page "en/html/b1.html" "Beta Title" "engine removed")))
  = Some 16 /\
  classify (written_from (alpha_pages ++ beta_pages)) 64
    (candidate_of_page (H := posix_ascii_runtime)
       (normal_page "en/html/b2.html" "Beta Title" "engine removed removed removed"))
    (candidate_of_page (H := posix_ascii_runtime)
       (normal_page "en/html/b1.html" "Beta Title" "engine removed"))
  = Some (true, [js "en/html/b2.html"; js "en/html/b1.html"]) /\
  option_map report
    (dedupe (H := posix_ascii_runtime) (written_from (alpha_pages ++ beta_pages)) 64
       (collect (alpha_pages ++ beta_pages)))
  = Some [{| Report.title := js "Alpha Title";
             Report.kept := [js "en/html/a1.html"];
             Report.duplicates := [js "en/html/a2.html"];
             Report.reason := js "HAMMING<=3 or JACCARD>=0.98" |};
          {| Report.title := js "Beta Title";
             Report.kept := [js "en/html/b2.html"];
             Report.duplicates := [js "en/html/b1.html"];
             Report.reason := js "HAMMING<=3 or JACCARD>=0.98" |}] /\
  option_map files_read
    (dedupe (H := posix_ascii_runtime) (written_from (alpha_pages ++ beta_pages)) 64
       (collect (alpha_pages ++ beta_pages)))
  = Some [js "en/html/b2.html"; js "en/html/b1.html"].
Proof. by vm_compute. Qed.

(** ** Pages without text *)

Lemma simhash64_nil : simhash64 (tokenize []) = 0.
Proof. by vm_compute. Qed.

Lemma classify_zero (written : jsstring -> jsstring) (fuel : nat) (c1 c2 : candidate) :
  simhash c1 = 0 -> simhash c2 = 0 -> classify written fuel c1 c2 = Some (true, []).
Proof.
  intros H1 H2. unfold classify, hamming64. rewrite H1, H2. by destruct fuel.
Qed.

Lemma classify_rest_all_dup (written : jsstring -> jsstring) (fuel : nat)
    (canonical : candidate) (rest keep dupes : list candidate) (rd : list jsstring) :
  Forall (fun c => classify written fuel canonical c = Some (true, [])) rest ->
  classify_rest written fuel canonical rest keep dupes rd = Some (keep, dupes ++ rest, rd).
Proof.
  intros Hall. revert dupes.
  induction Hall as [| c rest Hc _ IH]; intros dupes; simpl.
  - by rewrite app_nil_r.
  - rewrite Hc, app_nil_r, IH. by rewrite <- app_assoc.
Qed.

Section EmptyPages.
Context `{Runtime}.

(** C10, amended: a page whose normalized text is empty has the empty
    token list and the fingerprint 0, so two such candidates are at
    Hamming distance 0. In a title group all of whose members have an empty
    normalized text, the first is the canonical one and every other member
    is classified a duplicate of it by the fingerprint rule, no file being
    read for the Jaccard fallback. *)
Theorem empty_text_group_classified_by_fingerprint (written : jsstring -> jsstring)
    (fuel : nat) (st : state) (title : jsstring) (ps : list page) :
  (1 < length ps)%nat -> Forall (fun p => norm p = []) ps ->
  tokenize [] = [] /\
  Forall (fun c => simhash c = 0 /\ textLen c = 0) (map candidate_of_page ps) /\
  (forall c1 c2, c1 ∈ map candidate_of_page ps -> c2 ∈ map candidate_of_page ps ->
                 hamming64 fuel (simhash c1) (simhash c2) = Some 0) /\
  exists (canonical : candidate) (rest : list candidate),
    map candidate_of_page ps = canonical :: rest /\
    Forall (fun c => classify written fuel canonical c = Some (true, [])) rest /\
    process_group written fuel st title (map candidate_of_page ps) =
    Some {| navItems :=
              push_nav title true rest (push_nav title false [canonical] (navItems st));
            dedupeReport :=
              dedupeReport st ++
              [{| Report.title := title;
                  Report.kept := [path canonical];
                  Report.duplicates := map path rest;
                  Report.reason := REASON |}];
            reads := reads st |}.
Proof.
  intros Hlen Hempty.
  assert (Hzero : Forall (fun c => simhash c = 0 /\ textLen c = 0) (map candidate_of_page ps)).
  { apply Forall_forall. intros c Hc.
    apply list_elem_of_In, in_map_iff in Hc as (p & <- & Hp).
    rewrite Forall_forall in Hempty. apply list_elem_of_In in Hp.
    unfold candidate_of_page. cbn [simhash textLen].
    rewrite (Hempty p Hp). split; [apply simhash64_nil | done]. }
  split; [done |]. split; [exact Hzero |]. split.
  - intros c1 c2 Hc1 Hc2. rewrite Forall_forall in Hzero.
    destruct (Hzero c1 Hc1) as [-> _]. destruct (Hzero c2 Hc2) as [-> _].
    by destruct fuel.
  - destruct (map candidate_of_page ps) as [| canonical [| c' rest']] eqn:Harr.
    + apply (f_equal length) in Harr. rewrite length_map in Harr. simpl in Harr. lia.
    + apply (f_equal length) in Harr. rewrite length_map in Harr. simpl in Harr. lia.
    + exists canonical, (c' :: rest').
      assert (Hdup : Forall (fun c => classify written fuel canonical c = Some (true, []))
                       (c' :: rest')).
      { apply Forall_cons in Hzero as [[Hcan _] Hrest].
        eapply Forall_impl; [exact Hrest |]. intros c [Hc _]. by apply classify_zero. }
      split; [done |]. split; [exact Hdup |].
      unfold process_group.
      rewrite Array_sort_stable.
      * rewrite (classify_rest_all_dup _ _ _ _ _ _ _ Hdup). done.
      * intros x y Hx Hy. rewrite Forall_forall in Hzero.
        destruct (Hzero x Hx) as [_ Hx0]. destruct (Hzero y Hy) as [_ Hy0].
        unfold by_textLen_desc. lia.
Qed.

End EmptyPages.

Lemma empty_text_group_classified_by_fingerprint_witness :
  tokenize [] = [] /\
  Forall (fun c => simhash c = 0 /\ textLen c = 0)
    (map (candidate_of_page (H := posix_ascii_runtime))
       [normal_page "en/html/e1.html" "Gamma Title" "";
        normal_page "en/html/e2.html" "Gamma Title" ""]) /\
  (forall c1 c2,
     c1 ∈ map (candidate_of_page (H := posix_ascii_runtime))
            [normal_page "en/html/e1.html" "Gamma Title" "";
             normal_page "en/html/e2.html" "Gamma Title" ""] ->
     c2 ∈ map (candidate_of_page (H := posix_ascii_runtime))
            [normal_page "en/html/e1.html" "Gamma Title" "";
             normal_page "en/html/e2.html" "Gamma Title" ""] ->
     hamming64 64 (simhash c1) (simhash c2) = Some 0) /\
  exists (canonical : candidate) (rest : list candidate),
    map (candidate_of_page (H := posix_ascii_runtime))
      [normal_page "en/html/e1.html" "Gamma Title" "";
       normal_page "en/html/e2.html" "Gamma Title" ""] = canonical :: rest /\
    Forall (fun c => classify (fun _ => []) 64 canonical c = Some (true, [])) rest /\
    process_group (H := posix_ascii_runtime) (fun _ => []) 64
      {| navItems := []; dedupeReport := []; reads := [] |} (js "Gamma Title")
      (map (candidate_of_page (H := posix_ascii_runtime))
         [normal_page "en/html/e1.html" "Gamma Title" "";
          normal_page "en/html/e2.html" "Gamma Title" ""]) =
    Some {| navItems :=
              push_nav (H := posix_ascii_runtime) (js "Gamma Title") true rest
                (push_nav (H := posix_ascii_runtime) (js "Gamma Title") false [canonical] []);
            dedupeReport :=
              [] ++
              [{| Report.title := js "Gamma Title";
                  Report.kept := [path canonical];
                  Report.duplicates := map path rest;
                  Report.reason := REASON |}];
            reads := [] |}.
Proof.
  apply (empty_text_group_classified_by_fingerprint (H := posix_ascii_runtime)
           (fun _ => []) 64 {| navItems := []; dedupeReport := []; reads := [] |}
           (js "Gamma Title")
           [normal_page "en/html/e1.html" "Gamma Title" "";
            normal_page "en/html/e2.html" "Gamma Title" ""]).
  - simpl. lia.
  - repeat constructor.
Defined.

(** C10 as stated fails: two pages without text in the group of a page
    with text are each compared with that page only. Their fingerprints are
    at distance 0 from one another, but at distance 40 from the canonical
    one, so each goes through the Jaccard fallback (four files are read)
    and is kept as distinct: none is flagged, no record is written. *)
Lemma empty_pages_reach_jaccard_fallback :
  map simhash (collect (H := posix_ascii_runtime) gamma_pages)
  = [2102571068785850843; 0; 0] /\
  hamming64 64 0 0 = Some 0 /\
  hamming64 64 2102571068785850843 0 = Some 40 /\
  dedupe (H := posix_ascii_runtime) (written_from gamma_pages) 64 (collect gamma_pages) =
  Some {| manifest :=
            [{| Nav.title := js "Gamma Title"; Nav.path := js "en/html/long.html";
                Nav.dup := false |};
             {| Nav.title := js "Gamma Title"; Nav.path := js "en/html/e1.html";
                Nav.dup := false |};
             {| Nav.title := js "Gamma Title"; Nav.path := js "en/html/e2.html";
                Nav.dup := false |}];
          report := [];
          files_read := [js "en/html/long.html"; js "en/html/e1.html";
                         js "en/html/long.html"; js "en/html/e2.html"] |}.
Proof. by vm_compute. Qed.

(* ================================================================= *)
(** * Further properties *)

(** ** The link resolver never leaves a dangling link *)

(** The new [href] of a rewritten anchor is the placeholder [#], or it is
    one of the four candidate file names of the id the [Prt] or the [Cts]
    pattern has captured, and then its path resolved from the directory of
    the document is in [allPaths]. *)
Theorem rewrite_href_placeholder_or_present `{Runtime} (allPaths : gset jsstring)
    (rel js_href : jsstring) :
  rewrite_href allPaths rel js_href = js "#" \/
  (resolveRelative rel (rewrite_href allPaths rel js_href) ∈ allPaths /\
   exists m : option jsstring,
     (re_match true RE_PRT js_href = Some m \/ re_match true RE_CTS js_href = Some m) /\
     rewrite_href allPaths rel js_href ∈ candidateTargets (group_text m)).
Proof.
  unfold rewrite_href.
  destruct (re_match true RE_PRT js_href) as [m |] eqn:Hprt.
  - destruct (first_present allPaths rel (group_text m)) as [cand |] eqn:Hfirst.
    + right. unfold first_present in Hfirst. apply find_some in Hfirst as [Hin Hpresent].
      split; [by apply bool_decide_eq_true_1 in Hpresent |].
      exists m. split; [by left | by apply list_elem_of_In].
    + destruct (re_match true RE_CTS js_href) as [m' |] eqn:Hcts.
      * destruct (first_present allPaths rel (group_text m')) as [cand |] eqn:Hfirst'.
        -- right. unfold first_present in Hfirst'.
           apply find_some in Hfirst' as [Hin Hpresent].
           split; [by apply bool_decide_eq_true_1 in Hpresent |].
           exists m'. split; [by right | by apply list_elem_of_In].
        -- left. by destruct (re_match true RE_JMP js_href).
      * left. by destruct (re_match true RE_JMP js_href).
  - destruct (re_match true RE_CTS js_href) as [m' |] eqn:Hcts.
    + destruct (first_present allPaths rel (group_text m')) as [cand |] eqn:Hfirst'.
      * right. unfold first_present in Hfirst'.
        apply find_some in Hfirst' as [Hin Hpresent].
        split; [by apply bool_decide_eq_true_1 in Hpresent |].
        exists m'. split; [by right | by apply list_elem_of_In].
      * left. by destruct (re_match true RE_JMP js_href).
    + left. by destruct (re_match true RE_JMP js_href).
Qed.

(** ** SimHash of special token sequences *)

(** The fingerprint depends on the signs of the accumulators only. *)
Lemma simhash64_ext (l1 l2 : list jsstring) :
  (forall i : nat, (i < bits)%nat -> (0 <? tally l1 i) = (0 <? tally l2 i)) ->
  simhash64 l1 = simhash64 l2.
Proof.
  intros Hsign. apply Z.bits_inj'. intros j Hj.
  destruct (Z_lt_le_dec j 64) as [Hlt | Hge].
  - rewrite <- (Z2Nat.id j) by done.
    rewrite !simhash64_testbit by (unfold bits; lia).
    apply Hsign. unfold bits. lia.
  - rewrite (bits_of_below_pow2 (simhash64 l1) 64 j (simhash64_range l1) Hge).
    by rewrite (bits_of_below_pow2 (simhash64 l2) 64 j (simhash64_range l2) Hge).
Qed.

Lemma tally_app (l1 l2 : list jsstring) (i : nat) :
  tally (l1 ++ l2) i = tally l1 i + tally l2 i.
Proof. induction l1 as [| t l1 IH]; simpl; lia. Qed.

Lemma tally_repeat (n : nat) (l : list jsstring) (i : nat) :
  tally (concat (replicate n l)) i = Z.of_nat n * tally l i.
Proof.
  induction n as [| n IH]; [done |].
  cbn [replicate concat]. rewrite tally_app, IH. lia.
Qed.

Lemma fnv1a64_testbit_delta (t : jsstring) (i : nat) :
  (0 <? delta (fnv1a64 t) i) = Z.testbit (fnv1a64 t) (Z.of_nat i).
Proof. unfold delta. by destruct (Z.testbit _ _). Qed.

Lemma simhash64_singleton (t : jsstring) : simhash64 [t] = fnv1a64 t.
Proof.
  apply Z.bits_inj'. intros j Hj.
  destruct (Z_lt_le_dec j 64) as [Hlt | Hge].
  - rewrite <- (Z2Nat.id j) by done.
    rewrite simhash64_testbit by (unfold bits; lia).
    cbn [tally foldr]. rewrite Z.add_0_r. apply fnv1a64_testbit_delta.
  - rewrite (bits_of_below_pow2 (simhash64 [t]) 64 j (simhash64_range [t]) Hge).
    by rewrite (bits_of_below_pow2 (fnv1a64 t) 64 j (fnv1a64_range t) Hge).
Qed.

(** The fingerprint of a single token is the hash of the token, and a
    sequence repeated as a whole any number of times has the fingerprint of
    the sequence: the fingerprint follows the relative weights of the
    tokens, not the length of the text. *)
Theorem simhash64_single_and_repeated :
  (forall t : jsstring, simhash64 [t] = fnv1a64 t) /\
  (forall (k : nat) (tokens : list jsstring),
     simhash64 (concat (replicate (S k) tokens)) = simhash64 tokens).
Proof.
  split; [exact simhash64_singleton |].
  intros k tokens. apply simhash64_ext. intros i Hi.
  rewrite tally_repeat.
  destruct (Z.ltb_spec 0 (tally tokens i));
    destruct (Z.ltb_spec 0 (Z.of_nat (S k) * tally tokens i)); try done; nia.
Qed.

Lemma tally_bounds (t : jsstring) (tokens : list jsstring) (i : nat) :
  let m := Z.of_nat (occurrences t tokens) in
  let n := Z.of_nat (length tokens) in
  delta (fnv1a64 t) i * m - (n - m) <= tally tokens i <= delta (fnv1a64 t) i * m + (n - m).
Proof.
  unfold occurrences. induction tokens as [| w tokens IH]; [simpl; lia |].
  rewrite filter_cons. cbn [tally foldr length]. fold (tally tokens i).
  cbv zeta in IH.
  destruct (decide (w = t)) as [-> | Hne]; cbn [length].
  - unfold delta in *. destruct (Z.testbit (fnv1a64 t) (Z.of_nat i)); lia.
  - assert (Hd : -1 <= delta (fnv1a64 w) i <= 1)
      by (unfold delta; destruct (Z.testbit _ _); lia).
    lia.
Qed.

(** A token that makes up more than half of the sequence decides the
    fingerprint alone: it is the hash of that token. *)
Theorem simhash64_majority_token (t : jsstring) (tokens : list jsstring) :
  (length tokens < 2 * occurrences t tokens)%nat ->
  simhash64 tokens = fnv1a64 t.
Proof.
  intros Hmajor.
  rewrite <- (simhash64_singleton t).
  apply simhash64_ext. intros i Hi.
  pose proof (tally_bounds t tokens i) as Hb. cbv zeta in Hb.
  cbn [tally foldr]. rewrite Z.add_0_r.
  unfold delta in *. destruct (Z.testbit (fnv1a64 t) (Z.of_nat i)).
  - destruct (Z.ltb_spec 0 (tally tokens i)); [done | lia].
  - destruct (Z.ltb_spec 0 (tally tokens i)); [lia | done].
Qed.

Lemma simhash64_majority_token_witness :
  simhash64 [js "engine"; js "removed"; js "engine"] = fnv1a64 (js "engine").
Proof.
  apply (simhash64_majority_token (js "engine") [js "engine"; js "removed"; js "engine"]).
  vm_compute. lia.
Defined.

(** ** Hamming distance *)

Lemma length_filter_cover {A : Type} (P Q R : A -> Prop)
    `{!forall x, Decision (P x)} `{!forall x, Decision (Q x)} `{!forall x, Decision (R x)}
    (l : list A) :
  (forall x, P x -> Q x \/ R x) ->
  (length (filter P l) <= length (filter Q l) + length (filter R l))%nat.
Proof.
  intros Hcover. induction l as [| x l IH]; [done |].
  rewrite !filter_cons.
  destruct (decide (P x)) as [Hp | Hp]; destruct (decide (Q x)); destruct (decide (R x));
    cbn [length]; try lia.
  destruct (Hcover x Hp); done.
Qed.

(** On fingerprints the distance [hamming64] returns obeys the triangle
    inequality. *)
Theorem hamming64_triangle (a b c : Z) (fuel : nat) :
  0 <= a < 2 ^ 64 -> 0 <= b < 2 ^ 64 -> 0 <= c < 2 ^ 64 -> (64 <= fuel)%nat ->
  exists x y z : Z,
    hamming64 fuel a b = Some x /\ hamming64 fuel b c = Some y /\
    hamming64 fuel a c = Some z /\ z <= x + y.
Proof.
  intros Ha Hb Hc Hfuel.
  destruct (hamming64_popcount fuel a b Ha Hb Hfuel) as [Hab _].
  destruct (hamming64_popcount fuel b c Hb Hc Hfuel) as [Hbc _].
  destruct (hamming64_popcount fuel a c Ha Hc Hfuel) as [Hac _].
  eexists _, _, _. split_and!; [exact Hab | exact Hbc | exact Hac |].
  rewrite !popcount_lxor_differing_bits by done.
  unfold differing_bits.
  pose proof (length_filter_cover
    (fun i : nat => Z.testbit a (Z.of_nat i) <> Z.testbit c (Z.of_nat i))
    (fun i : nat => Z.testbit a (Z.of_nat i) <> Z.testbit b (Z.of_nat i))
    (fun i : nat => Z.testbit b (Z.of_nat i) <> Z.testbit c (Z.of_nat i))
    (seq 0 bits)) as Hcover.
  assert (Hle : (length (filter (fun i : nat => Z.testbit a (Z.of_nat i) <> Z.testbit c (Z.of_nat i))
                           (seq 0 bits))
                 <= length (filter (fun i : nat => Z.testbit a (Z.of_nat i) <> Z.testbit b (Z.of_nat i))
                              (seq 0 bits))
                    + length (filter (fun i : nat => Z.testbit b (Z.of_nat i) <> Z.testbit c (Z.of_nat i))
                                (seq 0 bits)))%nat).
  { apply Hcover. intros i Hac'.
    destruct (decide (Z.testbit a (Z.of_nat i) = Z.testbit b (Z.of_nat i))) as [Heq | Hne];
      [right; congruence | by left]. }
  lia.
Qed.

Lemma hamming64_triangle_witness :
  exists x y z : Z,
    hamming64 64 (fnv1a64 (js "engine")) (fnv1a64 (js "removed")) = Some x /\
    hamming64 64 (fnv1a64 (js "removed")) (fnv1a64 (js "procedure")) = Some y /\
    hamming64 64 (fnv1a64 (js "engine")) (fnv1a64 (js "procedure")) = Some z /\
    z <= x + y.
Proof.
  apply (hamming64_triangle (fnv1a64 (js "engine")) (fnv1a64 (js "removed"))
                            (fnv1a64 (js "procedure")) 64).
  - apply fnv1a64_range.
  - apply fnv1a64_range.
  - apply fnv1a64_range.
  - lia.
Defined.

Lemma hamming_loop_negative (fuel : nat) (x count : Z) :
  x < 0 -> hamming_loop fuel x count = None.
Proof.
  revert x count. induction fuel as [| fuel IH]; intros x count Hx.
  - simpl. destruct (Z.eqb_spec x 0); [lia | done].
  - simpl. destruct (Z.eqb_spec x 0); [lia |].
    apply IH. apply Z.land_neg. lia.
Qed.

(** When exactly one of the two arguments is negative the loop of
    [hamming64] never ends: [x & (x - 1)] of a negative [x] is negative,
    so [x] never becomes 0. *)
Theorem hamming64_diverges_on_mixed_signs (a b : Z) (fuel : nat) :
  (a < 0 <= b) \/ (b < 0 <= a) -> hamming64 fuel a b = None.
Proof.
  intros Hsigns. unfold hamming64. apply hamming_loop_negative.
  destruct (Z_lt_le_dec (Z.lxor a b) 0) as [Hneg | Hnn]; [done |].
  apply Z.lxor_nonneg in Hnn. lia.
Qed.

Lemma hamming64_diverges_on_mixed_signs_witness : hamming64 1000 (-1) 5 = None.
Proof. apply (hamming64_diverges_on_mixed_signs (-1) 5 1000). left. lia. Defined.

(** ** More on Jaccard similarity *)

Lemma Qdiv_nat_facts (n m : nat) :
  (0 < m)%nat ->
  ((n <= m)%nat -> (0 <= inject_Z (Z.of_nat n) / inject_Z (Z.of_nat m) <= 1)%Q) /\
  ((inject_Z (Z.of_nat n) / inject_Z (Z.of_nat m) == 1)%Q <-> n = m) /\
  ((inject_Z (Z.of_nat n) / inject_Z (Z.of_nat m) == 0)%Q <-> n = O).
Proof.
  intros Hm.
  destruct (Z.of_nat m) as [| p | p] eqn:Hp; [lia | | lia].
  unfold Qdiv, Qinv, Qmult, Qle, Qeq, inject_Z. cbn [Qnum Qden].
  split_and!.
  - intros Hle. lia.
  - lia.
  - lia.
Qed.

Section JaccardMore.
Context {A : Type} `{Countable A}.

Lemma size_intersection_le_union (X Y : gset A) : (size (X ∩ Y) <= size (X ∪ Y))%nat.
Proof.
  apply subseteq_size. intros x [Hx _]%elem_of_intersection.
  apply elem_of_union. by left.
Qed.

Lemma size_intersection_eq_union (X Y : gset A) :
  size (X ∩ Y) = size (X ∪ Y) <-> X = Y.
Proof.
  split.
  - intros Hsize.
    assert (Heq : X ∩ Y = X ∪ Y).
    { apply set_subseteq_size_eq; [| lia].
      intros x [Hx _]%elem_of_intersection. apply elem_of_union. by left. }
    apply set_eq. intros x. split; intros Hx.
    + assert (Hu : x ∈ X ∪ Y) by (apply elem_of_union; by left).
      rewrite <- Heq in Hu. by apply elem_of_intersection in Hu as [_ ?].
    + assert (Hu : x ∈ X ∪ Y) by (apply elem_of_union; by right).
      rewrite <- Heq in Hu. by apply elem_of_intersection in Hu as [? _].
  - intros ->. f_equal. apply set_eq. intros x.
    rewrite elem_of_intersection, elem_of_union. tauto.
Qed.

(** [jaccard] does not depend on the order of its two arguments, lies
    between 0 and 1, is 1 exactly when the two sets have the same elements,
    and is 0 exactly when they have none in common and are not both
    empty. *)
Theorem jaccard_symmetric_bounded (aSet bSet : list A) :
  NoDup aSet -> NoDup bSet ->
  jaccard aSet bSet = jaccard bSet aSet /\
  (0 <= jaccard aSet bSet <= 1)%Q /\
  ((jaccard aSet bSet == 1)%Q <-> (list_to_set aSet : gset A) = list_to_set bSet) /\
  ((jaccard aSet bSet == 0)%Q <->
   (list_to_set aSet ∩ list_to_set bSet : gset A) = ∅ /\
   (list_to_set aSet ∪ list_to_set bSet : gset A) <> ∅).
Proof.
  intros Ha Hb.
  rewrite (jaccard_counts aSet bSet Ha Hb), (jaccard_counts bSet aSet Hb Ha). cbv zeta.
  set (X := list_to_set aSet : gset A). set (Y := list_to_set bSet : gset A).
  assert (Hi : Y ∩ X = X ∩ Y) by (apply set_eq; intros x; rewrite !elem_of_intersection; tauto).
  assert (Hu : Y ∪ X = X ∪ Y) by (apply set_eq; intros x; rewrite !elem_of_union; tauto).
  rewrite Hi, Hu. split; [done |].
  pose proof (size_intersection_le_union X Y) as Hle.
  pose proof (size_intersection_eq_union X Y) as Heq.
  destruct (Z.eqb_spec (Z.of_nat (size (X ∪ Y))) 0) as [Hz | Hnz].
  - assert (Hempty : X ∪ Y = ∅) by (apply leibniz_equiv, size_empty_iff; lia).
    assert (HX : X = ∅).
    { apply set_eq. intros x. split; [intros Hx | by intros ?%not_elem_of_empty].
      rewrite <- Hempty. apply elem_of_union. by left. }
    assert (HY : Y = ∅).
    { apply set_eq. intros x. split; [intros Hx | by intros ?%not_elem_of_empty].
      rewrite <- Hempty. apply elem_of_union. by right. }
    split; [| split].
    + split; unfold Qle; simpl; lia.
    + split; [intros _; by rewrite HX, HY | done].
    + split; [intros Hq; by apply Q_apart_0_1 in Hq | intros [_ Hne]; done].
  - assert (Hpos : (0 < size (X ∪ Y))%nat) by lia.
    destruct (Qdiv_nat_facts (size (X ∩ Y)) (size (X ∪ Y)) Hpos) as (Hrange & Hone & Hzero).
    split; [| split].
    + by apply Hrange.
    + rewrite Hone. exact Heq.
    + rewrite Hzero. split.
      * intros Hz'. split; [by apply leibniz_equiv, size_empty_iff |].
        intros Hempty. rewrite Hempty, size_empty in Hpos. lia.
      * intros [-> _]. apply size_empty.
Qed.

End JaccardMore.

Lemma jaccard_symmetric_bounded_witness :
  jaccard [js "engine"; js "removed"] [js "removed"; js "bolt"]
  = jaccard [js "removed"; js "bolt"] [js "engine"; js "removed"] /\
  (0 <= jaccard [js "engine"; js "removed"] [js "removed"; js "bolt"] <= 1)%Q /\
  ((jaccard [js "engine"; js "removed"] [js "removed"; js "bolt"] == 1)%Q <->
   (list_to_set [js "engine"; js "removed"] : gset jsstring)
   = list_to_set [js "removed"; js "bolt"]) /\
  ((jaccard [js "engine"; js "removed"] [js "removed"; js "bolt"] == 0)%Q <->
   (list_to_set [js "engine"; js "removed"] ∩ list_to_set [js "removed"; js "bolt"]
    : gset jsstring) = ∅ /\
   (list_to_set [js "engine"; js "removed"] ∪ list_to_set [js "removed"; js "bolt"]
    : gset jsstring) <> ∅).
Proof.
  apply (jaccard_symmetric_bounded [js "engine"; js "removed"] [js "removed"; js "bolt"]).
  - apply (bool_decide_unpack _). vm_compute. exact I.
  - apply (bool_decide_unpack _). vm_compute. exact I.
Defined.

(** ** Ties in text length *)

Lemma head_first_longest_insert (acc scanned : list candidate) (x : candidate) :
  head_first_longest acc scanned ->
  head_first_longest (sort_insert by_textLen_desc x acc) (scanned ++ [x]).
Proof.
  destruct acc as [| h acc]; simpl.
  - intros ->. exists [], []. split_and!; [done | constructor | constructor].
  - intros (pre & post & -> & Hpre & Hpost). unfold by_textLen_desc.
    destruct (Z.ltb_spec (textLen h - textLen x) 0) as [Hlt | Hge]; simpl.
    + exists (pre ++ h :: post), []. split_and!; [done | | constructor].
      apply Forall_app. split; [| constructor].
      * eapply Forall_impl; [exact Hpre |]. simpl. lia.
      * lia.
      * eapply Forall_impl; [exact Hpost |]. simpl. lia.
    + exists pre, (post ++ [x]). split_and!; [by rewrite <- app_assoc | done |].
      apply Forall_app. split; [done |]. constructor; [lia | constructor].
Qed.

Lemma head_first_longest_fold (l acc scanned : list candidate) :
  head_first_longest acc scanned ->
  head_first_longest (fold_left (fun acc x => sort_insert by_textLen_desc x acc) l acc)
                     (scanned ++ l).
Proof.
  revert acc scanned. induction l as [| x l IH]; intros acc scanned Hinv; simpl.
  - by rewrite app_nil_r.
  - replace (scanned ++ x :: l) with ((scanned ++ [x]) ++ l) by by rewrite <- app_assoc.
    apply IH. by apply head_first_longest_insert.
Qed.

(** Among members of the same greatest text length the canonical page is
    the one that was scanned first: the members before it in the group are
    strictly shorter and the members after it are not longer. *)
Theorem canonical_is_first_longest (arr : list candidate) :
  match Array_sort by_textLen_desc arr with
  | [] => arr = []
  | canonical :: _ => first_longest canonical arr
  end.
Proof.
  change (head_first_longest (Array_sort by_textLen_desc arr) ([] ++ arr)).
  unfold Array_sort. by apply head_first_longest_fold.
Qed.

(** Two pages of the same length: the one scanned first is canonical. *)
Example canonical_tie :
  forall a b : candidate,
    textLen a = textLen b -> Array_sort by_textLen_desc [a; b] = [a; b].
Proof.
  intros a b Heq. unfold Array_sort, by_textLen_desc. simpl.
  rewrite Heq, Z.sub_diag. done.
Qed.

(** ** The groups are a partition of the candidates *)

Lemma push_group_members (k : jsstring) (c : candidate) (m : list (jsstring * list candidate)) :
  flat_map snd (push_group k c m) ≡ₚ flat_map snd m ++ [c].
Proof.
  induction m as [| [k' arr] m IH]; [done |].
  cbn [push_group]. destruct (decide (k' = k)) as [-> | Hne]; cbn [flat_map snd].
  - rewrite <- !app_assoc. apply Permutation_app_head, Permutation_app_comm.
  - rewrite IH. by rewrite app_assoc.
Qed.

Lemma groupByTitle_members (candidates : list candidate) :
  flat_map snd (groupByTitle candidates) ≡ₚ candidates.
Proof.
  unfold groupByTitle.
  assert (Hgen : forall m,
            flat_map snd (fold_left (fun m c => push_group (strictTitle c) c m) candidates m)
            ≡ₚ flat_map snd m ++ candidates).
  { induction candidates as [| c cs IH]; intros m; simpl.
    - by rewrite app_nil_r.
    - rewrite IH, push_group_members. by rewrite <- app_assoc. }
  apply (Hgen []).
Qed.

Lemma push_group_keys_Set_add (k : jsstring) (c : candidate)
    (m : list (jsstring * list candidate)) :
  (push_group k c m).*1 = Set_add m.*1 k.
Proof.
  rewrite push_group_keys. unfold Set_add, Set_has.
  destruct (decide (k ∈ m.*1)) as [Hin | Hnin].
  - by rewrite bool_decide_eq_true_2.
  - by rewrite bool_decide_eq_false_2.
Qed.

Lemma groupByTitle_keys (candidates : list candidate) :
  (groupByTitle candidates).*1 = Set_new (map strictTitle candidates).
Proof.
  unfold groupByTitle, Set_new.
  assert (Hgen : forall m,
            (fold_left (fun m c => push_group (strictTitle c) c m) candidates m).*1
            = fold_left Set_add (map strictTitle candidates) m.*1).
  { induction candidates as [| c cs IH]; intros m; simpl; [done |].
    by rewrite IH, push_group_keys_Set_add. }
  apply (Hgen []).
Qed.

(** [byTitle] partitions the candidates: its keys are the distinct strict
    titles in the order of their first occurrence, the array of a title
    holds the candidates of exactly that title in scan order and is never
    empty, and all the arrays together hold every candidate once. *)
Theorem groupByTitle_partition (candidates : list candidate) :
  (groupByTitle candidates).*1 = Set_new (map strictTitle candidates) /\
  NoDup (groupByTitle candidates).*1 /\
  (forall t arr, (t, arr) ∈ groupByTitle candidates ->
     arr <> [] /\ arr = filter (fun c => strictTitle c = t) candidates) /\
  flat_map snd (groupByTitle candidates) ≡ₚ candidates.
Proof.
  destruct (groupByTitle_grouped candidates) as (Hnd & _ & Hgroups).
  split_and!.
  - apply groupByTitle_keys.
  - exact Hnd.
  - intros t arr Hin. destruct (Hgroups t arr Hin). done.
  - apply groupByTitle_members.
Qed.

(** ** The manifest as a whole *)

Lemma filter_ext_in {A : Type} (P Q : A -> Prop)
    `{!forall x, Decision (P x)} `{!forall x, Decision (Q x)} (l : list A) :
  (forall x, x ∈ l -> P x <-> Q x) -> filter P l = filter Q l.
Proof.
  induction l as [| x l IH]; intros Hext; [done |].
  rewrite !filter_cons, IH by (intros y Hy; apply Hext; by right).
  pose proof (Hext x (list_elem_of_here x l)) as Hx.
  destruct (decide (P x)), (decide (Q x)); tauto || done.
Qed.

Section ManifestFacts.
Context `{Runtime}.
Variable written : jsstring -> jsstring.

Lemma group_items_meaningful (t : jsstring) (arr : list candidate) :
  Forall (fun it => isMeaningfulTitle (Nav.title it)) (group_items written t arr).
Proof.
  unfold group_items. destruct (isMeaningfulTitle t) eqn:Ht; [| constructor].
  apply Forall_app. split; apply Forall_forall; intros it Hit;
    apply list_elem_of_In, in_map_iff in Hit as (c & <- & _); simpl; by rewrite Ht.
Qed.

Lemma all_items_meaningful (groups : list (jsstring * list candidate)) :
  Forall (fun it => isMeaningfulTitle (Nav.title it))
         (flat_map (fun g => group_items written g.1 g.2) groups).
Proof.
  induction groups as [| g groups IH]; [constructor |].
  cbn [flat_map]. apply Forall_app. split; [apply group_items_meaningful | done].
Qed.

Lemma group_items_keys (t : jsstring) (arr : list candidate) :
  isMeaningfulTitle t -> arr <> [] -> Forall (fun c => strictTitle c = t) arr ->
  map nav_key (group_items written t arr) ≡ₚ map candidate_key arr.
Proof.
  intros Ht Hne Harr. unfold group_items. destruct (isMeaningfulTitle t); [| done].
  assert (Hkeep : map (fun c => (t, path c)) (group_keep written arr ++ group_dupes written arr)
                  ≡ₚ map (fun c => (t, path c)) arr)
    by by rewrite split_group_Permutation.
  assert (Hsame : map candidate_key arr = map (fun c => (t, path c)) arr).
  { apply map_ext_in. intros c Hc. rewrite Forall_forall in Harr.
    unfold candidate_key. by rewrite (Harr c) by by apply list_elem_of_In. }
  rewrite Hsame, <- Hkeep.
  rewrite !map_app, !map_map. done.
Qed.

Lemma all_items_keys (groups : list (jsstring * list candidate)) :
  Forall (fun g => isMeaningfulTitle g.1 /\ g.2 <> [] /\ Forall (fun c => strictTitle c = g.1) g.2)
         groups ->
  map nav_key (flat_map (fun g => group_items written g.1 g.2) groups)
  ≡ₚ map candidate_key (flat_map snd groups).
Proof.
  induction 1 as [| [t arr] groups (Ht & Hne & Harr) _ IH]; [done |].
  cbn [flat_map fst snd] in *. rewrite !map_app, IH.
  by rewrite group_items_keys.
Qed.

End ManifestFacts.

Section GroupsOfCollect.
Context `{Runtime}.

(** The groups made of the candidates of pass 2. *)
Lemma groups_of_collect (pages : list page) :
  Forall (fun g => isMeaningfulTitle g.1 /\ g.2 <> [] /\
                   Forall (fun c => strictTitle c = g.1) g.2 /\
                   Forall wf_candidate g.2 /\
                   Forall (fun c => c ∈ collect pages) g.2)
         (groupByTitle (collect pages)).
Proof.
  destruct (groupByTitle_grouped (collect pages)) as (_ & _ & Hgroups).
  pose proof (collect_wf pages) as Hwf. pose proof (collect_meaningful pages) as Hmean.
  rewrite Forall_forall in Hwf, Hmean.
  apply Forall_forall. intros [t arr] Hin. cbn [fst snd].
  destruct (Hgroups t arr Hin) as [Harr Hne].
  assert (Hmem : forall c, c ∈ arr -> strictTitle c = t /\ c ∈ collect pages).
  { intros c Hc. rewrite Harr in Hc. by apply list_elem_of_filter in Hc. }
  split_and!.
  - destruct arr as [| c arr']; [done |].
    destruct (Hmem c (list_elem_of_here _ _)) as [<- Hc]. by apply Hmean.
  - done.
  - apply Forall_forall. intros c Hc. by apply Hmem.
  - apply Forall_forall. intros c Hc. apply Hwf. by apply Hmem.
  - apply Forall_forall. intros c Hc. by apply Hmem.
Qed.

(** The manifest has exactly one entry for every candidate of pass 2,
    under the candidate's strict title and with its path, and nothing
    else; every title in it is a meaningful one. No eligible page is lost
    and none is invented, whatever the classification decides. *)
Theorem manifest_lists_every_candidate_once (written : jsstring -> jsstring)
    (fuel : nat) (pages : list page) :
  (64 <= fuel)%nat ->
  exists out : output,
    dedupe written fuel (collect pages) = Some out /\
    map nav_key (manifest out) ≡ₚ map candidate_key (collect pages) /\
    Forall (fun it => isMeaningfulTitle (Nav.title it)) (manifest out).
Proof.
  intros Hfuel.
  pose proof (dedupe_closed written fuel Hfuel (collect pages) (collect_wf pages)) as Hout.
  eexists. split; [exact Hout |]. cbn [manifest].
  pose proof (all_items_meaningful written (groupByTitle (collect pages))) as Hall.
  split.
  - rewrite (Array_sort_Permutation _ _), filter_all by done.
    rewrite all_items_keys.
    + by rewrite groupByTitle_members.
    + eapply Forall_impl; [apply groups_of_collect |]. by intros g (? & ? & ? & _).
  - apply Forall_forall. intros it Hit. by apply list_elem_of_filter in Hit as [? _].
Qed.

End GroupsOfCollect.

Lemma manifest_lists_every_candidate_once_witness :
  exists out : output,
    dedupe (H := posix_ascii_runtime) (written_from (alpha_pages ++ gamma_pages)) 64
      (collect (alpha_pages ++ gamma_pages)) = Some out /\
    map nav_key (manifest out) ≡ₚ map candidate_key (collect (alpha_pages ++ gamma_pages)) /\
    Forall (fun it => isMeaningfulTitle (Nav.title it)) (manifest out).
Proof.
  apply (manifest_lists_every_candidate_once (H := posix_ascii_runtime)
           (written_from (alpha_pages ++ gamma_pages)) 64 (alpha_pages ++ gamma_pages)).
  lia.
Defined.

(** ** What the classification decides, group by group *)

Lemma is_dup_similar (written : jsstring -> jsstring) (canonical cand : candidate) :
  wf_candidate canonical -> wf_candidate cand ->
  is_dup written canonical cand = similar written canonical cand.
Proof.
  intros Hc Hd. unfold is_dup, verdict, similar.
  rewrite popcount_lxor_differing_bits by done.
  by destruct (_ <=? HAMMING_MAX).
Qed.

Lemma group_keep_head (written : jsstring -> jsstring) (arr : list candidate) :
  arr <> [] ->
  exists canonical keep',
    group_keep written arr = canonical :: keep' /\ first_longest canonical arr /\
    (length arr = 1%nat -> keep' = [] /\ group_dupes written arr = []).
Proof.
  intros Hne. unfold group_keep, group_dupes.
  destruct arr as [| c [| c' arr']]; [done | |].
  - exists c, []. split_and!; [done | | done].
    exists [], []. split_and!; [done | constructor | constructor].
  - destruct (Array_sort_cons (c :: c' :: arr')) as (canonical & rest & Hsort); [done |].
    rewrite (split_group_sorted written _ canonical rest) by (simpl; lia || done).
    eexists _, _. split_and!; [done | | simpl; lia].
    pose proof (head_first_longest_fold (c :: c' :: arr') [] [] eq_refl) as Hhead.
    fold (Array_sort by_textLen_desc (c :: c' :: arr')) in Hhead.
    by rewrite Hsort in Hhead.
Qed.

Lemma Even_length_flat_map {A B : Type} (f : A -> list B) (l : list A) :
  (forall x, Nat.Even (length (f x))) -> Nat.Even (length (flat_map f l)).
Proof.
  intros Hf. induction l as [| x l [k IH]]; [by exists O |].
  cbn [flat_map]. rewrite length_app, IH. destruct (Hf x) as [j ->].
  exists (j + k)%nat. lia.
Qed.

Lemma group_files_spec (written : jsstring -> jsstring) (arr : list candidate) :
  Nat.Even (length (group_files written arr)) /\
  forall f, f ∈ group_files written arr ->
            (1 < length arr)%nat /\ exists c, c ∈ arr /\ f = path c.
Proof.
  unfold group_files.
  destruct arr as [| c [| c' arr']].
  - split; [by exists O | intros f Hf; by eapply not_elem_of_nil in Hf].
  - split; [by exists O | intros f Hf; by eapply not_elem_of_nil in Hf].
  - destruct (Array_sort_cons (c :: c' :: arr')) as (canonical & rest & Hsort); [done |].
    rewrite (split_group_sorted written _ canonical rest) by (simpl; lia || done).
    cbn [snd].
    pose proof (Array_sort_Permutation by_textLen_desc (c :: c' :: arr')) as Hperm.
    rewrite Hsort in Hperm. split.
    + apply Even_length_flat_map. intros x. unfold verdict.
      destruct (_ <=? HAMMING_MAX); [by exists O | by exists 1%nat].
    + intros f Hf. split; [simpl; lia |].
      apply list_elem_of_In, in_flat_map in Hf as (x & Hx & Hf).
      apply list_elem_of_In in Hx, Hf. unfold verdict in Hf.
      destruct (_ <=? HAMMING_MAX); [by eapply not_elem_of_nil in Hf |]. cbn [snd] in Hf.
      apply elem_of_cons in Hf as [-> | Hf].
      * exists canonical. split; [| done]. rewrite <- Hperm. left.
      * apply list_elem_of_singleton in Hf as ->.
        exists x. split; [| done]. rewrite <- Hperm. by right.
Qed.

Lemma report_titles_sublist `{Runtime} (written : jsstring -> jsstring)
    (groups : list (jsstring * list candidate)) :
  map Report.title (flat_map (fun g => group_report written g.1 g.2) groups)
  `sublist_of` groups.*1.
Proof.
  induction groups as [| [t arr] groups IH]; [done |].
  cbn [flat_map fst snd]. rewrite fmap_cons. cbn [fst].
  unfold group_report at 1. destruct (truthy_length _); cbn [app map Report.title].
  - by apply sublist_skip.
  - by apply sublist_cons.
Qed.

Section GroupDecisions.
Context `{Runtime}.
Variable written : jsstring -> jsstring.
Variable fuel : nat.
Variable pages : list page.
Hypothesis enough_fuel : (64 <= fuel)%nat.

Lemma dedupe_of_collect :
  dedupe written fuel (collect pages) =
  Some {| manifest :=
            filter (fun it => isMeaningfulTitle (Nav.title it))
              (Array_sort (fun a b => localeCompare (Nav.title a) (Nav.title b))
                 (flat_map (fun g => group_items written g.1 g.2)
                    (groupByTitle (collect pages))));
          report := flat_map (fun g => group_report written g.1 g.2)
                      (groupByTitle (collect pages));
          files_read := flat_map (fun g => group_files written g.2)
                          (groupByTitle (collect pages)) |}.
Proof. apply dedupe_closed; [done | apply collect_wf]. Qed.

Lemma entries_of_group (out : output) (t : jsstring) (arr : list candidate) :
  dedupe written fuel (collect pages) = Some out ->
  (t, arr) ∈ groupByTitle (collect pages) ->
  entries_of t (manifest out)
  ≡ₚ map (nav_of t false) (group_keep written arr)
     ++ map (nav_of t true) (group_dupes written arr).
Proof.
  intros Hout Hin.
  by destruct (manifest_entries written fuel enough_fuel (collect pages) out t arr
                 (collect_wf pages) (collect_meaningful pages) Hout Hin).
Qed.

Lemma group_of_collect (t : jsstring) (arr : list candidate) :
  (t, arr) ∈ groupByTitle (collect pages) ->
  arr <> [] /\ Forall wf_candidate arr /\ Forall (fun c => c ∈ collect pages) arr.
Proof.
  intros Hin. pose proof (groups_of_collect pages) as Hall.
  rewrite Forall_forall in Hall. by destruct (Hall _ Hin) as (_ & ? & _ & ? & ?).
Qed.

End GroupDecisions.

Section DecisionClaims.
Context `{Runtime}.

(** Every title keeps an entry that is not flagged: the second pass ends,
    and in each title group the first of the longest members has a
    manifest entry with the duplicate flag off. A title that only one page
    carries has that single entry, not flagged, and no report record. So
    hiding the duplicates never hides a title. *)
Theorem canonical_entry_is_never_flagged (written : jsstring -> jsstring) (fuel : nat)
    (pages : list page) :
  (64 <= fuel)%nat ->
  exists out : output,
    dedupe written fuel (collect pages) = Some out /\
    forall (t : jsstring) (arr : list candidate),
      (t, arr) ∈ groupByTitle (collect pages) ->
      exists canonical : candidate,
        first_longest canonical arr /\
        nav_of t false canonical ∈ manifest out /\
        (length arr = 1%nat ->
         entries_of t (manifest out) = [nav_of t false canonical] /\
         forall r, r ∈ report out -> Report.title r <> t).
Proof.
  intros Hfuel. pose proof (dedupe_of_collect written fuel pages Hfuel) as Hout.
  match type of Hout with _ = Some ?o => set (out := o) in * end.
  assert (Hreport : report out = flat_map (fun g => group_report written g.1 g.2)
                                   (groupByTitle (collect pages))) by reflexivity.
  clearbody out. exists out. split; [exact Hout |].
  intros t arr Hin.
  destruct (group_of_collect pages t arr Hin) as (Hne & _ & _).
  destruct (group_keep_head written arr Hne) as (canonical & keep' & Hkeep & Hfirst & Hone).
  pose proof (entries_of_group written fuel pages Hfuel out t arr Hout Hin) as Hentries.
  rewrite Hkeep in Hentries.
  exists canonical. split_and!; [done | |].
  - assert (Hc : nav_of t false canonical ∈ entries_of t (manifest out))
      by (rewrite Hentries; left).
    by apply list_elem_of_filter in Hc as [_ ?].
  - intros Hlen. destruct (Hone Hlen) as [-> Hdupes]. rewrite Hdupes in Hentries.
    split; [by apply Permutation_singleton_r in Hentries |].
    intros r Hr Htitle. rewrite Hreport in Hr.
    apply list_elem_of_In, in_flat_map in Hr as ([t2 arr2] & Hg & Hr).
    apply list_elem_of_In in Hg, Hr. cbn [fst snd] in Hr.
    pose proof (group_report_titles written t2 arr2) as Htitles.
    rewrite Forall_forall in Htitles. specialize (Htitles r Hr).
    assert (t2 = t) as -> by congruence.
    destruct (groupByTitle_grouped (collect pages)) as (_ & _ & Hgroups).
    destruct (Hgroups t arr Hin) as [Harr _]. destruct (Hgroups t arr2 Hg) as [Harr2 _].
    assert (arr2 = arr) as -> by congruence.
    unfold group_report in Hr. rewrite Hdupes in Hr. by eapply not_elem_of_nil in Hr.
Qed.

(** Star topology with thresholds: in a group of several members, sorted
    longest first, a member other than the canonical is flagged exactly
    when it is similar to the canonical, that is when the two fingerprints
    differ in at most 3 bit positions or the token sets read back for the
    two pages have a Jaccard similarity of at least 0.98. The other members
    of the group play no part in the decision. *)
Theorem member_flagged_iff_similar_to_canonical (written : jsstring -> jsstring)
    (fuel : nat) (pages : list page) :
  (64 <= fuel)%nat ->
  exists out : output,
    dedupe written fuel (collect pages) = Some out /\
    forall (t : jsstring) (arr : list candidate) (canonical : candidate)
           (rest : list candidate),
      (t, arr) ∈ groupByTitle (collect pages) ->
      (1 < length arr)%nat ->
      Array_sort by_textLen_desc arr = canonical :: rest ->
      flagged true (entries_of t (manifest out))
      ≡ₚ map (nav_of t true) (filter (fun c => similar written canonical c) rest) /\
      flagged false (entries_of t (manifest out))
      ≡ₚ map (nav_of t false)
           (canonical :: filter (fun c => ¬ similar written canonical c) rest).
Proof.
  intros Hfuel. pose proof (dedupe_of_collect written fuel pages Hfuel) as Hout.
  eexists. split; [exact Hout |].
  intros t arr canonical rest Hin Hlen Hsort.
  pose proof (entries_of_group written fuel pages Hfuel _ t arr Hout Hin) as Hentries.
  destruct (group_of_collect pages t arr Hin) as (Hne & Hwf & _).
  assert (Hwf' : Forall wf_candidate (canonical :: rest)).
  { rewrite <- Hsort. by rewrite Array_sort_Permutation. }
  apply Forall_cons in Hwf' as [Hcan Hrest]. rewrite Forall_forall in Hrest.
  unfold group_keep, group_dupes in Hentries.
  rewrite (split_group_sorted written arr canonical rest Hlen Hsort) in Hentries.
  cbn [fst snd] in Hentries.
  rewrite (filter_ext_in (fun c => ¬ is_dup written canonical c)
             (fun c => ¬ similar written canonical c) rest) in Hentries
    by (intros c Hc; by rewrite is_dup_similar by auto).
  rewrite (filter_ext_in (fun c => Is_true (is_dup written canonical c))
             (fun c => Is_true (similar written canonical c)) rest) in Hentries
    by (intros c Hc; by rewrite is_dup_similar by auto).
  split.
  - rewrite (flagged_Permutation _ _ _ Hentries). unfold flagged at 1. rewrite filter_app.
    fold (flagged true (map (nav_of t false)
            (canonical :: filter (fun c => ¬ similar written canonical c) rest))).
    fold (flagged true (map (nav_of t true)
            (filter (fun c => similar written canonical c) rest))).
    by rewrite flagged_nav_of_same, (flagged_nav_of_other t false).
  - rewrite (flagged_Permutation _ _ _ Hentries). unfold flagged at 1. rewrite filter_app.
    fold (flagged false (map (nav_of t false)
            (canonical :: filter (fun c => ¬ similar written canonical c) rest))).
    fold (flagged false (map (nav_of t true)
            (filter (fun c => similar written canonical c) rest))).
    by rewrite flagged_nav_of_same, (flagged_nav_of_other t true), app_nil_r.
Qed.

(** The second pass reads back only pages it has a candidate for, and only
    pages that share their title with another page; the files are read in
    pairs, canonical then member. *)
Theorem files_read_are_candidates_of_shared_titles (written : jsstring -> jsstring)
    (fuel : nat) (pages : list page) :
  (64 <= fuel)%nat ->
  exists out : output,
    dedupe written fuel (collect pages) = Some out /\
    Nat.Even (length (files_read out)) /\
    forall f : jsstring,
      f ∈ files_read out ->
      exists (c : candidate) (t : jsstring) (arr : list candidate),
        f = path c /\ c ∈ collect pages /\
        (t, arr) ∈ groupByTitle (collect pages) /\ c ∈ arr /\ (1 < length arr)%nat.
Proof.
  intros Hfuel. pose proof (dedupe_of_collect written fuel pages Hfuel) as Hout.
  eexists. split; [exact Hout |]. cbn [files_read]. split.
  - apply Even_length_flat_map. intros g. apply group_files_spec.
  - intros f Hf. apply list_elem_of_In, in_flat_map in Hf as ([t arr] & Hg & Hf).
    apply list_elem_of_In in Hg, Hf. cbn [snd] in Hf.
    destruct (group_files_spec written arr) as [_ Hfiles].
    destruct (Hfiles f Hf) as (Hlen & c & Hc & ->).
    destruct (group_of_collect pages t arr Hg) as (_ & _ & Hmem).
    rewrite Forall_forall in Hmem.
    exists c, t, arr. split_and!; [done | by apply Hmem | done | done | done].
Qed.

(** The report has at most one record per title; a record is written for a
    group of several members only, lists at least one duplicate, starts its
    [kept] list with the path of the canonical page (the first of the
    longest members), and its [kept] and [duplicates] lists together hold
    the paths of the group, each member once. *)
Theorem report_records_shape (written : jsstring -> jsstring) (fuel : nat)
    (pages : list page) :
  (64 <= fuel)%nat ->
  exists out : output,
    dedupe written fuel (collect pages) = Some out /\
    NoDup (map Report.title (report out)) /\
    forall r : Report.record,
      r ∈ report out ->
      exists (arr : list candidate) (canonical : candidate) (others : list jsstring),
        (Report.title r, arr) ∈ groupByTitle (collect pages) /\
        (1 < length arr)%nat /\
        first_longest canonical arr /\
        Report.kept r = path canonical :: others /\
        Report.duplicates r <> [] /\
        Report.kept r ++ Report.duplicates r ≡ₚ map path arr.
Proof.
  intros Hfuel. pose proof (dedupe_of_collect written fuel pages Hfuel) as Hout.
  eexists. split; [exact Hout |]. cbn [report].
  destruct (groupByTitle_grouped (collect pages)) as (Hnd & _ & _).
  split.
  - eapply sublist_NoDup; [exact Hnd | apply report_titles_sublist].
  - intros r Hr. apply list_elem_of_In, in_flat_map in Hr as ([t arr] & Hg & Hr).
    apply list_elem_of_In in Hg, Hr. cbn [fst snd] in Hr.
    destruct (group_of_collect pages t arr Hg) as (Hne & _ & _).
    destruct (group_keep_head written arr Hne) as (canonical & keep' & Hkeep & Hfirst & Hone).
    pose proof (split_group_Permutation written arr Hne) as Hsplit.
    unfold group_report in Hr.
    destruct (group_dupes written arr) as [| d ds] eqn:Hdupes;
      [by eapply not_elem_of_nil in Hr |].
    apply list_elem_of_singleton in Hr as ->.
    cbn [Report.title Report.kept Report.duplicates].
    exists arr, canonical, (map path keep'). split_and!; [done | | done | | done |].
    + destruct arr as [| c [| c' arr']]; [done | | simpl; lia].
      by destruct (Hone eq_refl) as [_ ?].
    + by rewrite Hkeep.
    + by rewrite <- map_app, Hsplit.
Qed.

End DecisionClaims.

Lemma canonical_entry_is_never_flagged_witness :
  exists out : output,
    dedupe (H := posix_ascii_runtime) (written_from (alpha_pages ++ gamma_pages)) 64
      (collect (alpha_pages ++ gamma_pages)) = Some out /\
    forall (t : jsstring) (arr : list candidate),
      (t, arr) ∈ groupByTitle (collect (alpha_pages ++ gamma_pages)) ->
      exists canonical : candidate,
        first_longest canonical arr /\
        nav_of t false canonical ∈ manifest out /\
        (length arr = 1%nat ->
         entries_of t (manifest out) = [nav_of t false canonical] /\
         forall r, r ∈ report out -> Report.title r <> t).
Proof.
  apply (canonical_entry_is_never_flagged (H := posix_ascii_runtime)
           (written_from (alpha_pages ++ gamma_pages)) 64 (alpha_pages ++ gamma_pages)).
  lia.
Defined.

Lemma member_flagged_iff_similar_to_canonical_witness :
  exists out : output,
    dedupe (H := posix_ascii_runtime) (written_from (alpha_pages ++ beta_pages)) 64
      (collect (alpha_pages ++ beta_pages)) = Some out /\
    forall (t : jsstring) (arr : list candidate) (canonical : candidate)
           (rest : list candidate),
      (t, arr) ∈ groupByTitle (collect (alpha_pages ++ beta_pages)) ->
      (1 < length arr)%nat ->
      Array_sort by_textLen_desc arr = canonical :: rest ->
      flagged true (entries_of t (manifest out))
      ≡ₚ map (nav_of t true)
           (filter (fun c => similar (written_from (alpha_pages ++ beta_pages)) canonical c)
                   rest) /\
      flagged false (entries_of t (manifest out))
      ≡ₚ map (nav_of t false)
           (canonical ::
            filter (fun c => ¬ similar (written_from (alpha_pages ++ beta_pages)) canonical c)
                   rest).
Proof.
  apply (member_flagged_iff_similar_to_canonical (H := posix_ascii_runtime)
           (written_from (alpha_pages ++ beta_pages)) 64 (alpha_pages ++ beta_pages)).
  lia.
Defined.

Lemma files_read_are_candidates_of_shared_titles_witness :
  exists out : output,
    dedupe (H := posix_ascii_runtime) (written_from gamma_pages) 64 (collect gamma_pages)
    = Some out /\
    Nat.Even (length (files_read out)) /\
    forall f : jsstring,
      f ∈ files_read out ->
      exists (c : candidate) (t : jsstring) (arr : list candidate),
        f = path c /\ c ∈ collect gamma_pages /\
        (t, arr) ∈ groupByTitle (collect gamma_pages) /\ c ∈ arr /\ (1 < length arr)%nat.
Proof.
  apply (files_read_are_candidates_of_shared_titles (H := posix_ascii_runtime)
           (written_from gamma_pages) 64 gamma_pages).
  lia.
Defined.

Lemma report_records_shape_witness :
  exists out : output,
    dedupe (H := posix_ascii_runtime) (written_from (alpha_pages ++ beta_pages)) 64
      (collect (alpha_pages ++ beta_pages)) = Some out /\
    NoDup (map Report.title (report out)) /\
    forall r : Report.record,
      r ∈ report out ->
      exists (arr : list candidate) (canonical : candidate) (others : list jsstring),
        (Report.title r, arr) ∈ groupByTitle (collect (alpha_pages ++ beta_pages)) /\
        (1 < length arr)%nat /\
        first_longest canonical arr /\
        Report.kept r = path canonical :: others /\
        Report.duplicates r <> [] /\
        Report.kept r ++ Report.duplicates r ≡ₚ map path arr.
Proof.
  apply (report_records_shape (H := posix_ascii_runtime)
           (written_from (alpha_pages ++ beta_pages)) 64 (alpha_pages ++ beta_pages)).
  lia.
Defined.

(** ** Splitting and joining *)

Lemma split_not_nil (sep : Z) (s : jsstring) : split sep s <> [].
Proof.
  destruct s as [| c s]; simpl; [done |].
  destruct (c =? sep); [done |]. by destruct (split sep s).
Qed.

Lemma split_app_sep (sep : Z) (a b : jsstring) :
  split sep (a ++ sep :: b) = split sep a ++ split sep b.
Proof.
  induction a as [| c a IH]; simpl.
  - by rewrite Z.eqb_refl.
  - destruct (c =? sep); [by rewrite IH |].
    rewrite IH. pose proof (split_not_nil sep a) as Hne.
    by destruct (split sep a).
Qed.

Lemma split_no_sep (sep : Z) (s : jsstring) :
  Forall (fun w => sep ∉ w) (split sep s).
Proof.
  induction s as [| c s IH]; simpl.
  - constructor; [apply not_elem_of_nil | constructor].
  - destruct (Z.eqb_spec c sep) as [-> | Hne].
    + constructor; [apply not_elem_of_nil | done].
    + destruct (split sep s) as [| w ws]; [repeat constructor |].
      * intros [? | ?%not_elem_of_nil]%elem_of_cons; [congruence | done].
      * apply Forall_cons in IH as [Hw Hws]. constructor; [| done].
        intros [? | ?]%elem_of_cons; [congruence | done].
Qed.

Lemma join_split (sep : Z) (s : jsstring) : join [sep] (split sep s) = s.
Proof.
  induction s as [| c s IH]; [done |].
  simpl. destruct (Z.eqb_spec c sep) as [-> | Hne].
  - pose proof (split_not_nil sep s) as Hne.
    cbn [join]. destruct (split sep s) as [| w ws]; [done |].
    cbn [app]. by rewrite IH.
  - pose proof (split_not_nil sep s) as Hne'.
    destruct (split sep s) as [| w ws]; [done |].
    destruct ws as [| w' ws]; cbn [join] in *; by rewrite <- IH.
Qed.

Lemma join_replace (sep to : Z) (s : jsstring) :
  join [to] (split sep s) = map (fun c => if c =? sep then to else c) s.
Proof.
  induction s as [| c s IH]; [done |].
  simpl. destruct (Z.eqb_spec c sep) as [-> | Hne].
  - pose proof (split_not_nil sep s) as Hne.
    cbn [join]. destruct (split sep s) as [| w ws]; [done |].
    cbn [app]. by rewrite IH.
  - pose proof (split_not_nil sep s) as Hne'.
    destruct (split sep s) as [| w ws]; [done |].
    destruct ws as [| w' ws]; cbn [join] in *; by rewrite <- IH.
Qed.

(** The tokens of a text are longer than two code units and hold no
    space; the tokens of two texts put together with a space between them
    are the tokens of the first followed by the tokens of the second; and
    joining the pieces [split] gives with the separator gives the text
    back. *)
Theorem tokenize_tokens_and_concatenation :
  (forall text : jsstring,
     Forall (fun w => 2 < jslength w /\ SPACE ∉ w) (tokenize text)) /\
  (forall a b : jsstring, tokenize (a ++ SPACE :: b) = tokenize a ++ tokenize b) /\
  (forall text : jsstring, join [SPACE] (split SPACE text) = text).
Proof.
  split_and!.
  - intros text. unfold tokenize. apply Forall_forall. intros w Hw.
    apply list_elem_of_filter in Hw as [Hlen Hw]. split; [done |].
    pose proof (split_no_sep SPACE text) as Hall. rewrite Forall_forall in Hall.
    by apply Hall.
  - intros a b. unfold tokenize. by rewrite split_app_sep, filter_app.
  - intros text. apply join_split.
Qed.

(** [toPosix] replaces every [path.sep] by a slash and changes nothing
    else; where [path.sep] is the slash itself it is the identity. *)
Theorem toPosix_replaces_separators `{Runtime} (p : jsstring) :
  toPosix p = map (fun c => if c =? path_sep then 47 else c) p /\
  length (toPosix p) = length p /\
  (path_sep = 47 -> toPosix p = p).
Proof.
  assert (Hmap : toPosix p = map (fun c => if c =? path_sep then 47 else c) p)
    by apply join_replace.
  split_and!; [done | by rewrite Hmap, length_map |].
  intros Hsep. unfold toPosix. rewrite Hsep. apply join_split.
Qed.

(** ** Which title a page is filed under *)

Lemma trimStart_fixed (s : jsstring) :
  (forall c, head s = Some c -> is_js_space c = false) -> trimStart s = s.
Proof.
  destruct s as [| c s]; [done |]. intros Hhd. simpl. by rewrite (Hhd c eq_refl).
Qed.

Lemma trimEnd_fixed (s : jsstring) :
  (forall c, last s = Some c -> is_js_space c = false) -> trimEnd s = s.
Proof.
  intros Hlast. unfold trimEnd. rewrite trimStart_fixed; [apply rev_involutive |].
  intros c Hc. apply Hlast. rewrite <- Hc.
  rewrite <- (rev_involutive s) at 1.
  destruct (rev s) as [| x l]; [done |]. simpl. by rewrite last_snoc.
Qed.

Lemma trim_idempotent (s : jsstring) : trim (trim s) = trim s.
Proof.
  destruct (trim_spec s) as (_ & _ & _ & _ & _ & Hhd & Hlast).
  unfold trim at 1. rewrite trimStart_fixed by done. by apply trimEnd_fixed.
Qed.

Lemma truthy_false (s : jsstring) : truthy s = false <-> s = [].
Proof. by destruct s. Qed.

(** The strict title of a frameset page is the trimmed text of its title
    element and nothing else. The strict title of a normal page is the
    display title: the trimmed title text when it is not blank, else the
    trimmed text of the first [h1] when that is not blank, else the trimmed
    file name. A normal page therefore has an empty strict title only when
    all three are blank. *)
Theorem strict_title_by_page_kind `{Runtime} (p : page) :
  match kind p with
  | FramesetPage => strictTitle (candidate_of_page p) = trim (title_text (source p))
  | NormalPage =>
      (trim (title_text (source p)) <> [] ->
       strictTitle (candidate_of_page p) = trim (title_text (source p))) /\
      (trim (title_text (source p)) = [] -> trim (h1_text (source p)) <> [] ->
       strictTitle (candidate_of_page p) = trim (h1_text (source p))) /\
      (trim (title_text (source p)) = [] -> trim (h1_text (source p)) = [] ->
       strictTitle (candidate_of_page p) = trim (path_basename (rel p))) /\
      (strictTitle (candidate_of_page p) = [] ->
       trim (title_text (source p)) = [] /\ trim (h1_text (source p)) = [] /\
       trim (path_basename (rel p)) = [])
  end.
Proof.
  unfold candidate_of_page, strict_of_page. cbn [strictTitle].
  destruct (kind p); [done |].
  unfold headTitleStrict, set_title, displayTitle. cbn [title_text].
  destruct (trim (title_text (source p))) as [| c t] eqn:Ht.
  - destruct (trim (h1_text (source p))) as [| d h] eqn:Hh; cbn [truthy].
    + split_and!; [done | done | |].
      * intros _ _. by destruct (path_basename (rel p)).
      * intros Hs. split_and!; [done | done |].
        by destruct (path_basename (rel p)).
    + rewrite <- Hh, trim_idempotent. split_and!; [done | done | by rewrite Hh |].
      rewrite Hh. done.
  - cbn [truthy]. rewrite <- Ht, trim_idempotent. rewrite Ht.
    split_and!; done.
Qed.

(** ** Panes are never candidates *)

Lemma search_suffix (icase : bool) (r : regex) (suffix : jsstring) :
  (forall n, is_Some (rmatch icase r {| consumed := n; rest := suffix; group1 := None |}
                        (fun s' => Some (group1 s')))) ->
  forall (pre : jsstring) (pos : nat), is_Some (search icase r pos (pre ++ suffix)).
Proof.
  intros Hmatch pre. induction pre as [| c pre IH]; intros pos.
  - cbn [app]. destruct (Hmatch pos) as [g Hg].
    destruct suffix; simpl; rewrite Hg; by eexists.
  - cbn [app search].
    destruct (rmatch icase r _ _) as [g |]; [by eexists | apply IH].
Qed.

Lemma RE_PANE_matches_ending (ending : jsstring) (n : nat) :
  ending ∈ PANE_ENDINGS ->
  is_Some (rmatch false RE_PANE {| consumed := n; rest := ending; group1 := None |}
             (fun s' => Some (group1 s'))).
Proof.
  intros Hin. unfold PANE_ENDINGS in Hin.
  repeat (apply elem_of_cons in Hin as [-> | Hin]; [by eexists |]).
  by eapply not_elem_of_nil in Hin.
Qed.

Section Eligibility.
Context `{Runtime}.

Lemma pane_not_included (relPath strictTitle pre ending : jsstring) :
  ending ∈ PANE_ENDINGS -> toLowerCase relPath = pre ++ ending ->
  includeInFlatNav relPath strictTitle = false.
Proof.
  intros Hend Hlower. unfold includeInFlatNav. rewrite Hlower.
  assert (Htest : re_test false RE_PANE (pre ++ ending) = true).
  { unfold re_test, re_match. apply bool_decide_eq_true_2.
    apply search_suffix. intros n. by apply RE_PANE_matches_ending. }
  rewrite Htest. cbn [negb]. by rewrite andb_false_r.
Qed.

(** Every candidate of pass 2 is a page under [en/html/] (whatever the
    letter case of its path) with a meaningful strict title, and no page
    whose lower-cased path ends in [_pr1] or [_pr2] with the extension
    [.html] or [.htm] is a candidate: the panes of a frameset never reach
    the navigation. *)
Theorem candidates_are_eligible_pages (pages : list page) (c : candidate) :
  c ∈ collect pages ->
  startsWith (toLowerCase (path c)) NAV_ROOT_PREFIX = true /\
  isMeaningfulTitle (strictTitle c) = true /\
  isExcludedFromNav (path c) = false /\
  forall pre ending, ending ∈ PANE_ENDINGS -> toLowerCase (path c) <> pre ++ ending.
Proof.
  intros Hc. unfold collect in Hc.
  apply list_elem_of_In, in_map_iff in Hc as (p & <- & Hp).
  apply list_elem_of_In, list_elem_of_filter in Hp as [Hinc _].
  cbn [path strictTitle candidate_of_page].
  assert (Hinc' : includeInFlatNav (rel p) (strict_of_page p) = true)
    by by apply Is_true_true.
  split_and!.
  - unfold includeInFlatNav in Hinc'.
    by apply andb_prop in Hinc' as [[[? _]%andb_prop _]%andb_prop _].
  - unfold includeInFlatNav in Hinc'. by apply andb_prop in Hinc' as [_ ?].
  - unfold includeInFlatNav in Hinc'.
    apply andb_prop in Hinc' as [[_ Hex]%andb_prop _]. by apply negb_true_iff in Hex.
  - intros pre ending Hend Hlower.
    rewrite (pane_not_included _ _ pre ending Hend Hlower) in Hinc'. done.
Qed.

End Eligibility.

Lemma candidates_are_eligible_pages_witness :
  startsWith (toLowerCase (path (candidate_of_page (H := posix_ascii_runtime)
    (normal_page "en/html/a1.html" "Alpha Title" "engine removed")))) NAV_ROOT_PREFIX = true /\
  isMeaningfulTitle (strictTitle (candidate_of_page (H := posix_ascii_runtime)
    (normal_page "en/html/a1.html" "Alpha Title" "engine removed"))) = true /\
  isExcludedFromNav (path (candidate_of_page (H := posix_ascii_runtime)
    (normal_page "en/html/a1.html" "Alpha Title" "engine removed"))) = false /\
  forall pre ending, ending ∈ PANE_ENDINGS ->
    toLowerCase (path (candidate_of_page (H := posix_ascii_runtime)
      (normal_page "en/html/a1.html" "Alpha Title" "engine removed"))) <> pre ++ ending.
Proof.
  apply (candidates_are_eligible_pages (H := posix_ascii_runtime) alpha_pages).
  apply (bool_decide_unpack _). vm_compute. exact I.
Defined.

(** A pane next to its frameset: only the frameset page is a candidate. *)
Example pane_is_skipped :
  map path (collect (H := posix_ascii_runtime)
    [normal_page "en/html/S01_PR1.HTML" "Engine Removal" "remove the engine";
     frameset_page "en/html/S01.HTML" "Engine Removal" "remove the engine"])
  = [js "en/html/S01.HTML"].
Proof. by vm_compute. Qed.

(** ** The comparison text *)

Lemma replace_runs_Forall (P : Z -> Prop) (cls : Z -> bool) (s : jsstring) :
  P SPACE -> (forall c, c ∈ s -> cls c = false -> P c) ->
  forall b, Forall P (replace_runs cls b s).
Proof.
  intros Hsp. induction s as [| c s IH]; intros Hin b; simpl; [constructor |].
  assert (Hs : forall b', Forall P (replace_runs cls b' s)).
  { apply IH. intros x Hx. apply Hin. by right. }
  destruct (cls c) eqn:Hc.
  - destruct b; [apply Hs | constructor; [done | apply Hs]].
  - constructor; [apply Hin; [left | done] | apply Hs].
Qed.

Lemma replace_runs_no_adjacent (s : jsstring) (b : bool) :
  no_adjacent_space b (replace_runs is_js_space b s) = true.
Proof.
  revert b. induction s as [| c s IH]; intros b; simpl; [done |].
  destruct (is_js_space c) eqn:Hc.
  - destruct b; [apply IH |]. simpl. apply IH.
  - simpl. rewrite Hc. apply IH.
Qed.

Lemma replace_non_word_Forall `{Runtime} (P : Z -> Prop) :
  P SPACE ->
  forall s : jsstring,
    (forall c, c ∈ s -> is_surrogate c = true \/ is_word_or_space c = true -> P c) ->
    Forall P (replace_non_word s).
Proof.
  intros Hsp s.
  enough (Hboth : (forall c, c ∈ s ->
                     is_surrogate c = true \/ is_word_or_space c = true -> P c) ->
                  Forall P (replace_non_word s) /\
                  forall hi, (is_surrogate hi = true \/ is_word_or_space hi = true -> P hi) ->
                             Forall P (replace_non_word (hi :: s)))
    by (intros Hin; by apply Hboth).
  induction s as [| lo s IH]; intros Hin.
  - split; [constructor |]. intros hi Hhi. simpl.
    destruct (is_word_or_space hi) eqn:Hw; repeat constructor; auto.
  - assert (Hs : forall c, c ∈ s ->
                   is_surrogate c = true \/ is_word_or_space c = true -> P c).
    { intros c Hc. apply Hin. by right. }
    destruct (IH Hs) as [IHs IHcons].
    assert (Hlo : is_surrogate lo = true \/ is_word_or_space lo = true -> P lo).
    { apply Hin. by left. }
    split; [by apply IHcons |].
    intros hi Hhi. cbn [replace_non_word].
    destruct ((55296 <=? hi) && (hi <=? 56319) && (56320 <=? lo) && (lo <=? 57343))
      eqn:Hpair.
    + destruct (is_word_or_space (65536 + (hi - 55296) * 1024 + (lo - 56320)));
        [| by constructor].
      apply andb_prop in Hpair as [[[H1 H2]%andb_prop H3]%andb_prop H4].
      constructor; [| constructor; [| done]].
      * apply Hhi. left. unfold is_surrogate. apply andb_true_intro. split; lia.
      * apply Hlo. left. unfold is_surrogate. apply andb_true_intro. split; lia.
    + constructor; [| by apply IHcons].
      destruct (is_word_or_space hi) eqn:Hw; auto.
Qed.

Lemma no_adjacent_space_weaken (s : jsstring) (b : bool) :
  no_adjacent_space b s = true -> no_adjacent_space false s = true.
Proof.
  destruct s as [| c s]; [done |]. simpl.
  destruct (is_js_space c); [| done]. by destruct b.
Qed.

Lemma no_adjacent_space_app (x y : jsstring) (b : bool) :
  no_adjacent_space b (x ++ y) = true ->
  no_adjacent_space b x = true /\ no_adjacent_space false y = true.
Proof.
  revert b. induction x as [| c x IH]; intros b; simpl.
  - intros Hy. split; [done | by eapply no_adjacent_space_weaken].
  - destruct (is_js_space c).
    + intros [Hb Hxy]%andb_prop. destruct (IH _ Hxy) as [Hx Hy].
      by rewrite Hb, Hx.
    + apply IH.
Qed.

Lemma last_cons_cons {A : Type} (a b : A) (l : list A) :
  last (a :: b :: l) = last (b :: l).
Proof. done. Qed.

Lemma separated_intro (s : jsstring) :
  Forall (fun c => is_js_space c = true -> c = SPACE) s ->
  (forall c, last s = Some c -> is_js_space c = false) ->
  forall b, no_adjacent_space b s = true -> (b = true -> s <> []) ->
  separated b s = true.
Proof.
  induction s as [| c s IH]; intros Hall Hlast b Hadj Hne.
  - simpl. destruct b; [by destruct Hne | done].
  - apply Forall_cons in Hall as [Hc Hall]. simpl in Hadj |- *.
    destruct (Z.eqb_spec c SPACE) as [-> | Hns].
    + change (is_js_space SPACE) with true in Hadj.
      apply andb_prop in Hadj as [Hb Hadj]. rewrite Hb. simpl.
      destruct s as [| d s].
      * by specialize (Hlast SPACE eq_refl).
      * apply IH; [done | | done | done].
        intros x Hx. apply Hlast. by rewrite last_cons_cons.
    + destruct (is_js_space c) eqn:Hsp; [by specialize (Hc eq_refl) |].
      apply IH; [done | | done | done].
      intros x Hx. apply Hlast. destruct s as [| d s]; [done |].
      by rewrite last_cons_cons.
Qed.

Lemma split_separated (s : jsstring) :
  (separated true s = true -> Forall (fun w => w <> []) (split SPACE s)) /\
  (separated false s = true -> Forall (fun w => w <> []) (tail (split SPACE s))).
Proof.
  induction s as [| c s [IHt IHf]]; simpl.
  - split; [done | constructor].
  - destruct (c =? SPACE); simpl.
    + split; [done | exact IHt].
    + pose proof (split_not_nil SPACE s) as Hne.
      destruct (split SPACE s) as [| w ws]; [done |]. simpl in IHf.
      split; intros Hs; [constructor; [done | by apply IHf] | by apply IHf].
Qed.

Lemma split_units (sep : Z) (s w : jsstring) (c : Z) :
  w ∈ split sep s -> c ∈ w -> c ∈ s.
Proof.
  revert w. induction s as [| x s IH]; intros w; simpl.
  - intros ->%list_elem_of_singleton. by intros ?%not_elem_of_nil.
  - destruct (x =? sep).
    + intros [-> | Hw]%elem_of_cons Hc; [by apply not_elem_of_nil in Hc |].
      right. by eapply IH.
    + pose proof (split_not_nil sep s) as Hne.
      destruct (split sep s) as [| w0 ws]; [done |].
      intros [-> | Hw]%elem_of_cons Hc.
      * apply elem_of_cons in Hc as [-> | Hc]; [by left |].
        right. apply (IH w0); [by left | done].
      * right. apply (IH w); [by right | done].
Qed.

Section CompareTextFacts.
Context `{Runtime}.

Lemma normalized_units (bodyText : jsstring) :
  Forall (fun c => is_control c = false /\
                   (c = SPACE \/
                    is_js_space c = false /\
                    (is_surrogate c = true \/ isLetterOrNumber c = true)))
         (replace_runs is_js_space false
            (replace_non_word (replace_runs is_control false (toLowerCase bodyText)))).
Proof.
  set (s1 := replace_runs is_control false (toLowerCase bodyText)).
  assert (H1 : Forall (fun c => is_control c = false) s1)
    by (apply replace_runs_Forall; done).
  set (s2 := replace_non_word s1).
  assert (H2 : Forall (fun c => is_control c = false /\
                                (c = SPACE \/ is_surrogate c = true \/
                                 isLetterOrNumber c = true \/ is_js_space c = true)) s2).
  { apply replace_non_word_Forall; [split; [done | by left] |].
    intros c Hc Hkind. rewrite Forall_forall in H1. split; [by apply H1 |].
    right. destruct Hkind as [? | Hw]; [by left |].
    right. by apply orb_prop in Hw. }
  apply replace_runs_Forall; [split; [done | by left] |].
  intros c Hc Hsp. rewrite Forall_forall in H2.
  destruct (H2 c Hc) as [Hctl Hkind]. split; [done |].
  destruct Hkind as [-> | [? | [? | ?]]]; [done | right | right | congruence]; auto.
Qed.

(** The comparison text has no white space at its two ends, and it is
    either empty or a sequence of non-empty words with exactly one space
    between two of them: splitting it on a space gives no empty piece. A
    code unit of a word is no white space and no control character, and
    it is a letter or a number unless it is a surrogate. *)
Theorem normalized_text_is_single_spaced_words (bodyText : jsstring) :
  trim (normalizeTextForCompare bodyText) = normalizeTextForCompare bodyText /\
  (normalizeTextForCompare bodyText = [] \/
   Forall (fun w => w <> [] /\ Forall word_unit w)
          (split SPACE (normalizeTextForCompare bodyText))).
Proof.
  split; [apply trim_idempotent |].
  unfold normalizeTextForCompare.
  set (r := replace_runs is_js_space false _).
  pose proof (normalized_units bodyText) as Hunits. fold r in Hunits.
  pose proof (replace_runs_no_adjacent
                (replace_non_word (replace_runs is_control false (toLowerCase bodyText)))
                false) as Hadj. fold r in Hadj.
  destruct (trim_spec r) as (before & after & Hr & _ & _ & Hhd & Hlast).
  destruct (trim r) as [| c n] eqn:Hn; [by left | right].
  rewrite Hr in Hunits, Hadj.
  apply Forall_app in Hunits as [_ [Hunits _]%Forall_app].
  apply no_adjacent_space_app in Hadj as [_ [Hadj _]%no_adjacent_space_app].
  assert (Hsep : separated true (c :: n) = true).
  { apply separated_intro; [| done | | done].
    - eapply Forall_impl; [exact Hunits |]. intros x [_ [-> | [Hx _]]]; [done | congruence].
    - simpl in Hadj |- *. by rewrite (Hhd c eq_refl) in Hadj |- *. }
  apply split_separated in Hsep.
  pose proof (split_no_sep SPACE (c :: n)) as Hnosep.
  rewrite Forall_forall in Hsep, Hnosep. apply Forall_forall. intros w Hw.
  split; [by apply Hsep |]. apply Forall_forall. intros x Hx.
  assert (Hxn : x ∈ c :: n) by (by eapply split_units).
  rewrite Forall_forall in Hunits. destruct (Hunits x Hxn) as [Hctl [-> | [Hsp Hkind]]].
  - by destruct (Hnosep w Hw).
  - done.
Qed.

End CompareTextFacts.

(** Punctuation, line breaks and letter case are gone. *)
Example normalizeTextForCompare_sample :
  normalizeTextForCompare (H := posix_ascii_runtime)
    (js "  Engine (K20A):" ++ [10; 9] ++ js "Removal -- step 42!  ")
  = js "engine k20a removal step 42".
Proof. by vm_compute. Qed.

(** ** Links of the form [javascript:parent.Prt('id')] *)

Lemma canon_not_quote (c : Z) : c <> 39 -> (canon true c =? canon true 39) = false.
Proof.
  intros Hc. apply Z.eqb_neq. unfold canon. simpl.
  destruct ((97 <=? c) && (c <=? 122)) eqn:Hr; [| done].
  apply andb_prop in Hr as [?%Z.leb_le ?%Z.leb_le]. lia.
Qed.

Lemma rmatch_star_step {R : Type} (c : Z) (t : jsstring) (n : nat) (g : option jsstring)
    (k : mstate -> option R) :
  c <> 39 ->
  rmatch true (RStar (RSet true [39])) {| consumed := n; rest := c :: t; group1 := g |} k
  = match rmatch true (RStar (RSet true [39]))
            {| consumed := S n; rest := t; group1 := g |} k with
    | Some x => Some x
    | None => k {| consumed := n; rest := c :: t; group1 := g |}
    end.
Proof.
  intros Hc. cbn [rmatch rest length existsb]. rewrite (canon_not_quote c Hc).
  cbn [orb xorb]. unfold progressed.
  change (advance {| consumed := n; rest := c :: t; group1 := g |})
    with {| consumed := S n; rest := t; group1 := g |}.
  cbn [rest length].
  rewrite (proj2 (Nat.ltb_lt (length t) (S (length t)))) by lia. reflexivity.
Qed.

Lemma rmatch_star_nonquote {R : Type} (id tail : jsstring) (k : mstate -> option R)
    (g : option jsstring) (x : R) :
  39 ∉ id ->
  forall n : nat,
    k {| consumed := n + length id; rest := 39 :: tail; group1 := g |} = Some x ->
    rmatch true (RStar (RSet true [39]))
      {| consumed := n; rest := id ++ 39 :: tail; group1 := g |} k = Some x.
Proof.
  induction id as [| c id IH]; intros Hq n Hk.
  - rewrite Nat.add_0_r in Hk. cbn [app]. exact Hk.
  - apply not_elem_of_cons in Hq as [Hc Hq]. cbn [app].
    rewrite rmatch_star_step by done. rewrite (IH Hq (S n)); [done |].
    rewrite <- Hk. f_equal. f_equal. cbn [length]. lia.
Qed.

Lemma rmatch_group_nonquote {R : Type} (c : Z) (id tail : jsstring) (n : nat)
    (g : option jsstring) (k : mstate -> option R) (x : R) :
  c <> 39 -> 39 ∉ id ->
  k {| consumed := S n + length id; rest := 39 :: tail; group1 := Some (c :: id) |} = Some x ->
  rmatch true (RGroup (RPlus (RSet true [39])))
    {| consumed := n; rest := c :: id ++ 39 :: tail; group1 := g |} k = Some x.
Proof.
  intros Hc Hq Hk. cbn [rmatch RPlus rest existsb]. rewrite (canon_not_quote c Hc).
  cbn [orb xorb].
  change (advance {| consumed := n; rest := c :: id ++ 39 :: tail; group1 := g |})
    with {| consumed := S n; rest := id ++ 39 :: tail; group1 := g |}.
  apply rmatch_star_nonquote; [done |]. cbn [consumed rest].
  rewrite <- Hk. do 3 f_equal.
  replace (Nat.sub (length (c :: id ++ 39 :: tail)) (length (39 :: tail)))
    with (length (c :: id)) by (cbn [length]; rewrite length_app; cbn [length]; lia).
  change (c :: id ++ 39 :: tail) with ((c :: id) ++ 39 :: tail).
  by rewrite take_app_length.
Qed.

Lemma rmatch_RE_PRT (id : jsstring) (n : nat) :
  id <> [] -> 39 ∉ id ->
  rmatch true RE_PRT
    {| consumed := n; rest := js "parent.Prt('" ++ id ++ js "')"; group1 := None |}
    (fun s' => Some (group1 s')) = Some (Some id).
Proof.
  intros Hne Hq. destruct id as [| c id]; [done |].
  apply not_elem_of_cons in Hq as [Hc Hq].
  change (rmatch true (RGroup (RPlus (RSet true [39])))
            {| consumed := 12 + n; rest := c :: id ++ 39 :: js ")"; group1 := None |}
            (fun s' => rmatch true
               (RCat [RLit "'"; RStar RSpace;
                      ROpt (RCat [RLit ","; RStar RSpace; ROpt (RLit "'"); RDigit;
                                  ROpt (RLit "'")]);
                      RStar RSpace; RLit ")"]) s' (fun s' => Some (group1 s')))
          = Some (Some (c :: id))).
  apply rmatch_group_nonquote; [done | done |]. reflexivity.
Qed.

Lemma search_skip (icase : bool) (r : regex) (pos : nat) (c : Z) (s : jsstring) :
  rmatch icase r {| consumed := pos; rest := c :: s; group1 := None |}
    (fun s' => Some (group1 s')) = None ->
  search icase r pos (c :: s) = search icase r (S pos) s.
Proof. intros Hnone. cbn [search]. by rewrite Hnone. Qed.

Lemma search_Prt_after_scheme (t : jsstring) :
  search true RE_PRT 0 (js "javascript:" ++ t) = search true RE_PRT 11 t.
Proof.
  let l := eval vm_compute in (js "javascript:") in change (js "javascript:") with l.
  cbn [app]. by do 11 (rewrite search_skip by reflexivity).
Qed.

Lemma re_match_Prt_link (id : jsstring) :
  id <> [] -> 39 ∉ id ->
  re_match true RE_PRT (js "javascript:parent.Prt('" ++ id ++ js "')") = Some (Some id).
Proof.
  intros Hne Hq. unfold re_match.
  change (js "javascript:parent.Prt('" ++ id ++ js "')")
    with (js "javascript:" ++ js "parent.Prt('" ++ id ++ js "')").
  rewrite search_Prt_after_scheme.
  pose proof (rmatch_RE_PRT id 11 Hne Hq) as Hm.
  destruct (js "parent.Prt('" ++ id ++ js "')"); cbn [search]; by rewrite Hm.
Qed.

(** An anchor [javascript:parent.Prt('id')], for every non-empty [id]
    without a quote, is recognised by the [Prt] pattern, which captures
    exactly [id]; the anchor then points to the first candidate file of
    [id] that is present, and to [id.html] itself when that file is
    present. *)
Theorem Prt_link_is_recognised `{Runtime} (allPaths : gset jsstring) (rel id : jsstring) :
  id <> [] -> 39 ∉ id ->
  re_match true RE_PRT (js "javascript:parent.Prt('" ++ id ++ js "')") = Some (Some id) /\
  (forall cand, first_present allPaths rel id = Some cand ->
     rewrite_anchor allPaths rel (js "javascript:parent.Prt('" ++ id ++ js "')") = cand) /\
  (resolveRelative rel (id ++ js ".html") ∈ allPaths ->
     rewrite_anchor allPaths rel (js "javascript:parent.Prt('" ++ id ++ js "')")
     = id ++ js ".html").
Proof.
  intros Hne Hq. pose proof (re_match_Prt_link id Hne Hq) as Hm.
  assert (Hcand : forall cand, first_present allPaths rel id = Some cand ->
            rewrite_anchor allPaths rel (js "javascript:parent.Prt('" ++ id ++ js "')")
            = cand).
  { intros cand Hfirst. unfold rewrite_anchor.
    change (startsWith (js "javascript:parent.Prt('" ++ id ++ js "')")
              (js "javascript:parent.")) with true.
    cbn match. unfold rewrite_href. rewrite Hm.
    change (group_text (Some id)) with id. by rewrite Hfirst. }
  split_and!; [done | done |].
  intros Hpresent. apply Hcand. unfold first_present. cbn [candidateTargets find].
  by rewrite bool_decide_eq_true_2.
Qed.

Lemma Prt_link_is_recognised_witness :
  re_match true RE_PRT (js "javascript:parent.Prt('" ++ js "ABC123" ++ js "')")
  = Some (Some (js "ABC123")) /\
  (forall cand,
     first_present (H := posix_ascii_runtime)
       {[ js "en/html/ABC123_PR1.html" ]} (js "en/html/doc.html") (js "ABC123") = Some cand ->
     rewrite_anchor (H := posix_ascii_runtime)
       {[ js "en/html/ABC123_PR1.html" ]} (js "en/html/doc.html")
       (js "javascript:parent.Prt('" ++ js "ABC123" ++ js "')") = cand) /\
  (resolveRelative (H := posix_ascii_runtime) (js "en/html/doc.html")
     (js "ABC123" ++ js ".html") ∈ ({[ js "en/html/ABC123_PR1.html" ]} : gset jsstring) ->
   rewrite_anchor (H := posix_ascii_runtime)
     {[ js "en/html/ABC123_PR1.html" ]} (js "en/html/doc.html")
     (js "javascript:parent.Prt('" ++ js "ABC123" ++ js "')") = js "ABC123" ++ js ".html").
Proof.
  apply (Prt_link_is_recognised (H := posix_ascii_runtime)
           {[ js "en/html/ABC123_PR1.html" ]} (js "en/html/doc.html") (js "ABC123")).
  - done.
  - apply (bool_decide_unpack _). vm_compute. exact I.
Defined.

(** An empty id is not recognised, and the anchor gets the placeholder. *)
Example Prt_link_with_empty_id :
  re_match true RE_PRT (js "javascript:parent.Prt('')") = None /\
  rewrite_anchor (H := posix_ascii_runtime) ∅ (js "en/html/doc.html")
    (js "javascript:parent.Prt('')") = js "#".
Proof. by vm_compute. Qed.

(** ** Frameset pages *)

Lemma collect_frames_from (els : list Frame.element) (acc : list Frame.entry) :
  fold_left push_frame els acc
  = acc ++ map (fun el => {| Frame.name := attr_or_empty (Frame.attr_name el);
                             Frame.src := attr_or_empty (Frame.attr_src el) |})
               (filter (fun el => has_src el) els).
Proof.
  revert acc. induction els as [| el els IH]; intros acc; cbn [fold_left].
  - by rewrite app_nil_r.
  - rewrite IH. unfold push_frame.
    destruct (truthy (attr_or_empty (Frame.attr_src el))) eqn:Hsrc.
    + rewrite filter_cons_True by (apply Is_true_true; exact Hsrc).
      cbn [map]. by rewrite <- app_assoc.
    + rewrite filter_cons_False; [done |].
      intros Hx%Is_true_true. unfold has_src in Hx. congruence.
Qed.

Lemma frame_item_shown (el : Frame.element) :
  has_src el = true ->
  frame_item {| Frame.name := attr_or_empty (Frame.attr_name el);
                Frame.src := attr_or_empty (Frame.attr_src el) |} = shown_item el.
Proof.
  unfold has_src, frame_item, shown_item. cbn [Frame.name Frame.src].
  intros Hsrc. rewrite Hsrc.
  destruct (truthy (attr_or_empty (Frame.attr_name el))); [done |].
  by rewrite Hsrc.
Qed.

(** Frames without a source do not count: a frameset page is merged
    exactly when two of its frames have a non-empty [src], and the two
    panes are those two sources, in document order, resolved from the
    directory of the page. Otherwise the fallback page lists the frames
    that have a source, one item each, in document order; the label of an
    item is the name of the frame, or its source when it has no name, and
    never the text [frame]. *)
Theorem frameset_page_output_by_sourced_frames `{Runtime} (rel : jsstring)
    (els : list Frame.element) :
  match frameset_page_output rel els with
  | Merged aRel bRel =>
      exists a b, filter (fun el => has_src el) els = [a; b] /\
        aRel = resolveRelative rel (attr_or_empty (Frame.attr_src a)) /\
        bRel = resolveRelative rel (attr_or_empty (Frame.attr_src b))
  | Fallback list =>
      length (filter (fun el => has_src el) els) <> 2%nat /\
      list = join [10] (map shown_item (filter (fun el => has_src el) els))
  end.
Proof.
  unfold frameset_page_output, collect_frames. rewrite collect_frames_from.
  cbn [app]. rewrite length_map.
  destruct (Nat.eqb_spec (length (filter (fun el => has_src el) els)) 2) as [Hlen | Hlen].
  - destruct (filter (fun el => has_src el) els) as [| a [| b [| c l]]]; try done.
    by exists a, b.
  - split; [done |]. f_equal. rewrite map_map. apply map_ext_in.
    intros el Hel. apply frame_item_shown.
    apply list_elem_of_In, list_elem_of_filter in Hel as [Hsrc _].
    by apply Is_true_true.
Qed.

(** A frameset of three frames, one of them without a source: the page is
    merged from the two others. *)
Example frameset_with_an_empty_frame :
  frameset_page_output (H := posix_ascii_runtime) (js "en/html/S01.html")
    [{| Frame.attr_name := Some (js "top"); Frame.attr_src := None |};
     {| Frame.attr_name := Some (js "left"); Frame.attr_src := Some (js "S01_PR1.html") |};
     {| Frame.attr_name := None; Frame.attr_src := Some (js "../html/S01_PR2.html") |}]
  = Merged (js "en/html/S01_PR1.html") (js "en/html/S01_PR2.html").
Proof. by vm_compute. Qed.

Example frameset_fallback_list :
  frameset_page_output (H := posix_ascii_runtime) (js "en/html/S02.html")
    [{| Frame.attr_name := Some (js "main"); Frame.attr_src := Some (js "a.html") |};
     {| Frame.attr_name := Some (js "lost"); Frame.attr_src := Some [] |};
     {| Frame.attr_name := None; Frame.attr_src := Some (js "b.html") |};
     {| Frame.attr_name := Some []; Frame.attr_src := Some (js "c.html") |}]
  = Fallback (js "<li><a href=" ++ [QUOTE] ++ js "a.html" ++ [QUOTE] ++ js ">main</a></li>"
              ++ [10]
              ++ js "<li><a href=" ++ [QUOTE] ++ js "b.html" ++ [QUOTE] ++ js ">b.html</a></li>"
              ++ [10]
              ++ js "<li><a href=" ++ [QUOTE] ++ js "c.html" ++ [QUOTE] ++ js ">c.html</a></li>").
Proof. by vm_compute. Qed.

(** ** Paths kept out of the navigation *)

Lemma rmatch_literal {R : Type} (icase : bool) (lit s t : jsstring) (r : regex)
    (g : option jsstring) (k : mstate -> option R) :
  map (canon icase) s = map (canon icase) lit ->
  forall n : nat,
    rmatch icase (foldr (fun c r' => RSeq (RChar c) r') REps lit)
      {| consumed := n; rest := s ++ t; group1 := g |} (fun s' => rmatch icase r s' k)
    = rmatch icase r {| consumed := n + length s; rest := t; group1 := g |} k.
Proof.
  revert s. induction lit as [| c lit IH]; intros s Hs n.
  - destruct s; [| done]. cbn [foldr rmatch app length]. by rewrite Nat.add_0_r.
  - destruct s as [| x s]; [done |]. injection Hs as Hx Hs.
    cbn [foldr rmatch app rest]. rewrite Hx, Z.eqb_refl.
    change (advance {| consumed := n; rest := x :: s ++ t; group1 := g |})
      with {| consumed := S n; rest := s ++ t; group1 := g |}.
    cbn [rmatch]. rewrite (IH s Hs (S n)). do 2 f_equal. cbn [length]. lia.
Qed.

Lemma rmatch_RLit {R : Type} (icase : bool) (lit : string) (s t : jsstring) (r : regex)
    (g : option jsstring) (k : mstate -> option R) (n : nat) :
  map (canon icase) s = map (canon icase) (js lit) ->
  rmatch icase (RSeq (RLit lit) r) {| consumed := n; rest := s ++ t; group1 := g |} k
  = rmatch icase r {| consumed := n + length s; rest := t; group1 := g |} k.
Proof. intros Hs. exact (rmatch_literal icase (js lit) s t r g k Hs n). Qed.

Lemma rmatch_RBol {R : Type} (icase : bool) (s : jsstring) (r : regex)
    (g : option jsstring) (k : mstate -> option R) :
  rmatch icase (RSeq RBol r) {| consumed := 0; rest := s; group1 := g |} k
  = rmatch icase r {| consumed := 0; rest := s; group1 := g |} k.
Proof. reflexivity. Qed.

Lemma search_here (icase : bool) (r : regex) (pos : nat) (s : jsstring) :
  is_Some (rmatch icase r {| consumed := pos; rest := s; group1 := None |}
             (fun s' => Some (group1 s'))) ->
  is_Some (search icase r pos s).
Proof. intros [m Hm]. destruct s; cbn [search]; rewrite Hm; by eexists. Qed.

(** A file [ESMBLANK.HTML] in any directory, every path under a top
    directory [_COM], and the file [HONDAESM.HTML] at the top are excluded
    from the navigation, in whatever letter case they are written. *)
Theorem excluded_paths_in_any_letter_case :
  (forall dir name : jsstring,
     same_ignoring_case name (js "/ESMBLANK.HTML") ->
     isExcludedFromNav (dir ++ name) = true) /\
  (forall top below : jsstring,
     same_ignoring_case top (js "_COM/") -> isExcludedFromNav (top ++ below) = true) /\
  (forall p : jsstring,
     same_ignoring_case p (js "HONDAESM.HTML") -> isExcludedFromNav p = true).
Proof.
  unfold isExcludedFromNav, EXCLUDE_FROM_NAV, same_ignoring_case. split_and!.
  - intros dir name Hname. cbn [existsb].
    assert (Htest : re_test true (RCat [RLit "/ESMBLANK.HTML"; REol]) (dir ++ name) = true).
    { apply bool_decide_eq_true_2. apply search_suffix. intros n.
      rewrite <- (app_nil_r name).
      change (RCat [RLit "/ESMBLANK.HTML"; REol])
        with (RSeq (RLit "/ESMBLANK.HTML") (RSeq REol REps)).
      rewrite rmatch_RLit by done. by eexists. }
    rewrite Htest. by rewrite orb_true_r.
  - intros top below Htop. cbn [existsb].
    assert (Htest : re_test true (RCat [RBol; RLit "_COM/"]) (top ++ below) = true).
    { apply bool_decide_eq_true_2. apply search_here.
      change (RCat [RBol; RLit "_COM/"]) with (RSeq RBol (RSeq (RLit "_COM/") REps)).
      rewrite rmatch_RBol, rmatch_RLit by done. by eexists. }
    by rewrite Htest.
  - intros p Hp. cbn [existsb].
    assert (Htest : re_test true (RCat [RBol; RLit "HONDAESM.HTML"; REol]) p = true).
    { apply bool_decide_eq_true_2. apply search_here.
      rewrite <- (app_nil_r p).
      change (RCat [RBol; RLit "HONDAESM.HTML"; REol])
        with (RSeq RBol (RSeq (RLit "HONDAESM.HTML") (RSeq REol REps))).
      rewrite rmatch_RBol, rmatch_RLit by done. by eexists. }
    rewrite Htest. by rewrite !orb_true_r.
Qed.

Example blank_page_is_no_candidate :
  isExcludedFromNav (js "en/html/esmblank.html") = true /\
  collect (H := posix_ascii_runtime)
    [normal_page "en/html/esmblank.html" "Blank Page" "nothing here"] = [].
Proof. by vm_compute. Qed.

(** ** Meaningful titles *)

(** Whether a title is meaningful depends on the title without the white
    space at its ends only, and the test of its length adds nothing: a
    title is meaningful exactly when one of the code points of the trimmed
    title is a letter or a number. *)
Theorem isMeaningfulTitle_letter_or_number `{Runtime} (str : jsstring) :
  isMeaningfulTitle str = existsb isLetterOrNumber (codePoints (trim str)) /\
  isMeaningfulTitle (trim str) = isMeaningfulTitle str /\
  (Forall (fun c => is_js_space c = true) str -> isMeaningfulTitle str = false).
Proof.
  assert (Hlen : forall s, isMeaningfulTitle s = existsb isLetterOrNumber (codePoints (trim s))).
  { intros s. unfold isMeaningfulTitle. cbn zeta.
    destruct (trim s) as [| c t] eqn:Ht; [done |].
    unfold jslength. cbn [length].
    by rewrite (proj2 (Z.ltb_lt 0 (Z.of_nat (S (length t))))) by lia. }
  split_and!; [apply Hlen | by rewrite !Hlen, trim_idempotent |].
  intros Hsp. rewrite Hlen.
  assert (Hts : trimStart str = []).
  { induction str as [| c s IH]; [done |]. apply Forall_cons in Hsp as [Hc Hs].
    simpl. rewrite Hc. by apply IH. }
  unfold trim. by rewrite Hts.
Qed.

(* ================================================================= *)
(** * Title groups, the canonical page and the token multiset *)

(** C6: the fingerprint is a function of the multiset of the tokens. Two
    token lists that are permutations of each other have the same
    accumulators and the same fingerprint, since each token adds its own
    increment or decrement to each accumulator whatever its place. And the
    number of times a token occurs does count: of two tokens [a] and [b]
    with different hashes, the list with [a] twice and [b] once has the
    fingerprint of [a], the list with [a] once and [b] twice has that of
    [b], so two lists with the same set of tokens have different
    fingerprints. *)
Theorem simhash64_token_multiset :
  (forall tokens tokens' : list jsstring,
     tokens ≡ₚ tokens' ->
     accumulate tokens = accumulate tokens' /\ simhash64 tokens = simhash64 tokens') /\
  (forall a b : jsstring,
     fnv1a64 a <> fnv1a64 b ->
     simhash64 [a; a; b] = fnv1a64 a /\
     simhash64 [a; b; b] = fnv1a64 b /\
     simhash64 [a; a; b] <> simhash64 [a; b; b]).
Proof.
  split.
  - intros tokens tokens' Hperm.
    assert (Hacc : accumulate tokens = accumulate tokens')
      by by apply accumulate_Permutation.
    split; [exact Hacc |]. unfold simhash64. by rewrite Hacc.
  - intros a b Hab.
    assert (Ha : simhash64 [a; a; b] = fnv1a64 a).
    { rewrite <- (simhash64_singleton a). apply simhash64_ext. intros i _.
      cbn [tally foldr]. unfold delta.
      destruct (Z.testbit (fnv1a64 a) (Z.of_nat i)), (Z.testbit (fnv1a64 b) (Z.of_nat i));
        reflexivity. }
    assert (Hb : simhash64 [a; b; b] = fnv1a64 b).
    { rewrite <- (simhash64_singleton b). apply simhash64_ext. intros i _.
      cbn [tally foldr]. unfold delta.
      destruct (Z.testbit (fnv1a64 a) (Z.of_nat i)), (Z.testbit (fnv1a64 b) (Z.of_nat i));
        reflexivity. }
    split_and!; [done | done | congruence].
Qed.

Lemma simhash64_token_multiset_witness :
  (accumulate [js "engine"; js "removed"; js "engine"]
   = accumulate [js "removed"; js "engine"; js "engine"] /\
   simhash64 [js "engine"; js "removed"; js "engine"]
   = simhash64 [js "removed"; js "engine"; js "engine"]) /\
  (simhash64 [js "engine"; js "engine"; js "removed"] = fnv1a64 (js "engine") /\
   simhash64 [js "engine"; js "removed"; js "removed"] = fnv1a64 (js "removed") /\
   simhash64 [js "engine"; js "engine"; js "removed"]
   <> simhash64 [js "engine"; js "removed"; js "removed"]).
Proof.
  split.
  - apply (proj1 simhash64_token_multiset
             [js "engine"; js "removed"; js "engine"]
             [js "removed"; js "engine"; js "engine"]).
    apply perm_swap.
  - apply (proj2 simhash64_token_multiset (js "engine") (js "removed")).
    by vm_compute.
Defined.

(** C2: a title group of more than one member is sorted by text length,
    longest first, and its first element after the sort is the canonical
    page: no member is longer. The turn of the grouper on the group ends
    (64 turns of the Hamming loop are enough for fingerprints of 64 bits),
    the loop over the other members compares each of them with that page,
    and that page is the first of the kept pages. Of two members of 500
    and 480 characters the one of 500 characters is the canonical one,
    whichever comes first. *)
Theorem canonical_is_longest_member (arr : list candidate) :
  (1 < length arr)%nat -> Forall wf_candidate arr ->
  exists (canonical : candidate) (rest : list candidate),
    Array_sort by_textLen_desc arr = canonical :: rest /\
    canonical :: rest ≡ₚ arr /\
    StronglySorted longer_first (canonical :: rest) /\
    (forall m, m ∈ arr -> textLen m <= textLen canonical) /\
    (forall (R : Runtime) (written : jsstring -> jsstring) (fuel : nat)
            (st : state) (title : jsstring),
       (64 <= fuel)%nat ->
       exists (st' : state) (keep dupes : list candidate) (rd : list jsstring),
         process_group written fuel st title arr = Some st' /\
         classify_rest written fuel canonical rest [canonical] [] (reads st)
           = Some (canonical :: keep, dupes, rd) /\
         keep = filter (fun c => ¬ is_dup written canonical c) rest /\
         dupes = filter (fun c => is_dup written canonical c) rest /\
         navItems st' =
           push_nav title true dupes (push_nav title false (canonical :: keep) (navItems st))) /\
    (forall a b : candidate,
       textLen a = 500 -> textLen b = 480 ->
       Array_sort by_textLen_desc [a; b] = [a; b] /\
       Array_sort by_textLen_desc [b; a] = [a; b]).
Proof.
  intros Hlen Hwf.
  assert (Hne : arr <> []) by (intros ->; simpl in Hlen; lia).
  destruct (Array_sort_cons arr Hne) as (canonical & rest & Hsort).
  pose proof (Array_sort_Permutation by_textLen_desc arr) as Hperm.
  pose proof (Array_sort_longer_first arr) as Hsorted.
  rewrite Hsort in Hperm, Hsorted.
  exists canonical, rest. split_and!; [done | done | done | | |].
  - intros m Hm. rewrite <- Hperm in Hm.
    apply StronglySorted_inv in Hsorted as [_ Hall].
    apply elem_of_cons in Hm as [-> | Hm]; [lia |].
    rewrite Forall_forall in Hall. by apply Hall.
  - intros R written fuel st title Hfuel.
    assert (Hwf' : Forall wf_candidate (canonical :: rest)) by by rewrite Hperm.
    apply Forall_cons in Hwf' as [Hcan Hrest].
    pose proof (classify_rest_closed written fuel Hfuel canonical rest [canonical] []
                  (reads st) Hcan Hrest) as Hclass.
    cbn [app] in Hclass.
    destruct arr as [| c [| c' arr']]; simpl in Hlen; [lia | lia |].
    eexists _, (filter (fun c => ¬ is_dup written canonical c) rest),
            (filter (fun c => is_dup written canonical c) rest), _.
    split_and!; [| exact Hclass | done | done |].
    + unfold process_group. rewrite Hsort, Hclass. reflexivity.
    + reflexivity.
  - intros a b Ha Hb. unfold Array_sort, by_textLen_desc. simpl.
    rewrite Ha, Hb. done.
Qed.

Lemma canonical_is_longest_member_witness :
  exists (canonical : candidate) (rest : list candidate),
    Array_sort by_textLen_desc [engine_480; engine_500] = canonical :: rest /\
    canonical :: rest ≡ₚ [engine_480; engine_500] /\
    StronglySorted longer_first (canonical :: rest) /\
    (forall m, m ∈ [engine_480; engine_500] -> textLen m <= textLen canonical) /\
    (forall (R : Runtime) (written : jsstring -> jsstring) (fuel : nat)
            (st : state) (title : jsstring),
       (64 <= fuel)%nat ->
       exists (st' : state) (keep dupes : list candidate) (rd : list jsstring),
         process_group written fuel st title [engine_480; engine_500] = Some st' /\
         classify_rest written fuel canonical rest [canonical] [] (reads st)
           = Some (canonical :: keep, dupes, rd) /\
         keep = filter (fun c => ¬ is_dup written canonical c) rest /\
         dupes = filter (fun c => is_dup written canonical c) rest /\
         navItems st' =
           push_nav title true dupes (push_nav title false (canonical :: keep) (navItems st))) /\
    (forall a b : candidate,
       textLen a = 500 -> textLen b = 480 ->
       Array_sort by_textLen_desc [a; b] = [a; b] /\
       Array_sort by_textLen_desc [b; a] = [a; b]).
Proof.
  apply (canonical_is_longest_member [engine_480; engine_500]).
  - simpl. lia.
  - repeat constructor; unfold wf_candidate; simpl; lia.
Defined.

Section TitleGroups.
Context `{Runtime}.

(** [byTitle] files every candidate: the entry of a title that a
    candidate bears is the title group of that title, and it is the only
    entry of that title. *)
Lemma groupByTitle_title_group (candidates : list candidate) (t : jsstring) :
  t ∈ map strictTitle candidates ->
  title_group t candidates <> [] /\
  forall arr, (t, arr) ∈ groupByTitle candidates <-> arr = title_group t candidates.
Proof.
  intros Ht. apply list_elem_of_In, in_map_iff in Ht as (c & Hct & Hc).
  apply list_elem_of_In in Hc.
  destruct (groupByTitle_grouped candidates) as (Hnd & Hall & Hgroups).
  pose proof (Hall c Hc) as Hkey. rewrite Hct in Hkey.
  apply list_elem_of_fmap in Hkey as ([t' arr0] & Ht' & Hin). cbn [fst] in Ht'. subst t'.
  destruct (Hgroups t arr0 Hin) as [Harr0 Hne0].
  split; [unfold title_group; by rewrite <- Harr0 |].
  intros arr. split.
  - intros Harr. by destruct (Hgroups t arr Harr).
  - intros ->. unfold title_group. by rewrite <- Harr0.
Qed.

(** C3: the second pass ends. For every title [t] that a candidate bears,
    the title group of [t] (all the candidates whose strict title is [t],
    [N] of them) is the one entry of [byTitle] under [t], and the manifest
    holds exactly [N] entries of that title, one for each member, with the
    members' paths: none is removed. A report record of that title lists
    as [duplicates] the paths of the entries flagged duplicate and as
    [kept] the paths of the other entries of the title, and there is such
    a record exactly when an entry of the title is flagged. *)
Theorem manifest_keeps_every_member (written : jsstring -> jsstring)
    (fuel : nat) (pages : list page) (t : jsstring) :
  (64 <= fuel)%nat ->
  t ∈ map strictTitle (collect pages) ->
  exists out : output,
    dedupe written fuel (collect pages) = Some out /\
    title_group t (collect pages) <> [] /\
    (forall arr, (t, arr) ∈ groupByTitle (collect pages) <->
                 arr = title_group t (collect pages)) /\
    length (entries_of t (manifest out)) = length (title_group t (collect pages)) /\
    map Nav.path (entries_of t (manifest out))
    ≡ₚ map path (title_group t (collect pages)) /\
    (forall r : Report.record,
       r ∈ report out -> Report.title r = t ->
       Report.duplicates r ≡ₚ map Nav.path (flagged true (entries_of t (manifest out))) /\
       Report.kept r ≡ₚ map Nav.path (flagged false (entries_of t (manifest out)))) /\
    ((exists it, it ∈ entries_of t (manifest out) /\ Nav.dup it = true) <->
     (exists r, r ∈ report out /\ Report.title r = t)).
Proof.
  intros Hfuel Ht.
  destruct (groupByTitle_title_group (collect pages) t Ht) as [Hne Hgroup].
  destruct (manifest_of_group written fuel pages Hfuel) as (out & Hout & Hgroups).
  exists out. split; [exact Hout |].
  assert (Hin : (t, title_group t (collect pages)) ∈ groupByTitle (collect pages))
    by by apply Hgroup.
  destruct (Hgroups t (title_group t (collect pages)) Hin) as (Hlen & Hpaths & Hrec & Hiff).
  split_and!; done.
Qed.

(** C7, amended: a candidate made from a frameset page, or from a normal
    page whose title element holds more than white space, has as its
    [strictTitle], which is the key it is grouped under, the text of the
    title element of that page with the white space at its two ends
    removed and nothing else changed: runs of white space inside the title
    are not collapsed and invisible characters are not stripped. The
    candidate is filed with all the candidates of exactly this string. *)
Theorem strictTitle_is_trimmed_title_text (pages : list page) (p : page) (c : candidate) :
  c ∈ collect pages -> c = candidate_of_page p ->
  kind p = FramesetPage \/ trim (title_text (source p)) <> [] ->
  strictTitle c = trim (title_text (source p)) /\
  (exists before after,
     title_text (source p) = before ++ strictTitle c ++ after /\
     Forall (fun x => is_js_space x = true) before /\
     Forall (fun x => is_js_space x = true) after /\
     (forall x, head (strictTitle c) = Some x -> is_js_space x = false) /\
     (forall x, last (strictTitle c) = Some x -> is_js_space x = false)) /\
  (exists arr,
     (strictTitle c, arr) ∈ groupByTitle (collect pages) /\ c ∈ arr /\
     arr = filter (fun c' => strictTitle c' = strictTitle c) (collect pages)).
Proof.
  intros Hc -> Htitled.
  assert (Hstrict : strictTitle (candidate_of_page p) = trim (title_text (source p))).
  { unfold candidate_of_page, strict_of_page. cbn [strictTitle].
    destruct (kind p) eqn:Hkind; [done |].
    destruct Htitled as [? | Hne]; [done |].
    unfold headTitleStrict, set_title, displayTitle. cbn [title_text].
    destruct (trim (title_text (source p))) as [| x t] eqn:Ht; [done |].
    cbn [truthy]. by rewrite <- Ht, trim_idempotent. }
  split_and!; [done | rewrite Hstrict; apply trim_spec |].
  assert (Hkey : strictTitle (candidate_of_page p) ∈ map strictTitle (collect pages)).
  { apply list_elem_of_In, in_map. by apply list_elem_of_In. }
  destruct (groupByTitle_title_group (collect pages) _ Hkey) as [_ Hgroup].
  exists (title_group (strictTitle (candidate_of_page p)) (collect pages)).
  split_and!; [by apply Hgroup | | done].
  unfold title_group. by apply list_elem_of_filter.
Qed.

End TitleGroups.

Lemma manifest_keeps_every_member_witness :
  exists out : output,
    dedupe (H := posix_ascii_runtime) (written_from beta_pages) 64 (collect beta_pages)
    = Some out /\
    title_group (js "Beta Title") (collect (H := posix_ascii_runtime) beta_pages) <> [] /\
    (forall arr, (js "Beta Title", arr) ∈ groupByTitle (collect beta_pages) <->
                 arr = title_group (js "Beta Title") (collect beta_pages)) /\
    length (entries_of (js "Beta Title") (manifest out))
    = length (title_group (js "Beta Title") (collect beta_pages)) /\
    map Nav.path (entries_of (js "Beta Title") (manifest out))
    ≡ₚ map path (title_group (js "Beta Title") (collect beta_pages)) /\
    (forall r : Report.record,
       r ∈ report out -> Report.title r = js "Beta Title" ->
       Report.duplicates r
       ≡ₚ map Nav.path (flagged true (entries_of (js "Beta Title") (manifest out))) /\
       Report.kept r
       ≡ₚ map Nav.path (flagged false (entries_of (js "Beta Title") (manifest out)))) /\
    ((exists it, it ∈ entries_of (js "Beta Title") (manifest out) /\ Nav.dup it = true) <->
     (exists r, r ∈ report out /\ Report.title r = js "Beta Title")).
Proof.
  apply (manifest_keeps_every_member (H := posix_ascii_runtime)
           (written_from beta_pages) 64 beta_pages (js "Beta Title")).
  - lia.
  - apply (bool_decide_unpack _). vm_compute. exact I.
Defined.

(** The second pass on two pages of one title: both are in the manifest,
    the shorter one flagged after both files were read back, and the
    record lists it. *)
Example beta_title_group_run :
  dedupe (H := posix_ascii_runtime) (written_from beta_pages) 64 (collect beta_pages) =
  Some {| manifest :=
            [{| Nav.title := js "Beta Title";
                Nav.path := js "en/html/b2.html"; Nav.dup := false |};
             {| Nav.title := js "Beta Title";
                Nav.path := js "en/html/b1.html"; Nav.dup := true |}];
          report :=
            [{| Report.title := js "Beta Title";
                Report.kept := [js "en/html/b2.html"];
                Report.duplicates := [js "en/html/b1.html"];
                Report.reason := REASON |}];
          files_read := [js "en/html/b2.html"; js "en/html/b1.html"] |}.
Proof. by vm_compute. Qed.

Lemma strictTitle_is_trimmed_title_text_witness :
  strictTitle (candidate_of_page (H := posix_ascii_runtime)
    (normal_page "en/html/a1.html" "Alpha Title" "engine removed"))
  = trim (title_text (source (normal_page "en/html/a1.html" "Alpha Title" "engine removed"))) /\
  (exists before after,
     title_text (source (normal_page "en/html/a1.html" "Alpha Title" "engine removed"))
     = before ++ strictTitle (candidate_of_page (H := posix_ascii_runtime)
         (normal_page "en/html/a1.html" "Alpha Title" "engine removed")) ++ after /\
     Forall (fun x => is_js_space x = true) before /\
     Forall (fun x => is_js_space x = true) after /\
     (forall x, head (strictTitle (candidate_of_page (H := posix_ascii_runtime)
        (normal_page "en/html/a1.html" "Alpha Title" "engine removed"))) = Some x ->
        is_js_space x = false) /\
     (forall x, last (strictTitle (candidate_of_page (H := posix_ascii_runtime)
        (normal_page "en/html/a1.html" "Alpha Title" "engine removed"))) = Some x ->
        is_js_space x = false)) /\
  (exists arr,
     (strictTitle (candidate_of_page (H := posix_ascii_runtime)
        (normal_page "en/html/a1.html" "Alpha Title" "engine removed")), arr)
       ∈ groupByTitle (collect (H := posix_ascii_runtime) alpha_pages) /\
     candidate_of_page (H := posix_ascii_runtime)
       (normal_page "en/html/a1.html" "Alpha Title" "engine removed") ∈ arr /\
     arr = filter (fun c' => strictTitle c' = strictTitle (candidate_of_page
             (H := posix_ascii_runtime)
             (normal_page "en/html/a1.html" "Alpha Title" "engine removed")))
           (collect (H := posix_ascii_runtime) alpha_pages)).
Proof.
  apply (strictTitle_is_trimmed_title_text (H := posix_ascii_runtime) alpha_pages
           (normal_page "en/html/a1.html" "Alpha Title" "engine removed")).
  - apply (bool_decide_unpack _). vm_compute. exact I.
  - reflexivity.
  - right. by vm_compute.
Defined.
